(** * Shearing-sheet boundary remap of Athena's [hgb.c]

    A shallow embedding of [shear_ix1_ox1] and [CompRemapFlux]
    (src/prob/hgb.c) and the properties of the shear-offset decomposition,
    the frame boost applied while gathering, the conservative remap kernels
    and the ghost-zone write-back.

    Number model.  The C type [Real] is embedded as the exact rationals [Q]:
    every arithmetic operator of the source is the corresponding exact
    operation, comparisons are decided exactly, and all statements about
    values are up to [Qeq] ([==]).  Rounding, infinities and NaN are outside
    the model.  Division by zero, which the source never guards, is [0] in
    [Q]; every theorem that depends on a divisor carries the hypothesis that
    it is non-zero.

    Integers.  C [int] indices are embedded as [Z]; the cast [(int)x] is
    truncation toward zero.  Grid extents are far below the 32-bit range, so
    no wrap-around is written out.

    Arrays are total maps from [Z] indices; an out-of-range access of the
    source has no counterpart here, index-range claims are proved on the
    indices themselves. *)

From Stdlib Require Import ZArith QArith Qabs Qround Lqa Lia List Bool.
Import ListNotations.

Local Open Scope Q_scope.

(** ** The type [Real] and the macros of [defs.h] *)

Definition Real : Type := Q.

(** The comparisons [<], [<=] and [==] of C on [Real], as booleans. *)
Definition Rlt_b (x y : Real) : bool := if Qlt_le_dec x y then true else false.
Definition Rle_b (x y : Real) : bool := if Qlt_le_dec y x then false else true.
Definition Req_b (x y : Real) : bool := if Qeq_dec x y then true else false.

Infix "<?" := Rlt_b (at level 70, no associativity) : Q_scope.
Infix "<=?" := Rle_b (at level 70, no associativity) : Q_scope.
Infix "=?" := Req_b (at level 70, no associativity) : Q_scope.

(** Modelled from the spec: the macro [MIN] of defs.h (not part of the
    sources at hand), "min(...)" in the limiter formula of section 4.2;
    the usual [((a) < (b)) ? (a) : (b)]. *)
Definition MIN (a b : Real) : Real := if a <? b then a else b.

(** Modelled from the spec: the macro [SIGN] of defs.h, "sign(centered)" in
    section 4.2; [((a) < 0.) ? -1. : 1.]. *)
Definition SIGN (a : Real) : Real := if a <? 0 then -(1) else 1.

(** Modelled from the spec: the macro [SQR] of defs.h, the square in
    "new_momentum^2 - old_momentum^2" of section 4.3. *)
Definition SQR (x : Real) : Real := x * x.

(** Modelled from the spec: the constant [TWO_3RDS] of defs.h, the factor
    "(2/3)" in the closed form of section 4.2, step (6). *)
Definition TWO_3RDS : Real := 2 # 3.

(** [fabs] of math.h. *)
Definition fabs (x : Real) : Real := Qabs x.

(** The cast [(int)x]: truncation toward zero. *)
Definition int_of_Real (x : Real) : Z := Z.quot (Qnum x) (Zpos (Qden x)).

(** [fmod] of math.h: [x - n*y] where [n] is [x/y] truncated toward zero, so
    the result carries the sign of [x]. *)
Definition fmod (x y : Real) : Real := x - inject_Z (int_of_Real (x / y)) * y.

(** ** Loops *)

(** [for_loop n i body st] runs [body i], [body (i+1)], ... [n] times. *)
Fixpoint for_loop {S : Type} (n : nat) (i : Z) (body : Z -> S -> S) (st : S) : S :=
  match n with
  | O => st
  | Datatypes.S n' => for_loop n' (i + 1)%Z body (body i st)
  end.

(** [for (i = lo; i <= hi; i++) body]. *)
Definition for_range {S : Type} (lo hi : Z) (body : Z -> S -> S) (st : S) : S :=
  for_loop (Z.to_nat (hi + 1 - lo)) lo body st.

(** Array update. *)
Definition upd {A : Type} (a : Z -> A) (i : Z) (v : A) : Z -> A :=
  fun j => if Z.eq_dec j i then v else a j.

(** ** Compile-time configuration *)

Inductive Order := SECOND_ORDER | THIRD_ORDER.

(** The macros that select the code compiled into [hgb.c]: the equation of
    state, magnetic fields, the number of passive scalars, the reconstruction
    order and the ghost-zone depth [nghost]. *)
Record Config := mkConfig {
  ADIABATIC : bool;
  MHD : bool;
  NSCALARS : nat;
  order : Order;
  nghost : Z
}.

(** ** The shear offset (hgb.c, lines 340-351) *)

Record ShearOffset := mkOffset {
  yshear : Real;
  deltay : Real;
  j_offset : Z;
  epsi : Real;
  epso : Real
}.

(** The cast of line 349 is taken of the exact quotient [deltay/dx2].  The
    program casts that quotient rounded to a double: where the exact
    quotient lies within rounding below an integer its [j_offset] is that
    integer, one more than here, while its [epsi], from [fmod], stays just
    below 1.  What the two remap phases do is therefore also stated for an
    arbitrary offset record. *)
Definition shear_offset (Omega Lx Ly time dx2 : Real) : ShearOffset :=
  let yshear := (3 # 2) * Omega * Lx * time in
  let deltay := fmod yshear Ly in
  let j_offset := int_of_Real (deltay / dx2) in
  let epsi := fmod deltay dx2 / dx2 in
  let epso := - epsi in
  mkOffset yshear deltay j_offset epsi epso.

(** ** The index wrap of the gather loops (lines 360-361 and 422-423) *)

Definition j_remap_ix1 (js Nx2 j j_offset : Z) : Z :=
  let j_remap := (j - j_offset)%Z in
  if (j_remap <? js)%Z then (j_remap + Nx2)%Z else j_remap.

Definition j_remap_ox1 (je Nx2 j j_offset : Z) : Z :=
  let j_remap := (j + j_offset)%Z in
  if (j_remap >? je)%Z then (j_remap - Nx2)%Z else j_remap.

(** ** Conserved variables *)

(** Modelled from the spec: the struct [Gas] of athena.h (not part of the
    sources at hand), the ConservedState of section 3: mass density, three
    momenta, total energy when the gas is adiabatic, cell-centred magnetic
    field under MHD, and [NSCALARS] passive scalars [s[n]]. *)
Record Gas := mkGas {
  d : Real;
  M1 : Real;
  M2 : Real;
  M3 : Real;
  E : Real;
  B1c : Real;
  B2c : Real;
  B3c : Real;
  s : nat -> Real
}.

(** The [Real] members of [Gas].  [CompRemapFlux] reads a [Gas] as an array
    of [NVAR] [Real]s through the cast [(Real* )&(U[i])]; a member is named
    here by its [Field] instead of by its position. *)
Inductive Field :=
  | F_d | F_M1 | F_M2 | F_M3 | F_E | F_B1c | F_B2c | F_B3c
  | F_s (n : nat).

Definition Field_eq_dec (f g : Field) : {f = g} + {f <> g}.
Proof. decide equality. apply Nat.eq_dec. Defined.

Definition get (f : Field) (g : Gas) : Real :=
  match f with
  | F_d => d g | F_M1 => M1 g | F_M2 => M2 g | F_M3 => M3 g
  | F_E => E g | F_B1c => B1c g | F_B2c => B2c g | F_B3c => B3c g
  | F_s n => s g n
  end.

Definition set (f : Field) (v : Real) (g : Gas) : Gas :=
  match f with
  | F_d => mkGas v (M1 g) (M2 g) (M3 g) (E g) (B1c g) (B2c g) (B3c g) (s g)
  | F_M1 => mkGas (d g) v (M2 g) (M3 g) (E g) (B1c g) (B2c g) (B3c g) (s g)
  | F_M2 => mkGas (d g) (M1 g) v (M3 g) (E g) (B1c g) (B2c g) (B3c g) (s g)
  | F_M3 => mkGas (d g) (M1 g) (M2 g) v (E g) (B1c g) (B2c g) (B3c g) (s g)
  | F_E => mkGas (d g) (M1 g) (M2 g) (M3 g) v (B1c g) (B2c g) (B3c g) (s g)
  | F_B1c => mkGas (d g) (M1 g) (M2 g) (M3 g) (E g) v (B2c g) (B3c g) (s g)
  | F_B2c => mkGas (d g) (M1 g) (M2 g) (M3 g) (E g) (B1c g) v (B3c g) (s g)
  | F_B3c => mkGas (d g) (M1 g) (M2 g) (M3 g) (E g) (B1c g) (B2c g) v (s g)
  | F_s n =>
      mkGas (d g) (M1 g) (M2 g) (M3 g) (E g) (B1c g) (B2c g) (B3c g)
            (fun m => if Nat.eq_dec m n then v else s g m)
  end.

(** The members present in a configuration, in declaration order: entry [n]
    is the [Real] that [pU[i][n]] addresses, and [NVAR] is their number. *)
Definition fields (cfg : Config) : list Field :=
  [F_d; F_M1; F_M2; F_M3]
  ++ (if ADIABATIC cfg then [F_E] else [])
  ++ (if MHD cfg then [F_B1c; F_B2c; F_B3c] else [])
  ++ map F_s (seq 0 (NSCALARS cfg)).

Definition NVAR (cfg : Config) : nat := length (fields cfg).

(** A loop [for (n=0; n<NVAR; n++) p[n] = val[n]] through a pointer [p] to a
    [Gas] seen as an array of [Real]. *)
Definition write_comps (fs : list Field) (val : Field -> Real) (g : Gas) : Gas :=
  fold_left (fun g f => set f (val f) g) fs g.

(** The same loop on a row of a two-dimensional [Real] array. *)
Definition write_row (fs : list Field) (val : Field -> Real)
    (row : Field -> Real) : Field -> Real :=
  fold_left (fun r f => fun f' => if Field_eq_dec f' f then val f else r f') fs row.

(** ** Grid, globals and memory *)

(** The scalar members of [Grid] that the boundary routine reads. *)
Record Grid := mkGrid {
  is_ : Z; ie : Z;
  js : Z; je : Z;
  ks : Z; ke : Z;
  Nx2 : Z;
  dx2 : Real;
  time : Real
}.

(** The global [Omega] and the file-scope box sizes [Lx], [Ly]. *)
Record Globals := mkGlobals {
  Omega : Real;
  Lx : Real;
  Ly : Real
}.

(** The arrays the routine writes: the grid's [pG->U[k][j][i]] and the
    file-scope scratch arrays [RemapGas[i][j]], [Flx[j]] and [Uhalf[i][n]].
    The pointer array [pU] only aliases the input pencil and is read through
    [get]. *)
Record Mem := mkMem {
  U : Z -> Z -> Z -> Gas;
  RemapGas : Z -> Z -> Gas;
  Flx : Z -> Gas;
  Uhalf : Z -> Field -> Real
}.

Definition upd2 {A : Type} (a : Z -> Z -> A) (i j : Z) (v : A) : Z -> Z -> A :=
  upd a i (upd (a i) j v).

Definition upd3 {A : Type} (a : Z -> Z -> Z -> A) (k j i : Z) (v : A)
    : Z -> Z -> Z -> A :=
  upd a k (upd2 (a k) j i v).

(** ** [CompRemapFlux], second order (lines 498-552)

    The local arrays [dUc], [dUl], [dUr], [dUm] are indexed by the component;
    every loop over [n] computes entry [n] from entries [n] only, so an array
    is embedded as the function giving its entry after the loop. *)

Section SecondOrder.
Variable cfg : Config.
Variable pU : Z -> Gas.      (* the input pencil [U], read through [pU] *)
Variable eps : Real.

(** Step 2: centred and left/right differences at cell [i]. *)
Definition dUc (i : Z) (n : Field) : Real := get n (pU (i + 1)%Z) - get n (pU (i - 1)%Z).
Definition dUl (i : Z) (n : Field) : Real := get n (pU i) - get n (pU (i - 1)%Z).
Definition dUr (i : Z) (n : Field) : Real := get n (pU (i + 1)%Z) - get n (pU i).

(** Step 3: the monotonised slope. *)
Definition dUm (i : Z) (n : Field) : Real :=
  if 0 <? dUl i n * dUr i n then
    let lim_slope := MIN (fabs (dUl i n)) (fabs (dUr i n)) in
    SIGN (dUc i n) * MIN ((1 # 2) * fabs (dUc i n)) (2 * lim_slope)
  else 0.

(** Step 4: the flux through the interface selected by the sign of [eps]. *)
Definition flux2_pos (i : Z) (n : Field) : Real :=
  eps * (get n (pU i) + (1 # 2) * (1 - eps) * dUm i n).
Definition flux2_neg (i : Z) (n : Field) : Real :=
  eps * (get n (pU i) - (1 # 2) * (1 + eps) * dUm i n).

(** One pass of the loop over [i]. *)
Definition remap2_body (i : Z) (Flux : Z -> Gas) : Z -> Gas :=
  if 0 <? eps then
    upd Flux (i + 1)%Z (write_comps (fields cfg) (flux2_pos i) (Flux (i + 1)%Z))
  else
    upd Flux i (write_comps (fields cfg) (flux2_neg i) (Flux i)).

Definition CompRemapFlux2 (il iu : Z) (Flux : Z -> Gas) : Z -> Gas :=
  for_range (il - 1)%Z (iu + 1)%Z remap2_body Flux.
End SecondOrder.

(** ** [CompRemapFlux], third order (lines 560-699) *)

Section ThirdOrder.
Variable cfg : Config.
Variable pU : Z -> Gas.
Variable eps : Real.

(** Step 2, first loop over [n]: the four-point interface estimate. *)
Definition Uhalf_est (i : Z) (n : Field) : Real :=
  (7 * (get n (pU (i - 1)%Z) + get n (pU i))
   - (get n (pU (i - 2)%Z) + get n (pU (i + 1)%Z))) / 12.

(** Step 2, second loop over [n]: the limited second difference at
    interface [i], from the current [Uhalf[i][n]]. *)
Definition d2Ulim_face (i : Z) (uh : Real) (n : Field) : Real :=
  let d2Uc := 3 * (get n (pU (i - 1)%Z) - 2 * uh + get n (pU i)) in
  let d2Ul := get n (pU (i - 2)%Z) - 2 * get n (pU (i - 1)%Z) + get n (pU i) in
  let d2Ur := get n (pU (i - 1)%Z) - 2 * get n (pU i) + get n (pU (i + 1)%Z) in
  let d2Ulim := 0 in
  let lim_slope := MIN (fabs d2Ul) (fabs d2Ur) in
  let d2Ulim :=
    if (0 <? d2Uc) && (0 <? d2Ul) && (0 <? d2Ur)
    then SIGN d2Uc * MIN ((5 # 4) * lim_slope) (fabs d2Uc) else d2Ulim in
  let d2Ulim :=
    if (d2Uc <? 0) && (d2Ul <? 0) && (d2Ur <? 0)
    then SIGN d2Uc * MIN ((5 # 4) * lim_slope) (fabs d2Uc) else d2Ulim in
  d2Ulim.

(** Step 2, third loop over [n]. *)
Definition Uhalf_lim (i : Z) (d2Ulim : Real) (n : Field) : Real :=
  (1 # 2) * ((get n (pU (i - 1)%Z) + get n (pU i)) - d2Ulim / 3).

(** One pass of the first loop over [i]. *)
Definition interface_body (i : Z) (Uhalf : Z -> Field -> Real) : Z -> Field -> Real :=
  let Uhalf1 := upd Uhalf i (write_row (fields cfg) (Uhalf_est i) (Uhalf i)) in
  let d2Ulim := fun n => d2Ulim_face i (Uhalf1 i n) n in
  upd Uhalf1 i (write_row (fields cfg) (fun n => Uhalf_lim i (d2Ulim n) n) (Uhalf1 i)).

(** Step 4 for one component: [(Ulv[n], Urv[n])] after the loop. *)
Definition parabola_edges (i : Z) (n : Field) (Ulv Urv : Real) : Real * Real :=
  let u := get n (pU i) in
  let qa := (Urv - u) * (u - Ulv) in
  let qb := (get n (pU (i - 1)%Z) - u) * (u - get n (pU (i + 1)%Z)) in
  if (qa <=? 0) && (qb <=? 0) then
    let qc := 6 * (u - (1 # 2) * (Ulv + Urv)) in
    let d2U := - (2) * qc in
    let d2Uc := get n (pU (i - 1)%Z) - 2 * u + get n (pU (i + 1)%Z) in
    let d2Ul := get n (pU (i - 2)%Z) - 2 * get n (pU (i - 1)%Z) + u in
    let d2Ur := u - 2 * get n (pU (i + 1)%Z) + get n (pU (i + 2)%Z) in
    let d2Ulim := 0 in
    let lim_slope := MIN (fabs d2Ul) (fabs d2Ur) in
    let lim_slope := MIN (fabs d2Uc) lim_slope in
    let d2Ulim :=
      if (0 <? d2Uc) && (0 <? d2Ul) && (0 <? d2Ur) && (0 <? d2U)
      then SIGN d2U * MIN ((5 # 4) * lim_slope) (fabs d2U) else d2Ulim in
    let d2Ulim :=
      if (d2Uc <? 0) && (d2Ul <? 0) && (d2Ur <? 0) && (d2U <? 0)
      then SIGN d2U * MIN ((5 # 4) * lim_slope) (fabs d2U) else d2Ulim in
    if d2U =? 0 then (u, u)
    else (u + (Ulv - u) * d2Ulim / d2U, u + (Urv - u) * d2Ulim / d2U)
  else (Ulv, Urv).

(** Step 5 for one component. *)
Definition monotonize (i : Z) (n : Field) (Ulv Urv : Real) : Real * Real :=
  let u := get n (pU i) in
  let qa := (Urv - u) * (u - Ulv) in
  let qb := Urv - Ulv in
  let qc := 6 * (u - (1 # 2) * (Ulv + Urv)) in
  if qa <=? 0 then (u, u)
  else if qb * qb <? qb * qc then (3 * u - 2 * Urv, Urv)
  else if qb * qc <? - (qb * qb) then (Ulv, 3 * u - 2 * Ulv)
  else (Ulv, Urv).

(** Steps 3 to 5: the edge values of cell [i], from [Uhalf]. *)
Definition edges (Uhalf : Z -> Field -> Real) (i : Z) (n : Field) : Real * Real :=
  let Ulv := Uhalf i n in
  let Urv := Uhalf (i + 1)%Z n in
  let '(Ulv, Urv) := parabola_edges i n Ulv Urv in
  monotonize i n Ulv Urv.

(** Steps 6 and 7. *)
Definition flux3_pos (Uhalf : Z -> Field -> Real) (i : Z) (n : Field) : Real :=
  let '(Ulv, Urv) := edges Uhalf i n in
  let dU := Urv - Ulv in
  let U6 := 6 * (get n (pU i) - (1 # 2) * (Ulv + Urv)) in
  let qx := TWO_3RDS * eps in
  eps * (Urv - (3 # 4) * qx * (dU - (1 - qx) * U6)).

Definition flux3_neg (Uhalf : Z -> Field -> Real) (i : Z) (n : Field) : Real :=
  let '(Ulv, Urv) := edges Uhalf i n in
  let dU := Urv - Ulv in
  let U6 := 6 * (get n (pU i) - (1 # 2) * (Ulv + Urv)) in
  let qx := - TWO_3RDS * eps in
  eps * (Ulv + (3 # 4) * qx * (dU + (1 - qx) * U6)).

(** One pass of the second loop over [i]. *)
Definition remap3_body (Uhalf : Z -> Field -> Real) (i : Z) (Flux : Z -> Gas)
    : Z -> Gas :=
  if 0 <? eps then
    upd Flux (i + 1)%Z (write_comps (fields cfg) (flux3_pos Uhalf i) (Flux (i + 1)%Z))
  else
    upd Flux i (write_comps (fields cfg) (flux3_neg Uhalf i) (Flux i)).

Definition CompRemapFlux3 (il iu : Z) (Flux : Z -> Gas) (Uhalf : Z -> Field -> Real)
    : (Z -> Gas) * (Z -> Field -> Real) :=
  let Uhalf := for_range (il - 1)%Z (iu + 2)%Z interface_body Uhalf in
  (for_range (il - 1)%Z (iu + 1)%Z (remap3_body Uhalf) Flux, Uhalf).
End ThirdOrder.

(** [CompRemapFlux] as compiled: the build's reconstruction order decides. *)
Definition CompRemapFlux (cfg : Config) (pU : Z -> Gas) (eps : Real) (il iu : Z)
    (Flux : Z -> Gas) (Uhalf : Z -> Field -> Real)
    : (Z -> Gas) * (Z -> Field -> Real) :=
  match order cfg with
  | SECOND_ORDER => (CompRemapFlux2 cfg pU eps il iu Flux, Uhalf)
  | THIRD_ORDER => CompRemapFlux3 cfg pU eps il iu Flux Uhalf
  end.

(** ** [shear_ix1_ox1] (lines 327-477) *)

Section Shear.
Variable cfg : Config.
Variable gl : Globals.
Variable pG : Grid.

(** Lines 365-379: one cell of the ix1 gather.  [src] is
    [pG->U[k][j_remap][ie-nghost+1+i]], [dst] the previous content of
    [RemapGas[i][j]]. *)
Definition gather_ix1_cell (src dst : Gas) : Gas :=
  let r := set F_d (d src) dst in
  let r := set F_M1 (M1 src) r in
  let r := set F_M2 (M2 src) r in
  let r := set F_M2 (M2 r + (3 # 2) * Omega gl * Lx gl * d r) r in
  let r := set F_M3 (M3 src) r in
  let r :=
    if ADIABATIC cfg then
      let r := set F_E (E src) r in
      set F_E (E r + ((1 # 2) / d r) * (SQR (M2 r) - SQR (M2 src))) r
    else r in
  fold_left (fun r n => set (F_s n) (s src n) r) (seq 0 (NSCALARS cfg)) r.

(** Lines 427-441: one cell of the ox1 gather; [src] is
    [pG->U[k][j_remap][is+i]]. *)
Definition gather_ox1_cell (src dst : Gas) : Gas :=
  let r := set F_d (d src) dst in
  let r := set F_M1 (M1 src) r in
  let r := set F_M2 (M2 src) r in
  let r := set F_M2 (M2 r - (3 # 2) * Omega gl * Lx gl * d r) r in
  let r := set F_M3 (M3 src) r in
  let r :=
    if ADIABATIC cfg then
      let r := set F_E (E src) r in
      set F_E (E r + ((1 # 2) / d r) * (SQR (M2 r) - SQR (M2 src))) r
    else r in
  fold_left (fun r n => set (F_s n) (s src n) r) (seq 0 (NSCALARS cfg)) r.

(** Lines 359-381: the ix1 gather of slice [k]. *)
Definition gather_ix1 (j_offset k : Z) (m : Mem) : Mem :=
  for_range (js pG) (je pG) (fun j m =>
    let j_remap := j_remap_ix1 (js pG) (Nx2 pG) j j_offset in
    for_range 0 (nghost cfg - 1) (fun i m =>
      mkMem (U m)
            (upd2 (RemapGas m) i j
               (gather_ix1_cell (U m k j_remap (ie pG - nghost cfg + 1 + i)%Z)
                                (RemapGas m i j)))
            (Flx m) (Uhalf m)) m) m.

(** Lines 421-443: the ox1 gather of slice [k]. *)
Definition gather_ox1 (j_offset k : Z) (m : Mem) : Mem :=
  for_range (js pG) (je pG) (fun j m =>
    let j_remap := j_remap_ox1 (je pG) (Nx2 pG) j j_offset in
    for_range 0 (nghost cfg - 1) (fun i m =>
      mkMem (U m)
            (upd2 (RemapGas m) i j
               (gather_ox1_cell (U m k j_remap (is_ pG + i)%Z) (RemapGas m i j)))
            (Flx m) (Uhalf m)) m) m.

(** Lines 384-389 and 446-451: y-periodicity of [RemapGas]. *)
Definition periodic (R : Z -> Z -> Gas) : Z -> Z -> Gas :=
  for_range 0 (nghost cfg - 1) (fun i R =>
    for_range 1 (nghost cfg) (fun j R =>
      let R := upd2 R i (js pG - j)%Z (R i (je pG + 1 - j)%Z) in
      upd2 R i (je pG + j)%Z (R i (js pG + j - 1)%Z)) R) R.

(** Lines 399-405: the members of an ix1 ghost cell assigned from pencil
    [R] and fluxes [F].  The passive-scalar statement of lines 406-409,
    [Flx[j].[n]] inside an unclosed brace, is not C: it is compiled out when
    [NSCALARS] is 0 and stops the build otherwise, so it has no embedding. *)
Definition write_ix1_cell (R F : Z -> Gas) (j : Z) (c : Gas) : Gas :=
  let c := set F_d (d (R j) - (d (F (j + 1)%Z) - d (F j))) c in
  let c := set F_M1 (M1 (R j) - (M1 (F (j + 1)%Z) - M1 (F j))) c in
  let c := set F_M2 (M2 (R j) - (M2 (F (j + 1)%Z) - M2 (F j))) c in
  let c := set F_M3 (M3 (R j) - (M3 (F (j + 1)%Z) - M3 (F j))) c in
  if ADIABATIC cfg then set F_E (E (R j) - (E (F (j + 1)%Z) - E (F j))) c else c.

(** Lines 461-471: the members of an ox1 ghost cell. *)
Definition write_ox1_cell (R F : Z -> Gas) (j : Z) (c : Gas) : Gas :=
  let c := set F_d (d (R j) - (d (F (j + 1)%Z) - d (F j))) c in
  let c := set F_M1 (M1 (R j) - (M1 (F (j + 1)%Z) - M1 (F j))) c in
  let c := set F_M2 (M2 (R j) - (M2 (F (j + 1)%Z) - M2 (F j))) c in
  let c := set F_M3 (M3 (R j) - (M3 (F (j + 1)%Z) - M3 (F j))) c in
  let c :=
    if ADIABATIC cfg then set F_E (E (R j) - (E (F (j + 1)%Z) - E (F j))) c else c in
  fold_left (fun c n => set (F_s n) (s (R j) n - (s (F (j + 1)%Z) n - s (F j) n)) c)
            (seq 0 (NSCALARS cfg)) c.

(** Lines 395-412 and 457-473: remap of every ghost layer of slice [k].
    [i0] is the first ghost column ([is-nghost] or [ie+1]) and [write] the
    cell assignment of the face. *)
Definition remap_layers (write : (Z -> Gas) -> (Z -> Gas) -> Z -> Gas -> Gas)
    (eps : Real) (i0 k : Z) (m : Mem) : Mem :=
  for_range 0 (nghost cfg - 1) (fun i m =>
    let '(F, Uh) :=
      CompRemapFlux cfg (RemapGas m i) eps (js pG) (je pG + 1)%Z (Flx m) (Uhalf m) in
    let m := mkMem (U m) (RemapGas m) F Uh in
    for_range (js pG) (je pG) (fun j m =>
      mkMem (upd3 (U m) k j (i0 + i)%Z
               (write (RemapGas m i) (Flx m) j (U m k j (i0 + i)%Z)))
            (RemapGas m) (Flx m) (Uhalf m)) m) m.

Definition remap_ix1 (off : ShearOffset) (m : Mem) : Mem :=
  for_range (ks pG) (ke pG) (fun k m =>
    let m := gather_ix1 (j_offset off) k m in
    let m := mkMem (U m) (periodic (RemapGas m)) (Flx m) (Uhalf m) in
    remap_layers write_ix1_cell (epsi off) (is_ pG - nghost cfg)%Z k m) m.

Definition remap_ox1 (off : ShearOffset) (m : Mem) : Mem :=
  for_range (ks pG) (ke pG) (fun k m =>
    let m := gather_ox1 (j_offset off) k m in
    let m := mkMem (U m) (periodic (RemapGas m)) (Flx m) (Uhalf m) in
    remap_layers write_ox1_cell (epso off) (ie pG + 1)%Z k m) m.

Definition shear_ix1_ox1 (var_flag : Z) (m : Mem) : Mem :=
  if (var_flag =? 1)%Z then m
  else
    let off := shear_offset (Omega gl) (Lx gl) (Ly gl) (time pG) (dx2 pG) in
    remap_ox1 off (remap_ix1 off m).
End Shear.

(** The halo [CompRemapFlux] requires of its input pencil on each side
    (the comments before lines 497 and 559). *)
Definition halo (cfg : Config) : Z :=
  match order cfg with SECOND_ORDER => 2 | THIRD_ORDER => 3 end.

(** [Uhalf[i][n]] as the first loop of the third-order variant leaves it. *)
Definition Uhalf_final (pU : Z -> Gas) (i : Z) (n : Field) : Real :=
  Uhalf_lim pU i (d2Ulim_face pU i (Uhalf_est pU i n) n) n.

(** ** Quantities the properties speak about *)

(** Internal energy density of a cell: total energy minus kinetic energy. *)
Definition internal_energy (g : Gas) : Real :=
  E g - (SQR (M1 g) + SQR (M2 g) + SQR (M3 g)) / (2 * d g).

(** The cell of [pG->U] that the gather of slice [k] copies into
    [RemapGas[i][j]], on the inbound and on the outbound face. *)
Definition src_ix1 (cfg : Config) (pG : Grid) (m : Mem) (j_offset k j i : Z) : Gas :=
  U m k (j_remap_ix1 (js pG) (Nx2 pG) j j_offset) (ie pG - nghost cfg + 1 + i)%Z.

Definition src_ox1 (pG : Grid) (m : Mem) (j_offset k j i : Z) : Gas :=
  U m k (j_remap_ox1 (je pG) (Nx2 pG) j j_offset) (is_ pG + i)%Z.

(** Component [n] of a pencil does not decrease (does not increase) from
    cell [lo] to cell [hi]. *)
Definition nondecreasing (pU : Z -> Gas) (n : Field) (lo hi : Z) : Prop :=
  forall i : Z, (lo <= i < hi)%Z -> get n (pU i) <= get n (pU (i + 1)%Z).

Definition nonincreasing (pU : Z -> Gas) (n : Field) (lo hi : Z) : Prop :=
  forall i : Z, (lo <= i < hi)%Z -> get n (pU (i + 1)%Z) <= get n (pU i).

(** The cells of [pG->U] in the x1 ghost zones of the slices and rows the
    routine sweeps: columns [is-nghost .. is-1] and [ie+1 .. ie+nghost]. *)
Definition x1_ghost (cfg : Config) (pG : Grid) (k j i : Z) : Prop :=
  (ks pG <= k <= ke pG)%Z /\ (js pG <= j <= je pG)%Z /\
  ((is_ pG - nghost cfg <= i <= is_ pG - 1)%Z \/
   (ie pG + 1 <= i <= ie pG + nghost cfg)%Z).

(** The sum of [f j] over [lo <= j <= hi], for totals along a pencil. *)
Fixpoint sum_loop (n : nat) (j : Z) (f : Z -> Real) : Real :=
  match n with
  | O => 0
  | Datatypes.S n' => f j + sum_loop n' (j + 1)%Z f
  end.

Definition sum_range (lo hi : Z) (f : Z -> Real) : Real :=
  sum_loop (Z.to_nat (hi + 1 - lo)) lo f.

(** ** Concrete inputs

    A two-dimensional grid of 8 by 8 cells with four ghost zones, the
    end-to-end pencil of section 8 ([d = 1,1,1,1,2,2,2,2] along x2, momenta
    zero), and the builds it is run through. *)

Definition cfg_second : Config := mkConfig true false 0 SECOND_ORDER 4.
Definition cfg_third : Config := mkConfig true false 0 THIRD_ORDER 4.
Definition cfg_scalar : Config := mkConfig true false 1 SECOND_ORDER 4.

Definition grid8 : Grid := mkGrid 4 11 4 11 0 0 8 (1 # 8) (1 # 4).

(** An offset of one and a half cells. *)
Definition off8 : ShearOffset := mkOffset (3 # 16) (3 # 16) 1 (1 # 2) (- (1 # 2)).

Definition box8 : Globals := mkGlobals (1 # 2) 1 1.

Definition gas_of (rho m2 sc : Real) : Gas :=
  mkGas rho 0 m2 0 1 0 0 0 (fun _ => sc).

Definition gas_of_density (rho : Real) : Gas := gas_of rho 0 3.

Definition gas_one : Gas := gas_of_density 1.

(** The step pencil, periodic with period 8 from cell 4. *)
Definition step_pencil (j : Z) : Gas :=
  gas_of_density (if ((j - 4) mod 8 <? 4)%Z then 1 else 2).

(** A pencil whose density grows with the cell index. *)
Definition ramp_pencil (j : Z) : Gas := gas_of_density (inject_Z j).

(** A flux pencil whose scalar grows by one per interface. *)
Definition flux_ramp (j : Z) : Gas := gas_of 0 0 (inject_Z j).

Definition flux_zero : Z -> Gas := fun _ => gas_of_density 0.
Definition uhalf_zero : Z -> Field -> Real := fun _ _ => 0.

Definition mem8 : Mem :=
  mkMem (fun _ j _ => step_pencil j) (fun _ _ => gas_of_density 0) flux_zero uhalf_zero.

(** ** The flux of [CompRemapFlux] in closed form

    What either variant leaves in member [n] of [Flux[k]]: the integral over
    the shifted part of cell [k-1] when [eps] is positive, of cell [k]
    otherwise.  The loops are shown to store exactly this, whatever the
    scratch arrays held before. *)
Definition remap_flux (cfg : Config) (pU : Z -> Gas) (eps : Real) (k : Z) (n : Field)
    : Real :=
  match order cfg with
  | SECOND_ORDER =>
      if 0 <? eps then flux2_pos pU eps (k - 1)%Z n else flux2_neg pU eps k n
  | THIRD_ORDER =>
      if 0 <? eps then flux3_pos pU eps (Uhalf_final pU) (k - 1)%Z n
      else flux3_neg pU eps (Uhalf_final pU) k n
  end.

(** [x] lies between [a] and [b], in either order. *)
Definition between (a x b : Real) : Prop := (a <= x /\ x <= b) \/ (b <= x /\ x <= a).

(** Member [n] of the cell the write-back stores for row [j]: the gathered
    value minus the difference of the fluxes through its two interfaces
    (lines 399-404 and 461-466). *)
Definition remapped (cfg : Config) (pU : Z -> Gas) (eps : Real) (j : Z) (n : Field)
    : Real :=
  get n (pU j) - (remap_flux cfg pU eps (j + 1)%Z n - remap_flux cfg pU eps j n).

(** ** The exchange in closed form *)

(** Row [j] folded back into [js .. je] with period [Nx2]. *)
Definition wrap_j (pG : Grid) (j : Z) : Z := (js pG + (j - js pG) mod Nx2 pG)%Z.

(** The pencil the inbound remap of ghost layer [i] of slice [k] works on:
    the gathered image of the source cells, periodic in [j].  The members
    the gather does not assign are taken from the source cell itself. *)
Definition pencil_ix1 (cfg : Config) (gl : Globals) (pG : Grid) (m : Mem)
    (j_offset k i : Z) (j : Z) : Gas :=
  let src := src_ix1 cfg pG m j_offset k (wrap_j pG j) i in
  gather_ix1_cell cfg gl src src.

Definition pencil_ox1 (cfg : Config) (gl : Globals) (pG : Grid) (m : Mem)
    (j_offset k i : Z) (j : Z) : Gas :=
  let src := src_ox1 pG m j_offset k (wrap_j pG j) i in
  gather_ox1_cell cfg gl src src.

(** The members both write-backs assign. *)
Definition written_fields (cfg : Config) : list Field :=
  [F_d; F_M1; F_M2; F_M3] ++ (if ADIABATIC cfg then [F_E] else []).

(** ** [ran2] (lines 707-763)

    The generator of L'Ecuyer with Bays-Durham shuffle.  Its state is the
    caller's [*idum] and the statics [idum2], [iy] and [iv[NTAB]]; [long int]
    values are embedded in [Z], and the properties show that they stay within
    32 bits.  The result is a [double], embedded in [Real] like the rest. *)

Definition IM1 : Z := 2147483563.
Definition IM2 : Z := 2147483399.
Definition AM : Real := 1 / inject_Z IM1.
Definition IMM1 : Z := IM1 - 1.
Definition IA1 : Z := 40014.
Definition IA2 : Z := 40692.
Definition IQ1 : Z := 53668.
Definition IQ2 : Z := 52774.
Definition IR1 : Z := 12211.
Definition IR2 : Z := 3791.
Definition NTAB : Z := 32.
Definition NDIV : Z := 1 + Z.quot IMM1 NTAB.

(** [DBL_EPSILON] of float.h for IEEE doubles, [2^-52]. *)
Definition DBL_EPSILON : Real := 1 # 4503599627370496.
Definition RNMX : Real := 1 - DBL_EPSILON.

Record Ran2 := mkRan2 {
  idum2 : Z;
  iy : Z;
  iv : Z -> Z
}.

(** The statics as the program starts. *)
Definition ran2_start : Ran2 := mkRan2 123456789 0 (fun _ => 0%Z).

(** [k=( *idum)/IQ1; *idum=IA1*( *idum-k*IQ1)-k*IR1; if ( *idum < 0) *idum += IM1;]
    (lines 744-746 and 751-753). *)
Definition lcg1 (idum : Z) : Z :=
  let k := Z.quot idum IQ1 in
  let idum := (IA1 * (idum - k * IQ1) - k * IR1)%Z in
  if (idum <? 0)%Z then (idum + IM1)%Z else idum.

(** [k=idum2/IQ2; idum2=IA2*(idum2-k*IQ2)-k*IR2; if (idum2 < 0) idum2 += IM2;]
    (lines 754-756). *)
Definition lcg2 (idum2 : Z) : Z :=
  let k := Z.quot idum2 IQ2 in
  let idum2 := (IA2 * (idum2 - k * IQ2) - k * IR2)%Z in
  if (idum2 <? 0)%Z then (idum2 + IM2)%Z else idum2.

(** The values the expressions of [lcg1] pass through, in evaluation order. *)
Definition lcg1_values (idum : Z) : list Z :=
  let k := Z.quot idum IQ1 in
  [k; k * IQ1; idum - k * IQ1; IA1 * (idum - k * IQ1); k * IR1;
   IA1 * (idum - k * IQ1) - k * IR1; lcg1 idum]%Z.

Definition lcg2_values (idum2 : Z) : list Z :=
  let k := Z.quot idum2 IQ2 in
  [k; k * IQ2; idum2 - k * IQ2; IA2 * (idum2 - k * IQ2); k * IR2;
   IA2 * (idum2 - k * IQ2) - k * IR2; lcg2 idum2]%Z.

(** A value of a signed 32-bit integer. *)
Definition fits_int32 (x : Z) : Prop := (- 2147483648 <= x <= 2147483647)%Z.

(** [for (j = hi; ...; j--)], [n] passes. *)
Fixpoint for_down {S : Type} (n : nat) (j : Z) (body : Z -> S -> S) (st : S) : S :=
  match n with
  | O => st
  | Datatypes.S n' => for_down n' (j - 1)%Z body (body j st)
  end.

(** Lines 743-748: the warm-ups and the load of the shuffle table. *)
Definition ran2_load (idum : Z) (iv : Z -> Z) : Z * (Z -> Z) :=
  for_down (Z.to_nat (NTAB + 7 + 1)) (NTAB + 7)%Z
    (fun j '(idum, iv) =>
       let idum := lcg1 idum in
       (idum, if (j <? NTAB)%Z then upd iv j idum else iv))
    (idum, iv).

(** Lines 739-750: the initialisation, run when [*idum <= 0]. *)
Definition ran2_init (idum : Z) (st : Ran2) : Z * Ran2 :=
  if (idum <=? 0)%Z then
    let idum := if (- idum <? 1)%Z then 1%Z else (- idum)%Z in
    let idum2 := idum in
    let '(idum, iv) := ran2_load idum (iv st) in
    (idum, mkRan2 idum2 (iv 0%Z) iv)
  else (idum, st).

(** Lines 751-762, "start here when not initializing": one step of both
    generators, the shuffle, and the deviate. *)
Definition ran2_draw (idum : Z) (st : Ran2) : Real * Z * Ran2 :=
  let idum := lcg1 idum in
  let idum2 := lcg2 (idum2 st) in
  let j := Z.quot (iy st) NDIV in
  let iy := (iv st j - idum2)%Z in
  let iv := upd (iv st) j idum in
  let iy := if (iy <? 1)%Z then (iy + IMM1)%Z else iy in
  let temp := AM * inject_Z iy in
  (if RNMX <? temp then RNMX else temp, idum, mkRan2 idum2 iy iv).

(** [ran2]: the deviate, the new [*idum] and the new statics. *)
Definition ran2 (idum : Z) (st : Ran2) : Real * Z * Ran2 :=
  let '(idum, st) := ran2_init idum st in
  ran2_draw idum st.

(** The state [ran2] keeps: both generators inside their moduli and not
    zero, the shuffle output and the table inside the first modulus. *)
Definition ran2_state_ok (st : Ran2) : Prop :=
  (1 <= idum2 st <= IM2 - 1)%Z /\ (0 <= iy st <= IMM1)%Z /\
  (forall j : Z, (0 <= j < NTAB)%Z -> (0 <= iv st j <= IM1 - 1)%Z).

(** ** The cell initialisation of [problem] and [expr_dV2] *)

(** Lines 173-181 and 187-215 of [problem]: the conserved variables given to
    one cell from the perturbed density [rd], pressure [rp] and velocity
    [(rvx, rvy, rvz)].  [x1] is the cell centre returned by [cc_pos] and
    [Gamma_1] the global of that name.  [bfield] is [Some b] when [ifield] is
    1 or 2, [b] being the value the code computes for [B3c]
    ([B0*sin(kx*x1)] or [B0]), and [None] for any other [ifield], where the
    field members are left as they were. *)
Definition problem_cell (cfg : Config) (gl : Globals)
    (Gamma_1 rd rp rvx rvy rvz x1 : Real) (bfield : option Real) (U : Gas) : Gas :=
  let U := set F_d rd U in
  let U := set F_M1 (rd * rvx) U in
  let U := set F_M2 (rd * (rvy - (3 # 2) * Omega gl * x1)) U in
  let U := set F_M3 (rd * rvz) U in
  let U :=
    if ADIABATIC cfg then
      set F_E (rp / Gamma_1
               + (1 # 2) * (SQR (M1 U) + SQR (M2 U) + SQR (M3 U)) / rd) U
    else U in
  if MHD cfg then
    let U :=
      match bfield with
      | Some b =>
          let U := set F_B1c 0 U in
          let U := set F_B2c 0 U in
          set F_B3c b U
      | None => U
      end in
    if ADIABATIC cfg then
      set F_E (E U + (1 # 2) * (SQR (B1c U) + SQR (B2c U) + SQR (B3c U))) U
    else U
  else U.

(** Lines 796-801, [expr_dV2]: the departure of the y-velocity of a cell from
    the background shear; [x1] is the cell centre returned by [cc_pos]. *)
Definition expr_dV2 (gl : Globals) (x1 : Real) (U : Gas) : Real :=
  M2 U / d U + (3 # 2) * Omega gl * x1.

(** The energy of a cell less its kinetic and magnetic parts. *)
Definition thermal_energy (g : Gas) : Real :=
  internal_energy g - (1 # 2) * (SQR (B1c g) + SQR (B2c g) + SQR (B3c g)).

(** * Properties *)

(** ** Comparisons and macros *)

Lemma Rlt_b_spec (x y : Real) : if x <? y then x < y else y <= x.
Proof. unfold Rlt_b. destruct (Qlt_le_dec x y); assumption. Qed.

Lemma Rle_b_spec (x y : Real) : if x <=? y then x <= y else y < x.
Proof. unfold Rle_b. destruct (Qlt_le_dec y x); assumption. Qed.

Lemma Req_b_spec (x y : Real) : if x =? y then x == y else ~ x == y.
Proof. unfold Req_b. destruct (Qeq_dec x y); assumption. Qed.

(** Case analysis on the first comparison in the goal, keeping the fact. *)
Ltac cmp_case :=
  match goal with
  | |- context [Rlt_b ?x ?y] =>
      let H := fresh "Hc" in
      pose proof (Rlt_b_spec x y) as H; destruct (Rlt_b x y)
  | |- context [Rle_b ?x ?y] =>
      let H := fresh "Hc" in
      pose proof (Rle_b_spec x y) as H; destruct (Rle_b x y)
  | |- context [Req_b ?x ?y] =>
      let H := fresh "Hc" in
      pose proof (Req_b_spec x y) as H; destruct (Req_b x y)
  end.

Lemma MIN_spec (a b : Real) : (a < b /\ MIN a b = a) \/ (b <= a /\ MIN a b = b).
Proof. unfold MIN. cmp_case; [left | right]; split; auto. Qed.

Lemma fabs_spec (x : Real) : (0 <= x /\ fabs x == x) \/ (x <= 0 /\ fabs x == - x).
Proof.
  unfold fabs. destruct (Qlt_le_dec x 0) as [H | H].
  - right. split; [lra |]. apply Qabs_neg. lra.
  - left. split; [assumption |]. apply Qabs_pos. assumption.
Qed.

(** ** Truncation and [fmod] *)

Lemma int_of_Real_nonneg (x : Real) : 0 <= x -> int_of_Real x = Qfloor x.
Proof.
  destruct x as [n dn]. unfold Qle, int_of_Real, Qfloor. simpl. intros H.
  apply Z.quot_div_nonneg; lia.
Qed.

Lemma int_of_Real_opp (x : Real) : int_of_Real (- x) = (- int_of_Real x)%Z.
Proof. destruct x as [n dn]. unfold int_of_Real. simpl. apply Z.quot_opp_l. lia. Qed.

Lemma int_of_Real_comp (x y : Real) : x == y -> int_of_Real x = int_of_Real y.
Proof.
  intros H. destruct (Qlt_le_dec x 0) as [Hx | Hx].
  - assert (Hx' : 0 <= - x) by lra. assert (Hy' : 0 <= - y) by lra.
    pose proof (int_of_Real_nonneg _ Hx') as E1.
    pose proof (int_of_Real_nonneg _ Hy') as E2.
    rewrite int_of_Real_opp in E1, E2.
    assert (E3 : Qfloor (- x) = Qfloor (- y)) by (apply Qfloor_comp; lra).
    lia.
  - rewrite !int_of_Real_nonneg by lra. apply Qfloor_comp. assumption.
Qed.

Lemma int_of_Real_zero (x : Real) : x == 0 -> int_of_Real x = 0%Z.
Proof. intros H. rewrite (int_of_Real_comp x 0 H). reflexivity. Qed.

(** For a non-negative argument the truncation is the floor. *)
Lemma int_of_Real_bounds (x : Real) :
  0 <= x -> inject_Z (int_of_Real x) <= x < inject_Z (int_of_Real x) + 1.
Proof.
  intros H. rewrite int_of_Real_nonneg by assumption. split.
  - apply Qfloor_le.
  - pose proof (Qlt_floor x) as L. rewrite inject_Z_plus in L. exact L.
Qed.

Lemma div_nonneg (x y : Real) : 0 <= x -> 0 < y -> 0 <= x / y.
Proof.
  intros Hx Hy. unfold Qdiv. apply Qmult_le_0_compat; [assumption |].
  apply Qlt_le_weak, Qinv_lt_0_compat. assumption.
Qed.

Lemma div_mul_cancel (x y : Real) : ~ y == 0 -> x / y * y == x.
Proof. intros H. field. assumption. Qed.

(** [fmod] of a non-negative dividend by a positive divisor. *)
Lemma fmod_nonneg_bounds (x y : Real) : 0 <= x -> 0 < y -> 0 <= fmod x y < y.
Proof.
  intros Hx Hy. unfold fmod.
  pose proof (int_of_Real_bounds (x / y) (div_nonneg x y Hx Hy)) as [B1 B2].
  assert (Hq : x / y * y == x) by (apply div_mul_cancel; lra).
  set (n := inject_Z (int_of_Real (x / y))) in *.
  set (q := x / y) in *.
  split; nra.
Qed.

(** [fmod] keeps the sign of the dividend. *)
Lemma fmod_opp (x y : Real) : fmod (- x) y == - fmod x y.
Proof.
  unfold fmod.
  assert (Hq : - x / y == - (x / y)) by (unfold Qdiv; ring).
  rewrite (int_of_Real_comp _ _ Hq), int_of_Real_opp, inject_Z_opp. ring.
Qed.

Lemma fmod_nonpos_bounds (x y : Real) : x <= 0 -> 0 < y -> - y < fmod x y <= 0.
Proof.
  intros Hx Hy.
  assert (Hx' : 0 <= - x) by lra.
  pose proof (fmod_nonneg_bounds (- x) y Hx' Hy) as [B1 B2].
  rewrite fmod_opp in B1, B2. split; lra.
Qed.

Lemma fmod_comp (x x' y y' : Real) : x == x' -> y == y' -> fmod x y == fmod x' y'.
Proof.
  intros Hx Hy. unfold fmod.
  assert (Hq : x / y == x' / y') by (rewrite Hx, Hy; reflexivity).
  rewrite (int_of_Real_comp _ _ Hq), Hx, Hy. reflexivity.
Qed.

Lemma fmod_zero (x y : Real) : x == 0 -> fmod x y == 0.
Proof.
  intros H. unfold fmod.
  assert (Hq : x / y == 0) by (rewrite H; unfold Qdiv; ring).
  rewrite (int_of_Real_zero _ Hq), H. ring.
Qed.

Lemma fmod_self (x y : Real) : ~ y == 0 -> x == y -> fmod x y == 0.
Proof.
  intros Hy H. unfold fmod.
  assert (Hq : x / y == 1) by (rewrite H; field; assumption).
  rewrite (int_of_Real_comp _ _ Hq), H. change (int_of_Real 1) with 1%Z. ring.
Qed.

(** ** The shear offset *)

Lemma quotient_in_unit (a b : Real) : 0 < b -> 0 <= a < b -> 0 <= a / b < 1.
Proof.
  intros Hb [H1 H2].
  assert (Hq : a / b * b == a) by (apply div_mul_cancel; lra).
  set (q := a / b) in *. split; nra.
Qed.

Lemma quotient_in_neg_unit (a b : Real) : 0 < b -> - b < a <= 0 -> - (1) < a / b <= 0.
Proof.
  intros Hb [H1 H2].
  assert (Hq : a / b * b == a) by (apply div_mul_cancel; lra).
  set (q := a / b) in *. split; nra.
Qed.

Lemma deltay_nonneg_bounds (Omega Lx Ly time dx2 : Real) :
  0 < Ly -> 0 <= (3 # 2) * Omega * Lx * time ->
  0 <= deltay (shear_offset Omega Lx Ly time dx2) < Ly.
Proof. intros HLy Hsh. simpl. apply fmod_nonneg_bounds; assumption. Qed.

(** What the code yields for a total shear that is not negative: with
    [Ly] and [dx2] positive, the wrapped shear [deltay] lies in [[0, Ly)]
    and the fractional cell [epsi] in [[0, 1)], as the comment of lines
    347-348 notes. *)
Lemma offset_ranges_nonneg_shear (Omega Lx Ly time dx2 : Real) :
  0 < Ly -> 0 < dx2 -> 0 <= (3 # 2) * Omega * Lx * time ->
  0 <= deltay (shear_offset Omega Lx Ly time dx2) < Ly /\
  0 <= epsi (shear_offset Omega Lx Ly time dx2) < 1.
Proof.
  intros HLy Hdx Hsh. simpl.
  pose proof (fmod_nonneg_bounds _ Ly Hsh HLy) as Hd.
  split; [exact Hd |].
  apply quotient_in_unit; [assumption |].
  apply fmod_nonneg_bounds; [apply Hd | assumption].
Qed.

Example offset_ranges_nonneg_shear_example :
  0 <= deltay (shear_offset (1 # 1000) 1 1 100 (1 # 8)) < 1 /\
  0 <= epsi (shear_offset (1 # 1000) 1 1 100 (1 # 8)) < 1.
Proof.
  apply (offset_ranges_nonneg_shear (1 # 1000) 1 1 100 (1 # 8));
    unfold Qlt, Qle; simpl; lia.
Qed.

(** C5: the ranges [0 <= deltay < Ly] and [0 <= epsi < 1], which the
    comment of lines 347-348 notes and the inbound flux relies on
    (line 536), fail for a negative total shear: [fmod] keeps the sign and
    nothing corrects it.  With [Omega = -1], [Lx = 1], [time = 3/4],
    [Ly = 4] and [dx2 = 1/2] (eight cells, rows 4 to 11) the code has
    [deltay = -9/8], [j_offset = -2] and [epsi = -1/4], and the inbound
    gather, whose wrap only handles rows below [js], reads rows 12 and 13,
    beyond [je]. *)
Theorem C5_negative_shear_leaves_ranges :
  deltay (shear_offset (- (1)) 1 4 (3 # 4) (1 # 2)) == - (9 # 8) /\
  j_offset (shear_offset (- (1)) 1 4 (3 # 4) (1 # 2)) = (- 2)%Z /\
  epsi (shear_offset (- (1)) 1 4 (3 # 4) (1 # 2)) == - (1 # 4) /\
  ~ 0 <= deltay (shear_offset (- (1)) 1 4 (3 # 4) (1 # 2)) /\
  ~ 0 <= epsi (shear_offset (- (1)) 1 4 (3 # 4) (1 # 2)) /\
  j_remap_ix1 4 8 10 (j_offset (shear_offset (- (1)) 1 4 (3 # 4) (1 # 2))) = 12%Z /\
  j_remap_ix1 4 8 11 (j_offset (shear_offset (- (1)) 1 4 (3 # 4) (1 # 2))) = 13%Z.
Proof.
  split; [reflexivity |]. split; [reflexivity |]. split; [reflexivity |].
  split; [intros H; vm_compute in H; apply H; reflexivity |].
  split; [intros H; vm_compute in H; apply H; reflexivity |].
  split; reflexivity.
Qed.

(** What the code yields for a negative total shear. *)
Lemma offset_ranges_neg_shear (Omega Lx Ly time dx2 : Real) :
  0 < Ly -> 0 < dx2 -> (3 # 2) * Omega * Lx * time <= 0 ->
  - Ly < deltay (shear_offset Omega Lx Ly time dx2) <= 0 /\
  - (1) < epsi (shear_offset Omega Lx Ly time dx2) <= 0.
Proof.
  intros HLy Hdx Hsh. simpl.
  pose proof (fmod_nonpos_bounds _ Ly Hsh HLy) as Hd.
  split; [exact Hd |].
  apply quotient_in_neg_unit; [assumption |].
  apply fmod_nonpos_bounds; [apply Hd | assumption].
Qed.

Lemma offset_ranges_neg_shear_witness :
  - (4) < deltay (shear_offset (- (1)) 1 4 (3 # 4) (1 # 2)) <= 0 /\
  - (1) < epsi (shear_offset (- (1)) 1 4 (3 # 4) (1 # 2)) <= 0.
Proof.
  apply (offset_ranges_neg_shear (- (1)) 1 4 (3 # 4) (1 # 2));
    unfold Qlt, Qle; simpl; lia.
Defined.

Lemma offset_of_zero_deltay (Omega Lx Ly time dx2 : Real) :
  deltay (shear_offset Omega Lx Ly time dx2) == 0 ->
  j_offset (shear_offset Omega Lx Ly time dx2) = 0%Z /\
  epsi (shear_offset Omega Lx Ly time dx2) == 0 /\
  epso (shear_offset Omega Lx Ly time dx2) == 0.
Proof.
  simpl. intros Hd.
  assert (He : fmod (fmod ((3 # 2) * Omega * Lx * time) Ly) dx2 / dx2 == 0).
  { rewrite (fmod_zero _ dx2 Hd). unfold Qdiv. ring. }
  split; [| split].
  - apply int_of_Real_zero. rewrite Hd. unfold Qdiv. ring.
  - exact He.
  - rewrite He. reflexivity.
Qed.

(** C6: the offset is [{0, 0.0}] at [time == 0] and when the total shear
    equals [Ly]. *)
Theorem C6_offset_zero_at_start_and_full_wrap (Omega Lx Ly time dx2 : Real) :
  ~ Ly == 0 -> ~ dx2 == 0 ->
  time == 0 \/ (3 # 2) * Omega * Lx * time == Ly ->
  j_offset (shear_offset Omega Lx Ly time dx2) = 0%Z /\
  epsi (shear_offset Omega Lx Ly time dx2) == 0.
Proof.
  intros HLy Hdx Hcase.
  assert (Hd : deltay (shear_offset Omega Lx Ly time dx2) == 0).
  { simpl. destruct Hcase as [Ht | Hs].
    - apply fmod_zero. rewrite Ht. ring.
    - apply fmod_self; assumption. }
  destruct (offset_of_zero_deltay _ _ _ _ _ Hd) as [Hj [He _]]. split; assumption.
Qed.

Lemma C6_offset_zero_at_start_and_full_wrap_witness :
  (j_offset (shear_offset (1 # 1000) 1 1 0 (1 # 8)) = 0%Z /\
   epsi (shear_offset (1 # 1000) 1 1 0 (1 # 8)) == 0) /\
  (j_offset (shear_offset 1 1 3 2 (1 # 8)) = 0%Z /\
   epsi (shear_offset 1 1 3 2 (1 # 8)) == 0).
Proof.
  split.
  - apply (C6_offset_zero_at_start_and_full_wrap (1 # 1000) 1 1 0 (1 # 8));
      [discriminate | discriminate | left; reflexivity].
  - apply (C6_offset_zero_at_start_and_full_wrap 1 1 3 2 (1 # 8));
      [discriminate | discriminate | right; reflexivity].
Defined.

(** ** The index wrap *)

(** C10: with [Nx2 = je - js + 1] and an offset in [[0, Nx2]], one wrap puts
    the source row of every [j] in [[js, je]] back into [[js, je]], on both
    faces. *)
Theorem C10_j_remap_in_range (js je Nx2 j j_offset : Z) :
  (Nx2 = je - js + 1)%Z -> (0 <= j_offset <= Nx2)%Z -> (js <= j <= je)%Z ->
  (js <= j_remap_ix1 js Nx2 j j_offset <= je)%Z /\
  (js <= j_remap_ox1 je Nx2 j j_offset <= je)%Z.
Proof.
  intros HN Hoff Hj. unfold j_remap_ix1, j_remap_ox1. cbv zeta.
  destruct (Z.ltb_spec (j - j_offset) js), (Z.gtb_spec (j + j_offset) je); lia.
Qed.

Lemma C10_j_remap_in_range_witness :
  (4 <= j_remap_ix1 4 8 5 3 <= 11)%Z /\ (4 <= j_remap_ox1 11 8 5 3 <= 11)%Z.
Proof. apply (C10_j_remap_in_range 4 11 8 5 3); lia. Defined.

(** When the box holds [Nx2] cells of width [dx2] along x2 and the shear is
    not negative, the integer offset is a cell count below [Nx2], as the
    index wrap requires. *)
Lemma j_offset_below_Nx2 (Omega Lx Ly time dx2 : Real) (Nx2 : Z) :
  0 < dx2 -> 0 < Ly -> Ly == inject_Z Nx2 * dx2 ->
  0 <= (3 # 2) * Omega * Lx * time ->
  (0 <= j_offset (shear_offset Omega Lx Ly time dx2) < Nx2)%Z.
Proof.
  intros Hdx HLy HN Hsh.
  destruct (deltay_nonneg_bounds Omega Lx Ly time dx2 HLy Hsh) as [D1 D2].
  simpl in *. set (dy := fmod ((3 # 2) * Omega * Lx * time) Ly) in *.
  assert (Hq0 : 0 <= dy / dx2) by (apply div_nonneg; assumption).
  assert (Hq1 : dy / dx2 < inject_Z Nx2).
  { assert (Hq : dy / dx2 * dx2 == dy) by (apply div_mul_cancel; lra).
    set (q := dy / dx2) in *. nra. }
  pose proof (int_of_Real_bounds _ Hq0) as [B1 B2].
  split.
  - rewrite int_of_Real_nonneg by assumption.
    change 0%Z with (Qfloor 0). apply Qfloor_resp_le. assumption.
  - rewrite Zlt_Qlt. lra.
Qed.

Lemma j_offset_below_Nx2_witness :
  Z.le 0 (j_offset (shear_offset (1 # 2) 1 1 (1 # 4) (1 # 8))) /\
  Z.lt (j_offset (shear_offset (1 # 2) 1 1 (1 # 4) (1 # 8))) 8.
Proof.
  apply (j_offset_below_Nx2 (1 # 2) 1 1 (1 # 4) (1 # 8) 8);
    first [ reflexivity | unfold Qlt, Qle; simpl; lia ].
Defined.

(** ** Members of [Gas] *)

Lemma get_set_same (f : Field) (v : Real) (g : Gas) : get f (set f v g) = v.
Proof. destruct f; simpl; try reflexivity. destruct (Nat.eq_dec n n); congruence. Qed.

Lemma get_set_other (f f' : Field) (v : Real) (g : Gas) :
  f' <> f -> get f' (set f v g) = get f' g.
Proof.
  intros H. destruct f, f'; simpl; try reflexivity; try congruence.
  destruct (Nat.eq_dec n0 n); congruence.
Qed.

Section WriteLoops.
Context {A : Type} (A_eq_dec : forall x y : A, {x = y} + {x <> y}).
Variable member : A -> Field.
Variable val : A -> Real.

(** A loop of member assignments leaves the members it does not name. *)
Lemma write_loop_other (l : list A) (g : Gas) (f : Field) :
  (forall x, In x l -> member x <> f) ->
  get f (fold_left (fun r x => set (member x) (val x) r) l g) = get f g.
Proof.
  revert g. induction l as [| a l IH]; intros g Hf; cbn [fold_left].
  - reflexivity.
  - rewrite IH by (intros x Hx; apply Hf; right; assumption).
    apply get_set_other. intros Heq. apply (Hf a); [left; reflexivity | congruence].
Qed.

(** ... and each named member holds the value of its own pass. *)
Lemma write_loop_same (l : list A) (g : Gas) (a : A) :
  (forall x y, member x = member y -> x = y) ->
  In a l ->
  get (member a) (fold_left (fun r x => set (member x) (val x) r) l g) = val a.
Proof.
  intros Hinj. revert g. induction l as [| b l IH]; intros g Hin; cbn [fold_left].
  - destruct Hin.
  - destruct (in_dec A_eq_dec a l) as [Hl | Hl].
    + apply IH. assumption.
    + destruct Hin as [-> | Hin]; [| contradiction].
      rewrite write_loop_other.
      * apply get_set_same.
      * intros x Hx Heq. apply Hinj in Heq. subst x. contradiction.
Qed.
End WriteLoops.

Lemma write_comps_same (fs : list Field) (val : Field -> Real) (g : Gas) (f : Field) :
  In f fs -> get f (write_comps fs val g) = val f.
Proof.
  intros Hin. unfold write_comps.
  apply (write_loop_same Field_eq_dec (fun f => f) val fs g f); auto.
Qed.

Lemma write_comps_other (fs : list Field) (val : Field -> Real) (g : Gas) (f : Field) :
  ~ In f fs -> get f (write_comps fs val g) = get f g.
Proof.
  intros Hin. unfold write_comps.
  apply (write_loop_other (fun f => f) val fs g f).
  intros x Hx ->. contradiction.
Qed.

Lemma scalar_loop_same (val : nat -> Real) (N n : nat) (g : Gas) :
  (n < N)%nat ->
  s (fold_left (fun r n => set (F_s n) (val n) r) (seq 0 N) g) n = val n.
Proof.
  intros Hn.
  apply (write_loop_same Nat.eq_dec F_s val (seq 0 N) g n).
  - intros x y H. congruence.
  - apply in_seq. lia.
Qed.

Lemma scalar_loop_other (val : nat -> Real) (l : list nat) (g : Gas) (f : Field) :
  (forall n, f <> F_s n) ->
  get f (fold_left (fun r n => set (F_s n) (val n) r) l g) = get f g.
Proof.
  intros Hf. apply (write_loop_other F_s val l g f).
  intros x _ Heq. apply (Hf x). congruence.
Qed.

(** ** The gather: frame boost of momentum and energy *)

(** The members of a gathered ix1 cell. *)
Lemma gather_ix1_cell_members (cfg : Config) (gl : Globals) (src dst : Gas) :
  d (gather_ix1_cell cfg gl src dst) = d src /\
  M1 (gather_ix1_cell cfg gl src dst) = M1 src /\
  M2 (gather_ix1_cell cfg gl src dst) = M2 src + (3 # 2) * Omega gl * Lx gl * d src /\
  M3 (gather_ix1_cell cfg gl src dst) = M3 src /\
  (ADIABATIC cfg = true ->
   E (gather_ix1_cell cfg gl src dst) =
   E src + ((1 # 2) / d src)
           * (SQR (M2 src + (3 # 2) * Omega gl * Lx gl * d src) - SQR (M2 src))).
Proof.
  unfold gather_ix1_cell. cbv zeta.
  repeat split; try intros Had.
  - change (d ?g) with (get F_d g) at 1.
    rewrite scalar_loop_other by (intros ? ?; discriminate).
    destruct (ADIABATIC cfg); reflexivity.
  - change (M1 ?g) with (get F_M1 g) at 1.
    rewrite scalar_loop_other by (intros ? ?; discriminate).
    destruct (ADIABATIC cfg); reflexivity.
  - change (M2 ?g) with (get F_M2 g) at 1.
    rewrite scalar_loop_other by (intros ? ?; discriminate).
    destruct (ADIABATIC cfg); reflexivity.
  - change (M3 ?g) with (get F_M3 g) at 1.
    rewrite scalar_loop_other by (intros ? ?; discriminate).
    destruct (ADIABATIC cfg); reflexivity.
  - change (E ?g) with (get F_E g) at 1.
    rewrite scalar_loop_other by (intros ? ?; discriminate).
    rewrite Had. reflexivity.
Qed.

(** The members of a gathered ox1 cell. *)
Lemma gather_ox1_cell_members (cfg : Config) (gl : Globals) (src dst : Gas) :
  d (gather_ox1_cell cfg gl src dst) = d src /\
  M1 (gather_ox1_cell cfg gl src dst) = M1 src /\
  M2 (gather_ox1_cell cfg gl src dst) = M2 src - (3 # 2) * Omega gl * Lx gl * d src /\
  M3 (gather_ox1_cell cfg gl src dst) = M3 src /\
  (ADIABATIC cfg = true ->
   E (gather_ox1_cell cfg gl src dst) =
   E src + ((1 # 2) / d src)
           * (SQR (M2 src - (3 # 2) * Omega gl * Lx gl * d src) - SQR (M2 src))).
Proof.
  unfold gather_ox1_cell. cbv zeta.
  repeat split; try intros Had.
  - change (d ?g) with (get F_d g) at 1.
    rewrite scalar_loop_other by (intros ? ?; discriminate).
    destruct (ADIABATIC cfg); reflexivity.
  - change (M1 ?g) with (get F_M1 g) at 1.
    rewrite scalar_loop_other by (intros ? ?; discriminate).
    destruct (ADIABATIC cfg); reflexivity.
  - change (M2 ?g) with (get F_M2 g) at 1.
    rewrite scalar_loop_other by (intros ? ?; discriminate).
    destruct (ADIABATIC cfg); reflexivity.
  - change (M3 ?g) with (get F_M3 g) at 1.
    rewrite scalar_loop_other by (intros ? ?; discriminate).
    destruct (ADIABATIC cfg); reflexivity.
  - change (E ?g) with (get F_E g) at 1.
    rewrite scalar_loop_other by (intros ? ?; discriminate).
    rewrite Had. reflexivity.
Qed.

(** The boost terms of the two faces, cell by cell. *)
Lemma boost_mirror_cell (cfg : Config) (gl : Globals) (src_in dst_in src_out dst_out : Gas) :
  d src_in == d src_out ->
  M2 (gather_ix1_cell cfg gl src_in dst_in) - M2 src_in
    == (3 # 2) * Omega gl * Lx gl * d src_in /\
  M2 (gather_ox1_cell cfg gl src_out dst_out) - M2 src_out
    == - ((3 # 2) * Omega gl * Lx gl * d src_out) /\
  M2 (gather_ix1_cell cfg gl src_in dst_in) - M2 src_in
    == - (M2 (gather_ox1_cell cfg gl src_out dst_out) - M2 src_out).
Proof.
  intros Hd.
  destruct (gather_ix1_cell_members cfg gl src_in dst_in) as (_ & _ & Hi & _).
  destruct (gather_ox1_cell_members cfg gl src_out dst_out) as (_ & _ & Ho & _).
  rewrite Hi, Ho. repeat split; try ring. rewrite Hd. ring.
Qed.

(** The internal energy of a gathered cell is that of its source. *)
Lemma internal_energy_cell (cfg : Config) (gl : Globals) (src dst : Gas) :
  ADIABATIC cfg = true -> ~ d src == 0 ->
  internal_energy (gather_ix1_cell cfg gl src dst) == internal_energy src /\
  internal_energy (gather_ox1_cell cfg gl src dst) == internal_energy src.
Proof.
  intros Had Hd.
  destruct (gather_ix1_cell_members cfg gl src dst) as (Hi0 & Hi1 & Hi2 & Hi3 & Hi4).
  destruct (gather_ox1_cell_members cfg gl src dst) as (Ho0 & Ho1 & Ho2 & Ho3 & Ho4).
  unfold internal_energy.
  rewrite Hi0, Hi1, Hi2, Hi3, (Hi4 Had), Ho0, Ho1, Ho2, Ho3, (Ho4 Had).
  unfold SQR. split; field; assumption.
Qed.

(** The correction is not vacuous: the gathered cell of this example carries
    a different momentum and a different total energy. *)
Example gather_ix1_cell_boosts :
  M2 (gather_ix1_cell cfg_second box8 (gas_of 2 5 0) gas_one) == 13 # 2 /\
  E (gather_ix1_cell cfg_second box8 (gas_of 2 5 0) gas_one) == 85 # 16.
Proof. split; reflexivity. Qed.

(** ** Loops and array updates *)

Lemma upd_same {A : Type} (a : Z -> A) (i : Z) (v : A) : upd a i v i = v.
Proof. unfold upd. destruct (Z.eq_dec i i); congruence. Qed.

Lemma upd_other {A : Type} (a : Z -> A) (i j : Z) (v : A) : j <> i -> upd a i v j = a j.
Proof. intros H. unfold upd. destruct (Z.eq_dec j i); congruence. Qed.

Lemma for_loop_inv {S : Type} (P : S -> Prop) (body : Z -> S -> S) (n : nat) :
  forall (i : Z) (st : S),
    P st ->
    (forall j s, (i <= j < i + Z.of_nat n)%Z -> P s -> P (body j s)) ->
    P (for_loop n i body st).
Proof.
  induction n as [| n IH]; intros i st H0 Hstep; cbn [for_loop].
  - assumption.
  - apply IH.
    + apply Hstep; [lia | assumption].
    + intros j s0 Hj. apply Hstep. lia.
Qed.

(** What pass [t] establishes and the later passes keep holds at the end. *)
Lemma for_loop_establish {S : Type} (P : S -> Prop) (body : Z -> S -> S) (t : Z)
    (n : nat) :
  forall (i : Z) (st : S),
    (i <= t < i + Z.of_nat n)%Z ->
    (forall s, P (body t s)) ->
    (forall j s, (t < j < i + Z.of_nat n)%Z -> P s -> P (body j s)) ->
    P (for_loop n i body st).
Proof.
  induction n as [| n IH]; intros i st Ht Hest Hkeep; cbn [for_loop].
  - lia.
  - destruct (Z.eq_dec i t) as [-> | Hne].
    + apply for_loop_inv; [apply Hest |].
      intros j s0 Hj. apply Hkeep. lia.
    + apply IH; [lia | assumption |].
      intros j s0 Hj. apply Hkeep. lia.
Qed.

Lemma for_range_inv {S : Type} (P : S -> Prop) (body : Z -> S -> S) (lo hi : Z) (st : S) :
  P st ->
  (forall j s, (lo <= j <= hi)%Z -> P s -> P (body j s)) ->
  P (for_range lo hi body st).
Proof.
  intros H0 Hstep. unfold for_range. apply for_loop_inv; [assumption |].
  intros j s0 Hj. apply Hstep. lia.
Qed.

Lemma for_range_establish {S : Type} (P : S -> Prop) (body : Z -> S -> S)
    (lo hi t : Z) (st : S) :
  (lo <= t <= hi)%Z ->
  (forall s, P (body t s)) ->
  (forall j s, (t < j <= hi)%Z -> P s -> P (body j s)) ->
  P (for_range lo hi body st).
Proof.
  intros Ht Hest Hkeep. unfold for_range. apply (for_loop_establish P body t); [lia | assumption |].
  intros j s0 Hj. apply Hkeep. lia.
Qed.

(** The same under an invariant [I] that every pass keeps. *)
Lemma for_range_both {S : Type} (I P : S -> Prop) (body : Z -> S -> S)
    (lo hi t : Z) (st : S) :
  (lo <= t <= hi)%Z ->
  I st ->
  (forall j s, (lo <= j <= hi)%Z -> I s -> I (body j s)) ->
  (forall s, I s -> P (body t s)) ->
  (forall j s, (t < j <= hi)%Z -> I s -> P s -> P (body j s)) ->
  P (for_range lo hi body st).
Proof.
  intros Ht HI Hinv Hest Hkeep. unfold for_range.
  assert (Hgen : forall (n : nat) (i : Z) (s0 : S),
             (lo <= i)%Z -> (i + Z.of_nat n = hi + 1)%Z -> I s0 ->
             ((i <= t)%Z \/ P s0) ->
             P (for_loop n i body s0)).
  { induction n as [| n IH]; intros i s0 Hlo Hn HI0 Hcase; cbn [for_loop].
    - destruct Hcase as [Hcase | Hcase]; [lia | assumption].
    - apply IH; [lia | lia | apply Hinv; [lia | assumption] |].
      destruct Hcase as [Hcase | Hcase].
      + destruct (Z.eq_dec i t) as [-> | Hne].
        * right. apply Hest. assumption.
        * left. lia.
      + destruct (Z_lt_le_dec t i) as [Hlt | Hge].
        * right. apply Hkeep; [lia | assumption | assumption].
        * destruct (Z.eq_dec i t) as [-> | Hne].
          -- right. apply Hest. assumption.
          -- left. lia. }
  apply Hgen; [lia | lia | assumption | left; lia].
Qed.

Lemma write_row_same (fs : list Field) (val : Field -> Real) (row : Field -> Real)
    (f : Field) :
  In f fs -> write_row fs val row f = val f.
Proof.
  unfold write_row. revert row. induction fs as [| a fs IH]; intros row Hin; cbn [fold_left].
  - destruct Hin.
  - destruct (in_dec Field_eq_dec f fs) as [Hl | Hl].
    + apply IH. assumption.
    + destruct Hin as [-> | Hin]; [| contradiction].
      clear IH.
      assert (Hkeep : forall (l : list Field) (r : Field -> Real),
                 ~ In f l ->
                 fold_left (fun r0 f0 f' => if Field_eq_dec f' f0 then val f0 else r0 f')
                           l r f = r f).
      { induction l as [| b l IHl]; intros r Hn; cbn [fold_left].
        - reflexivity.
        - rewrite IHl by (intros H; apply Hn; right; assumption).
          destruct (Field_eq_dec f b) as [-> | _]; [| reflexivity].
          exfalso. apply Hn. left. reflexivity. }
      rewrite Hkeep by assumption.
      destruct (Field_eq_dec f f); congruence.
Qed.

(** ** The gather loops *)

Section GatherLoops.
Variable cfg : Config.
Variable gl : Globals.
Variable pG : Grid.

(** After the ix1 gather of slice [k], [RemapGas[i][j]] is the gathered image
    of its source cell, for every ghost layer [i] and every row [j]. *)
Lemma gather_ix1_at (j_offset k : Z) (m : Mem) (i j : Z) :
  (0 <= i <= nghost cfg - 1)%Z -> (js pG <= j <= je pG)%Z ->
  exists dst : Gas,
    RemapGas (gather_ix1 cfg gl pG j_offset k m) i j
    = gather_ix1_cell cfg gl (src_ix1 cfg pG m j_offset k j i) dst.
Proof.
  intros Hi Hj. unfold gather_ix1, src_ix1.
  set (src := U m k (j_remap_ix1 (js pG) (Nx2 pG) j j_offset)
                (ie pG - nghost cfg + 1 + i)%Z).
  apply (for_range_both
           (fun m' => U m' = U m)
           (fun m' => exists dst, RemapGas m' i j = gather_ix1_cell cfg gl src dst)
           _ _ _ j); [assumption | reflexivity | | |].
  - intros j0 m1 _ H1.
    apply (for_range_inv (fun m' => U m' = U m)); [assumption |].
    intros i0 m2 _ H2. exact H2.
  - intros m1 H1.
    apply (for_range_both
             (fun m' => U m' = U m)
             (fun m' => exists dst, RemapGas m' i j = gather_ix1_cell cfg gl src dst)
             _ _ _ i); [assumption | assumption | | |].
    + intros i0 m2 _ H2. exact H2.
    + intros m2 H2. exists (RemapGas m2 i j). cbn [RemapGas].
      unfold upd2. rewrite !upd_same. rewrite H2. reflexivity.
    + intros i0 m2 Hi0 H2 [dst Hd]. exists dst. cbn [RemapGas].
      unfold upd2. rewrite upd_other by lia. exact Hd.
  - intros j0 m1 Hj0 H1 HP.
    apply (for_range_inv
             (fun m' => exists dst, RemapGas m' i j = gather_ix1_cell cfg gl src dst));
      [assumption |].
    intros i0 m2 _ [dst Hd]. exists dst. cbn [RemapGas]. unfold upd2, upd.
    destruct (Z.eq_dec i i0) as [-> | Hne]; [| exact Hd].
    destruct (Z.eq_dec j j0) as [-> | Hne']; [lia | exact Hd].
Qed.

Lemma gather_ox1_at (j_offset k : Z) (m : Mem) (i j : Z) :
  (0 <= i <= nghost cfg - 1)%Z -> (js pG <= j <= je pG)%Z ->
  exists dst : Gas,
    RemapGas (gather_ox1 cfg gl pG j_offset k m) i j
    = gather_ox1_cell cfg gl (src_ox1 pG m j_offset k j i) dst.
Proof.
  intros Hi Hj. unfold gather_ox1, src_ox1.
  set (src := U m k (j_remap_ox1 (je pG) (Nx2 pG) j j_offset) (is_ pG + i)%Z).
  apply (for_range_both
           (fun m' => U m' = U m)
           (fun m' => exists dst, RemapGas m' i j = gather_ox1_cell cfg gl src dst)
           _ _ _ j); [assumption | reflexivity | | |].
  - intros j0 m1 _ H1.
    apply (for_range_inv (fun m' => U m' = U m)); [assumption |].
    intros i0 m2 _ H2. exact H2.
  - intros m1 H1.
    apply (for_range_both
             (fun m' => U m' = U m)
             (fun m' => exists dst, RemapGas m' i j = gather_ox1_cell cfg gl src dst)
             _ _ _ i); [assumption | assumption | | |].
    + intros i0 m2 _ H2. exact H2.
    + intros m2 H2. exists (RemapGas m2 i j). cbn [RemapGas].
      unfold upd2. rewrite !upd_same. rewrite H2. reflexivity.
    + intros i0 m2 Hi0 H2 [dst Hd]. exists dst. cbn [RemapGas].
      unfold upd2. rewrite upd_other by lia. exact Hd.
  - intros j0 m1 Hj0 H1 HP.
    apply (for_range_inv
             (fun m' => exists dst, RemapGas m' i j = gather_ox1_cell cfg gl src dst));
      [assumption |].
    intros i0 m2 _ [dst Hd]. exists dst. cbn [RemapGas]. unfold upd2, upd.
    destruct (Z.eq_dec i i0) as [-> | Hne]; [| exact Hd].
    destruct (Z.eq_dec j j0) as [-> | Hne']; [lia | exact Hd].
Qed.
End GatherLoops.

(** C2: with one offset snapshot [j_offset], the boost that the inbound
    gather adds to [M2] of a gathered cell is [+1.5*Omega*Lx*d], the one of
    the outbound gather is [-1.5*Omega*Lx*d], and for source cells of equal
    density the two are exact negatives. *)
Theorem C2_momentum_boost_mirror (cfg : Config) (gl : Globals) (pG : Grid)
    (j_offset k : Z) (m_in m_out : Mem) (i j : Z) :
  (0 <= i <= nghost cfg - 1)%Z -> (js pG <= j <= je pG)%Z ->
  d (src_ix1 cfg pG m_in j_offset k j i) == d (src_ox1 pG m_out j_offset k j i) ->
  M2 (RemapGas (gather_ix1 cfg gl pG j_offset k m_in) i j)
    - M2 (src_ix1 cfg pG m_in j_offset k j i)
    == (3 # 2) * Omega gl * Lx gl * d (src_ix1 cfg pG m_in j_offset k j i) /\
  M2 (RemapGas (gather_ox1 cfg gl pG j_offset k m_out) i j)
    - M2 (src_ox1 pG m_out j_offset k j i)
    == - ((3 # 2) * Omega gl * Lx gl * d (src_ox1 pG m_out j_offset k j i)) /\
  M2 (RemapGas (gather_ix1 cfg gl pG j_offset k m_in) i j)
    - M2 (src_ix1 cfg pG m_in j_offset k j i)
    == - (M2 (RemapGas (gather_ox1 cfg gl pG j_offset k m_out) i j)
          - M2 (src_ox1 pG m_out j_offset k j i)).
Proof.
  intros Hi Hj Hd.
  destruct (gather_ix1_at cfg gl pG j_offset k m_in i j Hi Hj) as [dst_in ->].
  destruct (gather_ox1_at cfg gl pG j_offset k m_out i j Hi Hj) as [dst_out ->].
  exact (boost_mirror_cell cfg gl _ dst_in _ dst_out Hd).
Qed.

Lemma C2_momentum_boost_mirror_witness :
  M2 (RemapGas (gather_ix1 cfg_second box8 grid8 1 0 mem8) 2%Z 6%Z)
    - M2 (src_ix1 cfg_second grid8 mem8 1 0 6 2)
    == (3 # 2) * Omega box8 * Lx box8 * d (src_ix1 cfg_second grid8 mem8 1 0 6 2) /\
  M2 (RemapGas (gather_ox1 cfg_second box8 grid8 1 0 mem8) 2%Z 6%Z)
    - M2 (src_ox1 grid8 mem8 1 0 6 2)
    == - ((3 # 2) * Omega box8 * Lx box8 * d (src_ox1 grid8 mem8 1 0 6 2)) /\
  M2 (RemapGas (gather_ix1 cfg_second box8 grid8 1 0 mem8) 2%Z 6%Z)
    - M2 (src_ix1 cfg_second grid8 mem8 1 0 6 2)
    == - (M2 (RemapGas (gather_ox1 cfg_second box8 grid8 1 0 mem8) 2%Z 6%Z)
          - M2 (src_ox1 grid8 mem8 1 0 6 2)).
Proof.
  apply (C2_momentum_boost_mirror cfg_second box8 grid8 1 0 mem8 mem8 2 6);
    [simpl; lia | simpl; lia | reflexivity].
Defined.

(** C3: in an adiabatic build, every gathered cell whose source has non-zero
    density has the internal energy [E - (M1^2+M2^2+M3^2)/(2 d)] of its
    source: the energy correction cancels the kinetic energy of the boost,
    on the inbound and on the outbound face. *)
Theorem C3_internal_energy_invariant (cfg : Config) (gl : Globals) (pG : Grid)
    (j_offset k : Z) (m : Mem) (i j : Z) :
  ADIABATIC cfg = true ->
  (0 <= i <= nghost cfg - 1)%Z -> (js pG <= j <= je pG)%Z ->
  (~ d (src_ix1 cfg pG m j_offset k j i) == 0 ->
   internal_energy (RemapGas (gather_ix1 cfg gl pG j_offset k m) i j)
   == internal_energy (src_ix1 cfg pG m j_offset k j i)) /\
  (~ d (src_ox1 pG m j_offset k j i) == 0 ->
   internal_energy (RemapGas (gather_ox1 cfg gl pG j_offset k m) i j)
   == internal_energy (src_ox1 pG m j_offset k j i)).
Proof.
  intros Had Hi Hj. split; intros Hd.
  - destruct (gather_ix1_at cfg gl pG j_offset k m i j Hi Hj) as [dst ->].
    exact (proj1 (internal_energy_cell cfg gl _ dst Had Hd)).
  - destruct (gather_ox1_at cfg gl pG j_offset k m i j Hi Hj) as [dst ->].
    exact (proj2 (internal_energy_cell cfg gl _ dst Had Hd)).
Qed.

Lemma C3_internal_energy_invariant_witness :
  internal_energy (RemapGas (gather_ix1 cfg_second box8 grid8 1 0 mem8) 2%Z 6%Z)
    == internal_energy (src_ix1 cfg_second grid8 mem8 1 0 6 2) /\
  internal_energy (RemapGas (gather_ox1 cfg_second box8 grid8 1 0 mem8) 2%Z 6%Z)
    == internal_energy (src_ox1 grid8 mem8 1 0 6 2).
Proof.
  pose proof (C3_internal_energy_invariant cfg_second box8 grid8 1 0 mem8 2 6
                eq_refl ltac:(simpl; lia) ltac:(simpl; lia)) as [Hin Hout].
  split; [apply Hin | apply Hout]; discriminate.
Defined.

(** The gather of the example is a real boost: the gathered cell carries the
    momentum [1.5*Omega*Lx*d] its source lacks, and a larger total energy. *)
Example gather_ix1_boosts_example :
  Qred (M2 (RemapGas (gather_ix1 cfg_second box8 grid8 1 0 mem8) 2%Z 6%Z)) = 3 # 4 /\
  Qred (E (RemapGas (gather_ix1 cfg_second box8 grid8 1 0 mem8) 2%Z 6%Z)) = 41 # 32 /\
  Qred (E (src_ix1 cfg_second grid8 mem8 1 0 6 2)) = 1.
Proof. vm_compute. repeat split. Qed.

(** ** The second-order limited slope *)

Lemma MIN_le_l (a b : Real) : MIN a b <= a.
Proof. destruct (MIN_spec a b) as [[H ->] | [H ->]]; lra. Qed.

Lemma MIN_le_r (a b : Real) : MIN a b <= b.
Proof. destruct (MIN_spec a b) as [[H ->] | [H ->]]; lra. Qed.

Lemma MIN_glb (a b c : Real) : c <= a -> c <= b -> c <= MIN a b.
Proof. intros Ha Hb. destruct (MIN_spec a b) as [[H ->] | [H ->]]; assumption. Qed.

Lemma fabs_nonneg (x : Real) : 0 <= fabs x.
Proof. apply Qabs_nonneg. Qed.

Lemma fabs_pos (x : Real) : 0 <= x -> fabs x == x.
Proof. apply Qabs_pos. Qed.

Lemma fabs_neg (x : Real) : x <= 0 -> fabs x == - x.
Proof. apply Qabs_neg. Qed.

Lemma SIGN_nonneg (x : Real) : 0 <= x -> SIGN x = 1.
Proof. intros H. unfold SIGN. cmp_case; [exfalso; lra | reflexivity]. Qed.

Lemma SIGN_neg (x : Real) : x < 0 -> SIGN x = - (1).
Proof. intros H. unfold SIGN. cmp_case; [reflexivity | exfalso; lra]. Qed.

Lemma product_pos_cases (l r : Real) :
  0 < l * r -> (0 < l /\ 0 < r) \/ (l < 0 /\ r < 0).
Proof.
  intros H.
  destruct (Qlt_le_dec 0 l) as [Hl | Hl], (Qlt_le_dec 0 r) as [Hr | Hr].
  - left. split; assumption.
  - exfalso. nra.
  - exfalso. nra.
  - right. split.
    + destruct (Qlt_le_dec l 0); [assumption | exfalso; nra].
    + destruct (Qlt_le_dec r 0); [assumption | exfalso; nra].
Qed.

(** The slope as a function of the three cell values: it is zero unless the
    cell lies strictly between its neighbours, and then it has the sign of
    the differences and at most twice the size of either. *)
Lemma dUm_cases (pU : Z -> Gas) (i : Z) (n : Field) :
  (get n (pU (i - 1)%Z) < get n (pU i) /\ get n (pU i) < get n (pU (i + 1)%Z) /\
   0 <= dUm pU i n /\
   dUm pU i n <= 2 * (get n (pU i) - get n (pU (i - 1)%Z)) /\
   dUm pU i n <= 2 * (get n (pU (i + 1)%Z) - get n (pU i))) \/
  (get n (pU (i + 1)%Z) < get n (pU i) /\ get n (pU i) < get n (pU (i - 1)%Z) /\
   dUm pU i n <= 0 /\
   2 * (get n (pU i) - get n (pU (i - 1)%Z)) <= dUm pU i n /\
   2 * (get n (pU (i + 1)%Z) - get n (pU i)) <= dUm pU i n) \/
  dUm pU i n = 0.
Proof.
  unfold dUm, dUl, dUr, dUc.
  set (a := get n (pU (i - 1)%Z)). set (b := get n (pU i)).
  set (c := get n (pU (i + 1)%Z)).
  cmp_case; [| right; right; reflexivity].
  pose proof (MIN_le_r ((1 # 2) * fabs (c - a)) (2 * MIN (fabs (b - a)) (fabs (c - b)))) as B1.
  pose proof (MIN_le_l (fabs (b - a)) (fabs (c - b))) as B2.
  pose proof (MIN_le_r (fabs (b - a)) (fabs (c - b))) as B3.
  assert (B4 : 0 <= MIN ((1 # 2) * fabs (c - a)) (2 * MIN (fabs (b - a)) (fabs (c - b)))).
  { apply MIN_glb.
    - pose proof (fabs_nonneg (c - a)). lra.
    - assert (0 <= MIN (fabs (b - a)) (fabs (c - b))); [| lra].
      apply MIN_glb; apply fabs_nonneg. }
  set (m := MIN ((1 # 2) * fabs (c - a)) (2 * MIN (fabs (b - a)) (fabs (c - b)))) in *.
  set (q := MIN (fabs (b - a)) (fabs (c - b))) in *.
  destruct (product_pos_cases _ _ Hc) as [[Hl Hr] | [Hl Hr]].
  - left. rewrite (SIGN_nonneg (c - a)) by lra.
    pose proof (fabs_pos (b - a) ltac:(lra)) as F1.
    pose proof (fabs_pos (c - b) ltac:(lra)) as F2.
    repeat split; lra.
  - right; left. rewrite (SIGN_neg (c - a)) by lra.
    pose proof (fabs_neg (b - a) ltac:(lra)) as F1.
    pose proof (fabs_neg (c - b) ltac:(lra)) as F2.
    repeat split; lra.
Qed.

Lemma Qeq_refl_eq (x y : Real) : x = y -> x == y.
Proof. intros ->. reflexivity. Qed.

Lemma half_eq (x : Real) : x / 2 == (1 # 2) * x.
Proof. unfold Qdiv. change (/ 2) with (1 # 2). ring. Qed.

(** C8: on a monotone pencil the second-order reconstruction of every
    interior cell [i] keeps both edge values [U[i] - dUm/2] and
    [U[i] + dUm/2] between [U[i-1]] and [U[i+1]], in the order of the
    pencil, so the profile has no new extremum. *)
Theorem C8_limited_slope_monotone (pU : Z -> Gas) (n : Field) (il iu i : Z) :
  (il - 1 <= i <= iu + 1)%Z ->
  (nondecreasing pU n (il - 2) (iu + 2) ->
   get n (pU (i - 1)%Z) <= get n (pU i) - dUm pU i n / 2 /\
   get n (pU i) - dUm pU i n / 2 <= get n (pU i) /\
   get n (pU i) <= get n (pU i) + dUm pU i n / 2 /\
   get n (pU i) + dUm pU i n / 2 <= get n (pU (i + 1)%Z)) /\
  (nonincreasing pU n (il - 2) (iu + 2) ->
   get n (pU (i + 1)%Z) <= get n (pU i) + dUm pU i n / 2 /\
   get n (pU i) + dUm pU i n / 2 <= get n (pU i) /\
   get n (pU i) <= get n (pU i) - dUm pU i n / 2 /\
   get n (pU i) - dUm pU i n / 2 <= get n (pU (i - 1)%Z)).
Proof.
  intros Hi. split; intros Hmono.
  - pose proof (Hmono (i - 1)%Z ltac:(lia)) as H1.
    pose proof (Hmono i ltac:(lia)) as H2.
    replace (i - 1 + 1)%Z with i in H1 by lia.
    pose proof (half_eq (dUm pU i n)) as Hh.
    destruct (dUm_cases pU i n) as [(A1 & A2 & A3 & A4 & A5) | [(A1 & A2 & A3 & A4 & A5) | A0]];
      try (apply Qeq_refl_eq in A0);
      set (h := dUm pU i n / 2) in *; set (m := dUm pU i n) in *; repeat split; lra.
  - pose proof (Hmono (i - 1)%Z ltac:(lia)) as H1.
    pose proof (Hmono i ltac:(lia)) as H2.
    replace (i - 1 + 1)%Z with i in H1 by lia.
    pose proof (half_eq (dUm pU i n)) as Hh.
    destruct (dUm_cases pU i n) as [(A1 & A2 & A3 & A4 & A5) | [(A1 & A2 & A3 & A4 & A5) | A0]];
      try (apply Qeq_refl_eq in A0);
      set (h := dUm pU i n / 2) in *; set (m := dUm pU i n) in *; repeat split; lra.
Qed.

Lemma ramp_pencil_nondecreasing (lo hi : Z) : nondecreasing ramp_pencil F_d lo hi.
Proof. intros i _. simpl. rewrite <- Zle_Qle. lia. Qed.

Lemma C8_limited_slope_monotone_witness :
  get F_d (ramp_pencil (6 - 1)%Z) <= get F_d (ramp_pencil 6) - dUm ramp_pencil 6 F_d / 2 /\
  get F_d (ramp_pencil 6) - dUm ramp_pencil 6 F_d / 2 <= get F_d (ramp_pencil 6) /\
  get F_d (ramp_pencil 6) <= get F_d (ramp_pencil 6) + dUm ramp_pencil 6 F_d / 2 /\
  get F_d (ramp_pencil 6) + dUm ramp_pencil 6 F_d / 2 <= get F_d (ramp_pencil (6 + 1)%Z).
Proof.
  apply (proj1 (C8_limited_slope_monotone ramp_pencil F_d 4 12 6 ltac:(lia))).
  apply ramp_pencil_nondecreasing.
Defined.

(** On the ramp the slope is the full difference, so the bound is met with
    equality on neither side. *)
Example dUm_ramp : dUm ramp_pencil 6 F_d == 1.
Proof. reflexivity. Qed.

(** ** [CompRemapFlux]: what the loops store *)

(** Second order: interface [k] holds the flux of cell [k-1] when [eps] is
    positive and that of cell [k] otherwise. *)
Lemma CompRemapFlux2_at (cfg : Config) (pU : Z -> Gas) (eps : Real) (il iu : Z)
    (Flux : Z -> Gas) (k : Z) (n : Field) :
  (il <= k <= iu + 1)%Z -> In n (fields cfg) ->
  get n (CompRemapFlux2 cfg pU eps il iu Flux k) =
  if 0 <? eps then flux2_pos pU eps (k - 1) n else flux2_neg pU eps k n.
Proof.
  intros Hk Hn. unfold CompRemapFlux2, remap2_body.
  destruct (0 <? eps).
  - apply (for_range_establish
             (fun F : Z -> Gas => get n (F k) = flux2_pos pU eps (k - 1) n)
             _ _ _ (k - 1)%Z); [lia | |].
    + intros F. replace (k - 1 + 1)%Z with k by lia.
      rewrite upd_same. apply write_comps_same. assumption.
    + intros j F Hj HF. rewrite upd_other by lia. assumption.
  - apply (for_range_establish
             (fun F : Z -> Gas => get n (F k) = flux2_neg pU eps k n)
             _ _ _ k); [lia | |].
    + intros F. rewrite upd_same. apply write_comps_same. assumption.
    + intros j F Hj HF. rewrite upd_other by lia. assumption.
Qed.

(** Third order, first loop: every interface of [[il-1, iu+2]] holds its
    limited estimate. *)
Lemma interface_loop_at (cfg : Config) (pU : Z -> Gas) (il iu : Z)
    (Uh : Z -> Field -> Real) (k : Z) (n : Field) :
  (il - 1 <= k <= iu + 2)%Z -> In n (fields cfg) ->
  for_range (il - 1) (iu + 2) (interface_body cfg pU) Uh k n = Uhalf_final pU k n.
Proof.
  intros Hk Hn.
  apply (for_range_establish
           (fun Uh' : Z -> Field -> Real => Uh' k n = Uhalf_final pU k n)
           _ _ _ k); [lia | |].
  - intros Uh0. unfold interface_body. cbv zeta.
    rewrite !upd_same. rewrite write_row_same by assumption.
    rewrite write_row_same by assumption. reflexivity.
  - intros j Uh0 Hj H0. unfold interface_body. cbv zeta.
    rewrite !upd_other by lia. assumption.
Qed.

(** Third order, second loop. *)
Lemma CompRemapFlux3_at (cfg : Config) (pU : Z -> Gas) (eps : Real) (il iu : Z)
    (Flux : Z -> Gas) (Uh : Z -> Field -> Real) (k : Z) (n : Field) :
  (il <= k <= iu + 1)%Z -> In n (fields cfg) ->
  get n (fst (CompRemapFlux3 cfg pU eps il iu Flux Uh) k) =
  if 0 <? eps
  then flux3_pos pU eps (snd (CompRemapFlux3 cfg pU eps il iu Flux Uh)) (k - 1) n
  else flux3_neg pU eps (snd (CompRemapFlux3 cfg pU eps il iu Flux Uh)) k n.
Proof.
  intros Hk Hn. unfold CompRemapFlux3. cbv zeta. cbn [fst snd].
  set (Uh' := for_range (il - 1) (iu + 2) (interface_body cfg pU) Uh).
  unfold remap3_body.
  destruct (0 <? eps).
  - apply (for_range_establish
             (fun F : Z -> Gas => get n (F k) = flux3_pos pU eps Uh' (k - 1) n)
             _ _ _ (k - 1)%Z); [lia | |].
    + intros F. replace (k - 1 + 1)%Z with k by lia.
      rewrite upd_same. apply write_comps_same. assumption.
    + intros j F Hj HF. rewrite upd_other by lia. assumption.
  - apply (for_range_establish
             (fun F : Z -> Gas => get n (F k) = flux3_neg pU eps Uh' k n)
             _ _ _ k); [lia | |].
    + intros F. rewrite upd_same. apply write_comps_same. assumption.
    + intros j F Hj HF. rewrite upd_other by lia. assumption.
Qed.

(** ** Uniform pencils and the zero shift *)

Section Uniform.
Variable pU : Z -> Gas.
Variable v : Gas.
Variable n : Field.

(** On three equal cells the limited slope vanishes. *)
Lemma dUm_uniform (i : Z) :
  pU (i - 1)%Z = v -> pU i = v -> pU (i + 1)%Z = v -> dUm pU i n = 0.
Proof.
  intros H1 H2 H3. unfold dUm, dUl, dUr. rewrite H1, H2, H3.
  cmp_case; [exfalso; nra | reflexivity].
Qed.

(** On four equal cells the limited interface value is the cell value. *)
Lemma Uhalf_final_uniform (i : Z) :
  pU (i - 2)%Z = v -> pU (i - 1)%Z = v -> pU i = v -> pU (i + 1)%Z = v ->
  Uhalf_final pU i n == get n v.
Proof.
  intros H0 H1 H2 H3. unfold Uhalf_final, Uhalf_lim, d2Ulim_face.
  rewrite H0, H1, H2, H3. cbv zeta.
  set (x := get n v). set (uh := Uhalf_est pU i n).
  assert (Hpos : (0 <? x - 2 * x + x) = false).
  { cmp_case; [exfalso; lra | reflexivity]. }
  assert (Hneg : (x - 2 * x + x <? 0) = false).
  { cmp_case; [exfalso; lra | reflexivity]. }
  rewrite Hpos, Hneg, !andb_false_r. unfold Qdiv. ring.
Qed.

(** Step 4 on a cell whose edges and neighbours equal it. *)
Lemma parabola_edges_uniform (i : Z) (Ulv Urv : Real) :
  pU (i - 1)%Z = v -> pU i = v -> pU (i + 1)%Z = v ->
  Ulv == get n v -> Urv == get n v ->
  parabola_edges pU i n Ulv Urv = (get n v, get n v).
Proof.
  intros H1 H2 H3 Hl Hr. unfold parabola_edges. rewrite H1, H2, H3. cbv zeta.
  set (x := get n v) in *.
  assert (Ha : ((Urv - x) * (x - Ulv) <=? 0) = true).
  { cmp_case; [reflexivity |]. exfalso. rewrite Hl, Hr in Hc. lra. }
  assert (Hb : ((x - x) * (x - x) <=? 0) = true).
  { cmp_case; [reflexivity |]. exfalso. nra. }
  rewrite Ha, Hb. cbn [andb].
  assert (Hz : (- (2) * (6 * (x - (1 # 2) * (Ulv + Urv))) =? 0) = true).
  { cmp_case; [reflexivity |]. exfalso. apply Hc. rewrite Hl, Hr. ring. }
  rewrite Hz. reflexivity.
Qed.

Lemma monotonize_flat (i : Z) :
  monotonize pU i n (get n (pU i)) (get n (pU i)) = (get n (pU i), get n (pU i)).
Proof.
  unfold monotonize. cbv zeta.
  pose proof (Rle_b_spec ((get n (pU i) - get n (pU i)) * (get n (pU i) - get n (pU i))) 0)
    as Hc.
  destruct (_ <=? 0); [reflexivity |]. exfalso. nra.
Qed.

(** Steps 3 to 5 on a uniform stencil return the cell value twice. *)
Lemma edges_uniform (Uh : Z -> Field -> Real) (i : Z) :
  pU (i - 1)%Z = v -> pU i = v -> pU (i + 1)%Z = v ->
  Uh i n == get n v -> Uh (i + 1)%Z n == get n v ->
  edges pU Uh i n = (get n v, get n v).
Proof.
  intros H1 H2 H3 Hl Hr. unfold edges. cbv zeta.
  rewrite (parabola_edges_uniform i _ _ H1 H2 H3 Hl Hr).
  pose proof (monotonize_flat i) as Hm. rewrite H2 in Hm. exact Hm.
Qed.
End Uniform.

(** C1: on a uniform pencil (every cell of the required halo equal to [v])
    both variants of [CompRemapFlux] store [eps * v], member by member, at
    every interface of [[il, iu+1]], whatever [eps] is. *)
Theorem C1_uniform_pencil_flux (cfg : Config) (pU : Z -> Gas) (eps : Real)
    (il iu : Z) (Flux : Z -> Gas) (Uh : Z -> Field -> Real) (v : Gas)
    (k : Z) (n : Field) :
  (forall i : Z, (il - halo cfg <= i <= iu + halo cfg)%Z -> pU i = v) ->
  (il <= k <= iu + 1)%Z -> In n (fields cfg) ->
  get n (fst (CompRemapFlux cfg pU eps il iu Flux Uh) k) == eps * get n v.
Proof.
  intros Hu Hk Hn. unfold CompRemapFlux, halo in *.
  destruct (order cfg).
  - cbn [fst]. rewrite CompRemapFlux2_at by assumption.
    destruct (0 <? eps).
    + unfold flux2_pos.
      rewrite (dUm_uniform pU v n (k - 1)) by (apply Hu; lia).
      rewrite (Hu (k - 1)%Z) by lia. ring.
    + unfold flux2_neg.
      rewrite (dUm_uniform pU v n k) by (apply Hu; lia).
      rewrite (Hu k) by lia. ring.
  - rewrite CompRemapFlux3_at by assumption.
    unfold CompRemapFlux3. cbv zeta. cbn [snd].
    set (Uh' := for_range (il - 1) (iu + 2) (interface_body cfg pU) Uh).
    assert (HUh : forall j, (il - 1 <= j <= iu + 2)%Z -> Uh' j n == get n v).
    { intros j Hj. unfold Uh'. rewrite interface_loop_at by assumption.
      apply Uhalf_final_uniform; apply Hu; lia. }
    destruct (0 <? eps).
    + unfold flux3_pos.
      rewrite (edges_uniform pU v n Uh' (k - 1))
        by (first [ apply Hu; lia | apply HUh; lia ]).
      rewrite (Hu (k - 1)%Z) by lia. ring.
    + unfold flux3_neg.
      rewrite (edges_uniform pU v n Uh' k)
        by (first [ apply Hu; lia | apply HUh; lia ]).
      rewrite (Hu k) by lia. ring.
Qed.

(** C4: with [eps == 0] both variants store zero, member by member, at every
    interface of [[il, iu+1]], for every input pencil. *)
Theorem C4_zero_shift_flux (cfg : Config) (pU : Z -> Gas) (eps : Real)
    (il iu : Z) (Flux : Z -> Gas) (Uh : Z -> Field -> Real) (k : Z) (n : Field) :
  eps == 0 -> (il <= k <= iu + 1)%Z -> In n (fields cfg) ->
  get n (fst (CompRemapFlux cfg pU eps il iu Flux Uh) k) == 0.
Proof.
  intros He Hk Hn. unfold CompRemapFlux.
  assert (Hb : (0 <? eps) = false).
  { cmp_case; [exfalso; lra | reflexivity]. }
  destruct (order cfg).
  - cbn [fst]. rewrite CompRemapFlux2_at by assumption. rewrite Hb.
    unfold flux2_neg. rewrite He. ring.
  - rewrite CompRemapFlux3_at by assumption. rewrite Hb.
    unfold flux3_neg. destruct (edges _ _ _ _) as [Ulv Urv].
    rewrite He. ring.
Qed.

Lemma C1_uniform_pencil_flux_witness :
  get F_d (fst (CompRemapFlux cfg_second (fun _ => gas_of 2 5 0) (1 # 4) 4 12
                  flux_zero uhalf_zero) 7%Z)
    == (1 # 4) * get F_d (gas_of 2 5 0) /\
  get F_M2 (fst (CompRemapFlux cfg_third (fun _ => gas_of 2 5 0) (- (1 # 4)) 4 12
                   flux_zero uhalf_zero) 7%Z)
    == - (1 # 4) * get F_M2 (gas_of 2 5 0).
Proof.
  split.
  - apply (C1_uniform_pencil_flux cfg_second (fun _ => gas_of 2 5 0) (1 # 4) 4 12
             flux_zero uhalf_zero (gas_of 2 5 0) 7 F_d);
      [intros; reflexivity | lia | simpl; auto].
  - apply (C1_uniform_pencil_flux cfg_third (fun _ => gas_of 2 5 0) (- (1 # 4)) 4 12
             flux_zero uhalf_zero (gas_of 2 5 0) 7 F_M2);
      [intros; reflexivity | lia | simpl; auto].
Defined.

Lemma C4_zero_shift_flux_witness :
  get F_d (fst (CompRemapFlux cfg_second step_pencil 0 4 12 flux_ramp uhalf_zero) 8%Z) == 0 /\
  get F_d (fst (CompRemapFlux cfg_third step_pencil 0 4 12 flux_ramp uhalf_zero) 8%Z) == 0.
Proof.
  split.
  - apply (C4_zero_shift_flux cfg_second step_pencil 0 4 12 flux_ramp uhalf_zero 8 F_d);
      [reflexivity | lia | simpl; auto].
  - apply (C4_zero_shift_flux cfg_third step_pencil 0 4 12 flux_ramp uhalf_zero 8 F_d);
      [reflexivity | lia | simpl; auto].
Defined.

(** The end-to-end pencil of section 8 through the second-order variant at
    [eps = 0.25]: every limited slope vanishes on the step, so interface [k]
    carries a quarter of cell [k-1]; at [eps = -0.25] it carries minus a
    quarter of cell [k]. *)
Example step_pencil_flux_second_order :
  map (fun k => Qred (d (fst (CompRemapFlux cfg_second step_pencil (1 # 4) 4 12
                                flux_zero uhalf_zero) k)))
      [4; 5; 6; 7; 8; 9; 10; 11; 12; 13]%Z
  = [1 # 2; 1 # 4; 1 # 4; 1 # 4; 1 # 4; 1 # 2; 1 # 2; 1 # 2; 1 # 2; 1 # 4] /\
  map (fun k => Qred (d (fst (CompRemapFlux cfg_second step_pencil (- (1 # 4)) 4 12
                                flux_zero uhalf_zero) k)))
      [4; 5; 6; 7; 8; 9; 10; 11; 12; 13]%Z
  = [- (1 # 4); - (1 # 4); - (1 # 4); - (1 # 4); - (1 # 2); - (1 # 2); - (1 # 2);
     - (1 # 2); - (1 # 4); - (1 # 4)].
Proof. split; vm_compute; reflexivity. Qed.

(** The third-order variant on the parabola [20 - (j-8)^2] at [eps = 1/2]:
    through interface 8 it moves 39/4, the exact integral of the parabola
    over the right half of cell 7 (first order would move 19/2); at the
    maximum, cell 8, step 5 flattens the profile and the flux through
    interface 9 is the first-order one. *)
Example bump_flux_third_order :
  map (fun k => Qred (d (fst (CompRemapFlux cfg_third
                  (fun j => gas_of_density (inject_Z (20 - (j - 8) * (j - 8))%Z)) (1 # 2) 4 12
                  flux_zero uhalf_zero) k)))
      [8; 9]%Z
  = [39 # 4; 10 # 1].
Proof. vm_compute. reflexivity. Qed.

(** ** The frame of [shear_ix1_ox1] *)

Lemma upd3_other {A : Type} (a : Z -> Z -> Z -> A) (k j i k' j' i' : Z) (v : A) :
  ~ (k' = k /\ j' = j /\ i' = i) -> upd3 a k j i v k' j' i' = a k' j' i'.
Proof.
  intros H. unfold upd3, upd2, upd.
  destruct (Z.eq_dec k' k) as [-> | Hk]; [| reflexivity].
  destruct (Z.eq_dec j' j) as [-> | Hj]; [| reflexivity].
  destruct (Z.eq_dec i' i) as [-> | Hi]; [| reflexivity].
  exfalso. apply H. repeat split.
Qed.

Section Frame.
Variable cfg : Config.
Variable gl : Globals.
Variable pG : Grid.

(** The gathers and the periodic padding write scratch arrays only. *)
Lemma gather_ix1_U (j_offset k : Z) (m : Mem) :
  U (gather_ix1 cfg gl pG j_offset k m) = U m.
Proof.
  unfold gather_ix1.
  apply (for_range_inv (fun m' => U m' = U m)); [reflexivity |].
  intros j m1 _ H1.
  apply (for_range_inv (fun m' => U m' = U m)); [assumption |].
  intros i m2 _ H2. exact H2.
Qed.

Lemma gather_ox1_U (j_offset k : Z) (m : Mem) :
  U (gather_ox1 cfg gl pG j_offset k m) = U m.
Proof.
  unfold gather_ox1.
  apply (for_range_inv (fun m' => U m' = U m)); [reflexivity |].
  intros j m1 _ H1.
  apply (for_range_inv (fun m' => U m' = U m)); [assumption |].
  intros i m2 _ H2. exact H2.
Qed.

(** The remap of slice [k] writes rows [js..je] of the [nghost] columns
    that start at [i0]. *)
Lemma remap_layers_frame (write : (Z -> Gas) -> (Z -> Gas) -> Z -> Gas -> Gas)
    (eps : Real) (i0 k : Z) (m : Mem) (k' j' i' : Z) :
  ~ (k' = k /\ (js pG <= j' <= je pG)%Z /\ (i0 <= i' <= i0 + nghost cfg - 1)%Z) ->
  U (remap_layers cfg pG write eps i0 k m) k' j' i' = U m k' j' i'.
Proof.
  intros Hout. unfold remap_layers.
  apply (for_range_inv (fun m' => U m' k' j' i' = U m k' j' i')); [reflexivity |].
  intros i m1 Hi H1.
  destruct (CompRemapFlux cfg (RemapGas m1 i) eps (js pG) (je pG + 1) (Flx m1) (Uhalf m1))
    as [F Uh].
  apply (for_range_inv (fun m' => U m' k' j' i' = U m k' j' i')); [exact H1 |].
  intros j m2 Hj H2. cbn [U].
  rewrite upd3_other; [exact H2 |].
  intros (-> & -> & ->). apply Hout. repeat split; lia.
Qed.

Lemma remap_ix1_frame (off : ShearOffset) (m : Mem) (k j i : Z) :
  ~ ((ks pG <= k <= ke pG)%Z /\ (js pG <= j <= je pG)%Z /\
     (is_ pG - nghost cfg <= i <= is_ pG - 1)%Z) ->
  U (remap_ix1 cfg gl pG off m) k j i = U m k j i.
Proof.
  intros Hout. unfold remap_ix1.
  apply (for_range_inv (fun m' => U m' k j i = U m k j i)); [reflexivity |].
  intros k0 m1 Hk H1.
  rewrite remap_layers_frame.
  - cbn [U]. rewrite gather_ix1_U. exact H1.
  - intros (-> & Hj & Hi). apply Hout. repeat split; lia.
Qed.

Lemma remap_ox1_frame (off : ShearOffset) (m : Mem) (k j i : Z) :
  ~ ((ks pG <= k <= ke pG)%Z /\ (js pG <= j <= je pG)%Z /\
     (ie pG + 1 <= i <= ie pG + nghost cfg)%Z) ->
  U (remap_ox1 cfg gl pG off m) k j i = U m k j i.
Proof.
  intros Hout. unfold remap_ox1.
  apply (for_range_inv (fun m' => U m' k j i = U m k j i)); [reflexivity |].
  intros k0 m1 Hk H1.
  rewrite remap_layers_frame.
  - cbn [U]. rewrite gather_ox1_U. exact H1.
  - intros (-> & Hj & Hi). apply Hout. repeat split; lia.
Qed.

Lemma shear_ix1_ox1_frame (var_flag : Z) (m : Mem) (k j i : Z) :
  ~ x1_ghost cfg pG k j i ->
  U (shear_ix1_ox1 cfg gl pG var_flag m) k j i = U m k j i.
Proof.
  intros Hout. unfold shear_ix1_ox1.
  destruct (var_flag =? 1)%Z; [reflexivity |]. cbv zeta.
  rewrite remap_ox1_frame, remap_ix1_frame; [reflexivity | |];
    intros (Hk & Hj & Hi); apply Hout; unfold x1_ghost;
    (split; [exact Hk | split; [exact Hj |]]); [left | right]; exact Hi.
Qed.
End Frame.

(** C7: [shear_ix1_ox1] changes [pG->U] only in the x1 ghost columns
    [is-nghost .. is-1] and [ie+1 .. ie+nghost]; every other cell, and so
    every interior cell [is <= i <= ie], keeps its value. *)
Theorem C7_only_x1_ghost_zones_written (cfg : Config) (gl : Globals) (pG : Grid)
    (var_flag : Z) (m : Mem) (k j i : Z) :
  (~ x1_ghost cfg pG k j i ->
   U (shear_ix1_ox1 cfg gl pG var_flag m) k j i = U m k j i) /\
  ((is_ pG <= i <= ie pG)%Z ->
   U (shear_ix1_ox1 cfg gl pG var_flag m) k j i = U m k j i).
Proof.
  split.
  - apply shear_ix1_ox1_frame.
  - intros Hi. apply shear_ix1_ox1_frame.
    unfold x1_ghost. intros (_ & _ & [H | H]); lia.
Qed.

Lemma C7_only_x1_ghost_zones_written_witness :
  U (shear_ix1_ox1 cfg_second box8 grid8 0 mem8) 1%Z 5%Z 12%Z = U mem8 1%Z 5%Z 12%Z /\
  U (shear_ix1_ox1 cfg_second box8 grid8 0 mem8) 0%Z 5%Z 7%Z = U mem8 0%Z 5%Z 7%Z.
Proof.
  split.
  - apply (proj1 (C7_only_x1_ghost_zones_written cfg_second box8 grid8 0 mem8 1 5 12)).
    unfold x1_ghost. simpl. lia.
  - apply (proj2 (C7_only_x1_ghost_zones_written cfg_second box8 grid8 0 mem8 0 5 7)).
    simpl. lia.
Defined.

(** The frame is not vacuous: the exchange does rewrite ghost cells.  At
    time 1/4 the box has sheared by 3/16, one cell and a half; the inbound
    ghost cell of row 5 receives density 3/2 and the boosted momentum. *)
Example shear_ix1_ox1_writes_ghost_cells :
  Qred (d (U (shear_ix1_ox1 cfg_second box8 grid8 0 mem8) 0%Z 5%Z 3%Z)) = 3 # 2 /\
  Qred (M2 (U (shear_ix1_ox1 cfg_second box8 grid8 0 mem8) 0%Z 5%Z 3%Z)) = 9 # 8 /\
  Qred (d (U (shear_ix1_ox1 cfg_second box8 grid8 0 mem8) 0%Z 5%Z 12%Z)) = 1 # 1.
Proof. vm_compute. repeat split. Qed.

(** ** Totals along a pencil *)

Lemma sum_loop_ext (n : nat) (j : Z) (f g : Z -> Real) :
  (forall i, (j <= i < j + Z.of_nat n)%Z -> f i == g i) ->
  sum_loop n j f == sum_loop n j g.
Proof.
  revert j. induction n as [| n IH]; intros j H; cbn [sum_loop].
  - reflexivity.
  - rewrite (H j) by lia. rewrite (IH (j + 1)%Z); [reflexivity |].
    intros i Hi. apply H. lia.
Qed.

(** The flux differences telescope. *)
Lemma sum_loop_telescope (n : nat) (j : Z) (r F : Z -> Real) :
  sum_loop n j (fun i => r i - (F (i + 1)%Z - F i))
  == sum_loop n j r - (F (j + Z.of_nat n)%Z - F j).
Proof.
  revert j. induction n as [| n IH]; intros j; cbn [sum_loop].
  - replace (j + Z.of_nat 0)%Z with j by lia. ring.
  - rewrite IH. replace (j + 1 + Z.of_nat n)%Z with (j + Z.of_nat (Datatypes.S n))%Z by lia.
    ring.
Qed.

(** The total density written into one ghost column is the total of the
    gathered pencil minus the net flux through its two ends; the same holds
    for every member the write-back assigns. *)
Lemma write_back_total_density (cfg : Config) (R F c : Z -> Gas) (js je : Z) :
  (js <= je + 1)%Z ->
  sum_range js je (fun j => d (write_ix1_cell cfg R F j (c j)))
  == sum_range js je (fun j => d (R j)) - (d (F (je + 1)%Z) - d (F js)) /\
  sum_range js je (fun j => d (write_ox1_cell cfg R F j (c j)))
  == sum_range js je (fun j => d (R j)) - (d (F (je + 1)%Z) - d (F js)).
Proof.
  intros Hje. unfold sum_range.
  assert (Hi : forall j, d (write_ix1_cell cfg R F j (c j))
                         = d (R j) - (d (F (j + 1)%Z) - d (F j))).
  { intros j. unfold write_ix1_cell. cbv zeta. destruct (ADIABATIC cfg); reflexivity. }
  assert (Ho : forall j, d (write_ox1_cell cfg R F j (c j))
                         = d (R j) - (d (F (j + 1)%Z) - d (F j))).
  { intros j. unfold write_ox1_cell. cbv zeta.
    change (d ?g) with (get F_d g) at 1.
    rewrite scalar_loop_other by (intros ? ?; discriminate).
    destruct (ADIABATIC cfg); reflexivity. }
  split.
  - rewrite (sum_loop_ext _ _ _ (fun j => d (R j) - (d (F (j + 1)%Z) - d (F j))))
      by (intros i _; rewrite Hi; reflexivity).
    rewrite (sum_loop_telescope _ js (fun j => d (R j)) (fun j => d (F j))).
    replace (js + Z.of_nat (Z.to_nat (je + 1 - js)))%Z with (je + 1)%Z by lia.
    reflexivity.
  - rewrite (sum_loop_ext _ _ _ (fun j => d (R j) - (d (F (j + 1)%Z) - d (F j))))
      by (intros i _; rewrite Ho; reflexivity).
    rewrite (sum_loop_telescope _ js (fun j => d (R j)) (fun j => d (F j))).
    replace (js + Z.of_nat (Z.to_nat (je + 1 - js)))%Z with (je + 1)%Z by lia.
    reflexivity.
Qed.

Lemma write_back_total_density_witness :
  sum_range 4 11 (fun j => d (write_ix1_cell cfg_second step_pencil flux_ramp j gas_one))
  == sum_range 4 11 (fun j => d (step_pencil j))
     - (d (flux_ramp (11 + 1)%Z) - d (flux_ramp 4)) /\
  sum_range 4 11 (fun j => d (write_ox1_cell cfg_second step_pencil flux_ramp j gas_one))
  == sum_range 4 11 (fun j => d (step_pencil j))
     - (d (flux_ramp (11 + 1)%Z) - d (flux_ramp 4)).
Proof.
  apply (write_back_total_density cfg_second step_pencil flux_ramp (fun _ => gas_one) 4 11).
  lia.
Defined.

(** With [var_flag] 1 (the potential of self-gravity) the routine returns at
    once and leaves all memory as it was. *)
Lemma shear_ix1_ox1_phi_is_no_op (cfg : Config) (gl : Globals) (pG : Grid) (m : Mem) :
  shear_ix1_ox1 cfg gl pG 1 m = m.
Proof. reflexivity. Qed.

(** ** Passive scalars in the ghost-zone write-back *)

(** C9 (the code departs from it): the outbound write-back gives every
    passive scalar [RemapGas[i][j].s[n] - (Flx[j+1].s[n] - Flx[j].s[n])];
    the inbound write-back, whose scalar statement is malformed in the
    source and has no embedding, leaves the scalars of the ghost cell as they
    were. *)
Theorem C9_scalar_write_back_outbound_only (cfg : Config) (R F : Z -> Gas) (j : Z)
    (c : Gas) (n : nat) :
  (n < NSCALARS cfg)%nat ->
  s (write_ox1_cell cfg R F j c) n = s (R j) n - (s (F (j + 1)%Z) n - s (F j) n) /\
  s (write_ix1_cell cfg R F j c) n = s c n.
Proof.
  intros Hn. split.
  - unfold write_ox1_cell. cbv zeta.
    apply (scalar_loop_same
             (fun n => s (R j) n - (s (F (j + 1)%Z) n - s (F j) n))); assumption.
  - unfold write_ix1_cell. cbv zeta.
    change (s ?g n) with (get (F_s n) g).
    destruct (ADIABATIC cfg); rewrite !get_set_other by discriminate; reflexivity.
Qed.

Lemma C9_scalar_write_back_outbound_only_witness :
  s (write_ox1_cell cfg_scalar step_pencil flux_ramp 5 (gas_of 1 0 7)) 0
    = 3 - (inject_Z (5 + 1) - inject_Z 5) /\
  s (write_ix1_cell cfg_scalar step_pencil flux_ramp 5 (gas_of 1 0 7)) 0 = 7.
Proof.
  apply (C9_scalar_write_back_outbound_only
           cfg_scalar step_pencil flux_ramp 5 (gas_of 1 0 7) 0).
  simpl. lia.
Defined.

(** ** [CompRemapFlux]: closed form, frame and locality *)

(** The members that [edges] reads of [Uhalf]. *)
Lemma edges_Uhalf_ext (pU : Z -> Gas) (Uh Uh' : Z -> Field -> Real) (i : Z) (n : Field) :
  Uh i n = Uh' i n -> Uh (i + 1)%Z n = Uh' (i + 1)%Z n ->
  edges pU Uh i n = edges pU Uh' i n.
Proof. intros H1 H2. unfold edges. rewrite H1, H2. reflexivity. Qed.

(** Whatever [Flux] and [Uhalf] held before the call, member [n] of
    [Flux[k]] is [remap_flux] of the pencil afterwards. *)
Lemma CompRemapFlux_closed_form (cfg : Config) (pU : Z -> Gas) (eps : Real) (il iu : Z)
    (Flux : Z -> Gas) (Uh : Z -> Field -> Real) (k : Z) (n : Field) :
  (il <= k <= iu + 1)%Z -> In n (fields cfg) ->
  get n (fst (CompRemapFlux cfg pU eps il iu Flux Uh) k) = remap_flux cfg pU eps k n.
Proof.
  intros Hk Hn. unfold CompRemapFlux, remap_flux. destruct (order cfg).
  - cbn [fst]. apply CompRemapFlux2_at; assumption.
  - rewrite CompRemapFlux3_at by assumption.
    unfold CompRemapFlux3. cbv zeta. cbn [snd].
    set (Uh' := for_range (il - 1) (iu + 2) (interface_body cfg pU) Uh).
    assert (HUh : forall j, (il - 1 <= j <= iu + 2)%Z -> Uh' j n = Uhalf_final pU j n).
    { intros j Hj. apply interface_loop_at; assumption. }
    destruct (0 <? eps).
    + unfold flux3_pos.
      rewrite (edges_Uhalf_ext pU Uh' (Uhalf_final pU) (k - 1) n);
        [reflexivity | apply HUh; lia | apply HUh; lia].
    + unfold flux3_neg.
      rewrite (edges_Uhalf_ext pU Uh' (Uhalf_final pU) k n);
        [reflexivity | apply HUh; lia | apply HUh; lia].
Qed.

(** The kernels read member [n] of a few cells around their centre; equal
    members there give equal results, wherever the centre lies. *)
Lemma dUm_local (pU pU' : Z -> Gas) (i i' : Z) (n : Field) :
  get n (pU (i - 1)%Z) = get n (pU' (i' - 1)%Z) ->
  get n (pU i) = get n (pU' i') ->
  get n (pU (i + 1)%Z) = get n (pU' (i' + 1)%Z) ->
  dUm pU i n = dUm pU' i' n.
Proof.
  intros H1 H2 H3. unfold dUm, dUl, dUr, dUc. rewrite H1, H2, H3. reflexivity.
Qed.

Lemma Uhalf_final_local (pU pU' : Z -> Gas) (i i' : Z) (n : Field) :
  get n (pU (i - 2)%Z) = get n (pU' (i' - 2)%Z) ->
  get n (pU (i - 1)%Z) = get n (pU' (i' - 1)%Z) ->
  get n (pU i) = get n (pU' i') ->
  get n (pU (i + 1)%Z) = get n (pU' (i' + 1)%Z) ->
  Uhalf_final pU i n = Uhalf_final pU' i' n.
Proof.
  intros H0 H1 H2 H3. unfold Uhalf_final, Uhalf_lim, d2Ulim_face, Uhalf_est.
  rewrite H0, H1, H2, H3. reflexivity.
Qed.

Lemma parabola_edges_local (pU pU' : Z -> Gas) (i i' : Z) (n : Field) (Ulv Urv : Real) :
  get n (pU (i - 2)%Z) = get n (pU' (i' - 2)%Z) ->
  get n (pU (i - 1)%Z) = get n (pU' (i' - 1)%Z) ->
  get n (pU i) = get n (pU' i') ->
  get n (pU (i + 1)%Z) = get n (pU' (i' + 1)%Z) ->
  get n (pU (i + 2)%Z) = get n (pU' (i' + 2)%Z) ->
  parabola_edges pU i n Ulv Urv = parabola_edges pU' i' n Ulv Urv.
Proof.
  intros H0 H1 H2 H3 H4. unfold parabola_edges.
  rewrite H0, H1, H2, H3, H4. reflexivity.
Qed.

Lemma monotonize_local (pU pU' : Z -> Gas) (i i' : Z) (n : Field) (Ulv Urv : Real) :
  get n (pU i) = get n (pU' i') ->
  monotonize pU i n Ulv Urv = monotonize pU' i' n Ulv Urv.
Proof. intros H. unfold monotonize. rewrite H. reflexivity. Qed.

Lemma edges_local (pU pU' : Z -> Gas) (i i' : Z) (n : Field) :
  (forall j : Z, (-2 <= j <= 2)%Z -> get n (pU (i + j)%Z) = get n (pU' (i' + j)%Z)) ->
  edges pU (Uhalf_final pU) i n = edges pU' (Uhalf_final pU') i' n.
Proof.
  intros H.
  pose proof (H (-2)%Z ltac:(lia)) as Hm2. pose proof (H (-1)%Z ltac:(lia)) as Hm1.
  pose proof (H 0%Z ltac:(lia)) as H0. pose proof (H 1%Z ltac:(lia)) as Hp1.
  pose proof (H 2%Z ltac:(lia)) as Hp2.
  replace (i + -2)%Z with (i - 2)%Z in Hm2 by lia.
  replace (i' + -2)%Z with (i' - 2)%Z in Hm2 by lia.
  replace (i + -1)%Z with (i - 1)%Z in Hm1 by lia.
  replace (i' + -1)%Z with (i' - 1)%Z in Hm1 by lia.
  replace (i + 0)%Z with i in H0 by lia. replace (i' + 0)%Z with i' in H0 by lia.
  unfold edges.
  rewrite (Uhalf_final_local pU pU' i i' n Hm2 Hm1 H0 Hp1).
  rewrite (Uhalf_final_local pU pU' (i + 1) (i' + 1) n).
  - rewrite (parabola_edges_local pU pU' i i' n _ _ Hm2 Hm1 H0 Hp1 Hp2).
    destruct (parabola_edges pU' i' n _ _) as [Ulv Urv].
    apply monotonize_local. exact H0.
  - replace (i + 1 - 2)%Z with (i - 1)%Z by lia.
    replace (i' + 1 - 2)%Z with (i' - 1)%Z by lia. exact Hm1.
  - replace (i + 1 - 1)%Z with i by lia. replace (i' + 1 - 1)%Z with i' by lia. exact H0.
  - exact Hp1.
  - replace (i + 1 + 1)%Z with (i + 2)%Z by lia.
    replace (i' + 1 + 1)%Z with (i' + 2)%Z by lia. exact Hp2.
Qed.

(** Locality: member [n] of the flux at interface [k] is a function of member
    [n] of the cells [k - halo .. k + halo - 1] only, the same function at
    every interface. *)
Lemma remap_flux_local (cfg : Config) (pU pU' : Z -> Gas) (eps : Real) (k N : Z)
    (n : Field) :
  (forall j : Z, (k - halo cfg <= j <= k + halo cfg - 1)%Z ->
                 get n (pU j) = get n (pU' (j + N)%Z)) ->
  remap_flux cfg pU eps k n = remap_flux cfg pU' eps (k + N) n.
Proof.
  unfold remap_flux, halo. intros H.
  assert (Hc : forall z z' : Z,
             (k - match order cfg with SECOND_ORDER => 2 | THIRD_ORDER => 3 end <= z
              <= k + match order cfg with SECOND_ORDER => 2 | THIRD_ORDER => 3 end - 1)%Z ->
             (z' = z + N)%Z -> get n (pU z) = get n (pU' z')).
  { intros z z' Hz ->. apply H. assumption. }
  clear H. destruct (order cfg), (0 <? eps).
  - unfold flux2_pos.
    rewrite (dUm_local pU pU' (k - 1) (k + N - 1) n) by (apply Hc; lia).
    rewrite (Hc (k - 1)%Z (k + N - 1)%Z) by lia. reflexivity.
  - unfold flux2_neg.
    rewrite (dUm_local pU pU' k (k + N) n) by (apply Hc; lia).
    rewrite (Hc k (k + N)%Z) by lia. reflexivity.
  - unfold flux3_pos.
    rewrite (edges_local pU pU' (k - 1) (k + N - 1) n)
      by (intros j Hj; apply Hc; lia).
    rewrite (Hc (k - 1)%Z (k + N - 1)%Z) by lia. reflexivity.
  - unfold flux3_neg.
    rewrite (edges_local pU pU' k (k + N) n) by (intros j Hj; apply Hc; lia).
    rewrite (Hc k (k + N)%Z) by lia. reflexivity.
Qed.

(** The flux pencil that [CompRemapFlux] returns is translation equivariant
    and depends on member [n] of the pencil inside the documented halo only:
    neither the cells beyond it nor the previous contents of [Flux] and
    [Uhalf] matter. *)
Theorem CompRemapFlux_shift_and_scratch (cfg : Config) (pU pU' : Z -> Gas) (eps : Real)
    (il iu N : Z) (Flux Flux' : Z -> Gas) (Uh Uh' : Z -> Field -> Real)
    (k : Z) (n : Field) :
  (forall j : Z, (il - halo cfg <= j <= iu + halo cfg)%Z ->
                 get n (pU' j) = get n (pU (j + N)%Z)) ->
  (il <= k <= iu + 1)%Z -> In n (fields cfg) ->
  get n (fst (CompRemapFlux cfg pU' eps il iu Flux' Uh') k)
  = get n (fst (CompRemapFlux cfg pU eps (il + N) (iu + N) Flux Uh) (k + N)%Z).
Proof.
  intros H Hk Hn.
  rewrite !CompRemapFlux_closed_form by (assumption || lia).
  apply remap_flux_local. intros j Hj. apply H. lia.
Qed.

Lemma CompRemapFlux_shift_and_scratch_witness :
  get F_d (fst (CompRemapFlux cfg_third (fun j => ramp_pencil (j + 5)%Z) (1 # 4) 4 12
                  flux_ramp uhalf_zero) 6%Z)
  = get F_d (fst (CompRemapFlux cfg_third ramp_pencil (1 # 4) (4 + 5) (12 + 5)
                    flux_zero uhalf_zero) (6 + 5)%Z).
Proof.
  apply (CompRemapFlux_shift_and_scratch cfg_third ramp_pencil
           (fun j => ramp_pencil (j + 5)%Z) (1 # 4) 4 12 5
           flux_zero flux_ramp uhalf_zero uhalf_zero 6 F_d);
    [intros; reflexivity | lia | simpl; auto].
Defined.

(** On a pencil of period [P] the flux has period [P]: two interfaces of the
    output range that lie [P] apart carry the same flux. *)
Theorem CompRemapFlux_periodic (cfg : Config) (pU : Z -> Gas) (eps : Real)
    (il iu P : Z) (Flux : Z -> Gas) (Uh : Z -> Field -> Real) (k : Z) (n : Field) :
  (forall j : Z, (k - halo cfg <= j <= k + halo cfg - 1)%Z ->
                 get n (pU j) = get n (pU (j + P)%Z)) ->
  (il <= k <= iu + 1)%Z -> (il <= k + P <= iu + 1)%Z -> In n (fields cfg) ->
  get n (fst (CompRemapFlux cfg pU eps il iu Flux Uh) (k + P)%Z)
  = get n (fst (CompRemapFlux cfg pU eps il iu Flux Uh) k).
Proof.
  intros H Hk HkP Hn.
  rewrite !CompRemapFlux_closed_form by assumption.
  symmetry. apply remap_flux_local. assumption.
Qed.

Lemma CompRemapFlux_periodic_witness :
  get F_d (fst (CompRemapFlux cfg_second step_pencil (1 # 4) 4 12 flux_zero uhalf_zero)
             (4 + 8)%Z)
  = get F_d (fst (CompRemapFlux cfg_second step_pencil (1 # 4) 4 12 flux_zero uhalf_zero)
               4%Z).
Proof.
  apply (CompRemapFlux_periodic cfg_second step_pencil (1 # 4) 4 12 8
           flux_zero uhalf_zero 4 F_d); [ | lia | lia | simpl; auto].
  intros j Hj. unfold step_pencil.
  replace ((j + 8 - 4) mod 8)%Z with ((j - 4) mod 8)%Z; [reflexivity |].
  replace (j + 8 - 4)%Z with (j - 4 + 1 * 8)%Z by lia.
  rewrite Z.mod_add by lia. reflexivity.
Defined.

(** The frame of [CompRemapFlux]: it writes [Flux[il .. iu+2]] when [eps] is
    positive and [Flux[il-1 .. iu+1]] otherwise, one interface more than the
    documented [il .. iu+1], and nothing else; a member that is not one of
    the [NVAR] variables is never written. *)
Theorem CompRemapFlux_frame (cfg : Config) (pU : Z -> Gas) (eps : Real) (il iu : Z)
    (Flux : Z -> Gas) (Uh : Z -> Field -> Real) (k : Z) (n : Field) :
  (0 < eps -> ~ (il <= k <= iu + 2)%Z ->
   fst (CompRemapFlux cfg pU eps il iu Flux Uh) k = Flux k) /\
  (eps <= 0 -> ~ (il - 1 <= k <= iu + 1)%Z ->
   fst (CompRemapFlux cfg pU eps il iu Flux Uh) k = Flux k) /\
  (~ In n (fields cfg) ->
   get n (fst (CompRemapFlux cfg pU eps il iu Flux Uh) k) = get n (Flux k)).
Proof.
  repeat split.
  - intros Hpos Hk. unfold CompRemapFlux, CompRemapFlux2, CompRemapFlux3.
    assert (Hb : (0 <? eps) = true) by (cmp_case; [reflexivity | exfalso; lra]).
    destruct (order cfg); cbn [fst];
      apply (for_range_inv (fun F : Z -> Gas => F k = Flux k)); try reflexivity;
      intros i F Hi HF; unfold remap2_body, remap3_body; rewrite Hb;
      rewrite upd_other by lia; exact HF.
  - intros Hneg Hk. unfold CompRemapFlux, CompRemapFlux2, CompRemapFlux3.
    assert (Hb : (0 <? eps) = false) by (cmp_case; [exfalso; lra | reflexivity]).
    destruct (order cfg); cbn [fst];
      apply (for_range_inv (fun F : Z -> Gas => F k = Flux k)); try reflexivity;
      intros i F Hi HF; unfold remap2_body, remap3_body; rewrite Hb;
      rewrite upd_other by lia; exact HF.
  - intros Hn. unfold CompRemapFlux, CompRemapFlux2, CompRemapFlux3.
    destruct (order cfg); cbn [fst];
      apply (for_range_inv (fun F : Z -> Gas => get n (F k) = get n (Flux k)));
      try reflexivity;
      intros i F Hi HF; unfold remap2_body, remap3_body; destruct (0 <? eps);
      unfold upd;
      match goal with
      | |- context [Z.eq_dec k ?z] => destruct (Z.eq_dec k z) as [-> | Hne]
      end;
      try exact HF; rewrite write_comps_other by assumption; exact HF.
Qed.

Lemma CompRemapFlux_frame_witness :
  fst (CompRemapFlux cfg_second step_pencil (1 # 4) 4 12 flux_ramp uhalf_zero) 3%Z
    = flux_ramp 3 /\
  fst (CompRemapFlux cfg_second step_pencil (- (1 # 4)) 4 12 flux_ramp uhalf_zero) 14%Z
    = flux_ramp 14 /\
  get F_B1c (fst (CompRemapFlux cfg_second step_pencil (1 # 4) 4 12 flux_ramp uhalf_zero)
               7%Z)
    = get F_B1c (flux_ramp 7).
Proof.
  split; [| split].
  - apply (proj1 (CompRemapFlux_frame cfg_second step_pencil (1 # 4) 4 12
                    flux_ramp uhalf_zero 3 F_d)); [reflexivity | lia].
  - apply (proj1 (proj2 (CompRemapFlux_frame cfg_second step_pencil (- (1 # 4)) 4 12
                           flux_ramp uhalf_zero 14 F_d))); [discriminate | lia].
  - apply (proj2 (proj2 (CompRemapFlux_frame cfg_second step_pencil (1 # 4) 4 12
                           flux_ramp uhalf_zero 7 F_B1c))).
    simpl. intuition discriminate.
Defined.

(** ** The third-order edge values *)

Lemma monotonize_flattens (pU : Z -> Gas) (i : Z) (n : Field) (Ulv Urv : Real) :
  (Urv - get n (pU i)) * (get n (pU i) - Ulv) <= 0 ->
  monotonize pU i n Ulv Urv = (get n (pU i), get n (pU i)).
Proof.
  intros H. unfold monotonize. cbv zeta.
  pose proof (Rle_b_spec ((Urv - get n (pU i)) * (get n (pU i) - Ulv)) 0) as Hc.
  destruct (_ <=? 0); [reflexivity | exfalso; lra].
Qed.

(** Step 4, the extremum-preserving construction, never changes what the
    routine computes: whenever it rewrites the edge values, step 5 resets
    both to the cell value, exactly as it would have done without step 4.
    So the edge values are those of step 5 applied to the interface values,
    and a cell whose interface values do not bracket it is flattened. *)
Theorem extremum_step_has_no_effect (pU : Z -> Gas) (Uh : Z -> Field -> Real)
    (i : Z) (n : Field) :
  edges pU Uh i n = monotonize pU i n (Uh i n) (Uh (i + 1)%Z n) /\
  ((Uh (i + 1)%Z n - get n (pU i)) * (get n (pU i) - Uh i n) <= 0 ->
   edges pU Uh i n = (get n (pU i), get n (pU i))).
Proof.
  assert (Hmain : edges pU Uh i n = monotonize pU i n (Uh i n) (Uh (i + 1)%Z n)).
  { unfold edges. cbv zeta. unfold parabola_edges. cbv zeta.
    set (u := get n (pU i)). set (Ulv := Uh i n). set (Urv := Uh (i + 1)%Z n).
    pose proof (Rle_b_spec ((Urv - u) * (u - Ulv)) 0) as Hqa.
    destruct ((Urv - u) * (u - Ulv) <=? 0); cbn [andb]; [| reflexivity].
    destruct (_ <=? 0); [| reflexivity].
    rewrite (monotonize_flattens pU i n Ulv Urv Hqa).
    destruct (_ =? 0).
    - apply monotonize_flattens. fold u. nra.
    - match goal with
      | |- context [(Ulv - u) * ?l / ?m] => set (lim := l); set (dd := m)
      end.
      apply monotonize_flattens. fold u. unfold Qdiv.
      set (w := / dd).
      assert (Hsq : 0 <= (lim * w) * (lim * w)) by nra.
      assert (Heq : (u + (Urv - u) * lim * w - u) * (u - (u + (Ulv - u) * lim * w))
                    == ((Urv - u) * (u - Ulv)) * ((lim * w) * (lim * w))) by ring.
      rewrite Heq. nra. }
  split; [exact Hmain |].
  intros H. rewrite Hmain. apply monotonize_flattens. exact H.
Qed.

Lemma extremum_step_has_no_effect_witness :
  edges (fun j => gas_of_density (inject_Z (20 - (j - 8) * (j - 8))%Z))
        (Uhalf_final (fun j => gas_of_density (inject_Z (20 - (j - 8) * (j - 8))%Z)))
        8 F_d
  = (20, 20).
Proof.
  apply (proj2 (extremum_step_has_no_effect
                  (fun j => gas_of_density (inject_Z (20 - (j - 8) * (j - 8))%Z))
                  (Uhalf_final
                     (fun j => gas_of_density (inject_Z (20 - (j - 8) * (j - 8))%Z)))
                  8 F_d)).
  vm_compute. discriminate.
Defined.

(** ** The second-order remap keeps values between their neighbours *)

(** The slopes on the two sides of the interface between cells [a] and [b]
    have the sign of [b - a] and at most twice its size. *)
Lemma remap_convex_pos (a b mj mjm eps : Real) :
  0 <= eps <= 1 ->
  (0 <= b - a /\ 0 <= mj <= 2 * (b - a) /\ 0 <= mjm <= 2 * (b - a)) \/
  (b - a <= 0 /\ 2 * (b - a) <= mj <= 0 /\ 2 * (b - a) <= mjm <= 0) ->
  between a
    (b - (eps * (b + (1 # 2) * (1 - eps) * mj) - eps * (a + (1 # 2) * (1 - eps) * mjm)))
    b.
Proof.
  intros [He0 He1] Hs. unfold between.
  set (t := eps * (1 - eps)).
  assert (Ht : 0 <= t) by (unfold t; nra).
  assert (Hv : b - (eps * (b + (1 # 2) * (1 - eps) * mj)
                    - eps * (a + (1 # 2) * (1 - eps) * mjm))
               == b - eps * (b - a) - (1 # 2) * (t * mj) + (1 # 2) * (t * mjm))
    by (unfold t; ring).
  rewrite Hv.
  assert (Ht2 : t == eps - eps * eps) by (unfold t; ring).
  destruct Hs as [(Hd & [Hj0 Hj1] & [Hm0 Hm1]) | (Hd & [Hj0 Hj1] & [Hm0 Hm1])].
  - left.
    assert (0 <= t * mj) by nra. assert (0 <= t * mjm) by nra.
    assert (t * mj <= t * (2 * (b - a))) by nra.
    assert (t * mjm <= t * (2 * (b - a))) by nra.
    assert (Hp : t * (2 * (b - a)) == 2 * eps * (b - a) - 2 * (eps * eps) * (b - a))
      by (rewrite Ht2; ring).
    assert (0 <= (eps * eps) * (b - a)) by nra.
    assert (eps * (b - a) <= b - a) by nra.
    assert (0 <= (1 - eps) * (1 - eps) * (b - a)) by nra.
    set (x := t * mj) in *. set (y := t * mjm) in *.
    set (p := eps * (b - a)) in *. set (q := eps * eps * (b - a)) in *.
    split; nra.
  - right.
    assert (t * mj <= 0) by nra. assert (t * mjm <= 0) by nra.
    assert (t * (2 * (b - a)) <= t * mj) by nra.
    assert (t * (2 * (b - a)) <= t * mjm) by nra.
    assert (Hp : t * (2 * (b - a)) == 2 * eps * (b - a) - 2 * (eps * eps) * (b - a))
      by (rewrite Ht2; ring).
    assert ((eps * eps) * (b - a) <= 0) by nra.
    assert (b - a <= eps * (b - a)) by nra.
    assert ((1 - eps) * (1 - eps) * (b - a) <= 0) by nra.
    set (x := t * mj) in *. set (y := t * mjm) in *.
    set (p := eps * (b - a)) in *. set (q := eps * eps * (b - a)) in *.
    split; nra.
Qed.

Lemma remap_convex_neg (b c mj mjp eps : Real) :
  - (1) <= eps <= 0 ->
  (0 <= c - b /\ 0 <= mj <= 2 * (c - b) /\ 0 <= mjp <= 2 * (c - b)) \/
  (c - b <= 0 /\ 2 * (c - b) <= mj <= 0 /\ 2 * (c - b) <= mjp <= 0) ->
  between b
    (b - (eps * (c - (1 # 2) * (1 + eps) * mjp) - eps * (b - (1 # 2) * (1 + eps) * mj)))
    c.
Proof.
  intros He Hs.
  assert (He' : 0 <= - eps <= 1) by lra.
  assert (Hs' : (0 <= b - c /\ 0 <= - mj <= 2 * (b - c) /\ 0 <= - mjp <= 2 * (b - c)) \/
                (b - c <= 0 /\ 2 * (b - c) <= - mj <= 0 /\ 2 * (b - c) <= - mjp <= 0)).
  { destruct Hs as [(H1 & H2 & H3) | (H1 & H2 & H3)]; [right | left];
      repeat split; lra. }
  pose proof (remap_convex_pos c b (- mj) (- mjp) (- eps) He' Hs') as H.
  unfold between in *.
  assert (Heq : b - (eps * (c - (1 # 2) * (1 + eps) * mjp)
                     - eps * (b - (1 # 2) * (1 + eps) * mj))
                == b - (- eps * (b + (1 # 2) * (1 - - eps) * - mj)
                        - - eps * (c + (1 # 2) * (1 - - eps) * - mjp))) by ring.
  rewrite Heq. destruct H as [H | H]; [right | left]; exact H.
Qed.

(** The slopes of two adjacent cells against their common difference. *)
Lemma adjacent_slopes (pU : Z -> Gas) (j : Z) (n : Field) :
  let a := get n (pU (j - 1)%Z) in
  let b := get n (pU j) in
  (0 <= b - a /\ 0 <= dUm pU j n <= 2 * (b - a)
   /\ 0 <= dUm pU (j - 1) n <= 2 * (b - a)) \/
  (b - a <= 0 /\ 2 * (b - a) <= dUm pU j n <= 0
   /\ 2 * (b - a) <= dUm pU (j - 1) n <= 0).
Proof.
  intros a b.
  pose proof (dUm_cases pU j n) as Hj. pose proof (dUm_cases pU (j - 1) n) as Hm.
  replace (j - 1 + 1)%Z with j in Hm by lia.
  fold a b in Hj, Hm.
  set (mj := dUm pU j n) in *. set (mm := dUm pU (j - 1) n) in *.
  set (c := get n (pU (j + 1)%Z)) in *. set (z := get n (pU (j - 1 - 1)%Z)) in *.
  destruct Hj as [(J1 & J2 & J3 & J4 & J5) | [(J1 & J2 & J3 & J4 & J5) | J0]];
  destruct Hm as [(M1' & M2' & M3' & M4 & M5) | [(M1' & M2' & M3' & M4 & M5) | M0]];
  try (apply Qeq_refl_eq in J0); try (apply Qeq_refl_eq in M0);
  try (exfalso; lra);
  first [ left; repeat split; lra
        | right; repeat split; lra
        | destruct (Qlt_le_dec a b); [left | right]; repeat split; lra ].
Qed.

(** Both directions of the shift. *)
Lemma second_order_remap_between_aux (cfg : Config) (pU : Z -> Gas) (eps : Real)
    (j : Z) (n : Field) :
  order cfg = SECOND_ORDER ->
  (0 <= eps <= 1 ->
   between (get n (pU (j - 1)%Z)) (remapped cfg pU eps j n) (get n (pU j))) /\
  (- (1) <= eps <= 0 ->
   between (get n (pU j)) (remapped cfg pU eps j n) (get n (pU (j + 1)%Z))).
Proof.
  intros Ho. unfold remapped, remap_flux. rewrite Ho.
  pose proof (Rlt_b_spec 0 eps) as Hc. destruct (0 <? eps).
  - split; intros He; [| exfalso; lra].
    unfold flux2_pos. replace (j + 1 - 1)%Z with j by lia.
    apply remap_convex_pos; [assumption | apply adjacent_slopes].
  - split; intros He.
    + assert (He0 : eps == 0) by lra.
      unfold flux2_neg, between.
      assert (Hv : get n (pU j)
                   - (eps * (get n (pU (j + 1)%Z) - (1 # 2) * (1 + eps) * dUm pU (j + 1) n)
                      - eps * (get n (pU j) - (1 # 2) * (1 + eps) * dUm pU j n))
                   == get n (pU j)) by (rewrite He0; ring).
      rewrite Hv.
      destruct (Qlt_le_dec (get n (pU (j - 1)%Z)) (get n (pU j))); [left | right];
        split; lra.
    + unfold flux2_neg.
      apply remap_convex_neg; [assumption |].
      pose proof (adjacent_slopes pU (j + 1) n) as Hs. cbv zeta in Hs.
      replace (j + 1 - 1)%Z with j in Hs by lia.
      destruct Hs as [(H1 & H2 & H3) | (H1 & H2 & H3)]; [left | right];
        repeat split; lra.
Qed.

(** With the second-order variant and a shift of at most one cell, every
    remapped value lies between the two gathered cells it is taken from: the
    cell itself and its neighbour on the side the shift comes from.  The
    remap creates no new maximum or minimum, and a positive density stays
    positive. *)
Theorem second_order_remap_between (cfg : Config) (pU : Z -> Gas) (eps : Real)
    (j : Z) (n : Field) :
  order cfg = SECOND_ORDER ->
  (0 <= eps <= 1 ->
   between (get n (pU (j - 1)%Z)) (remapped cfg pU eps j n) (get n (pU j))) /\
  (- (1) <= eps <= 0 ->
   between (get n (pU j)) (remapped cfg pU eps j n) (get n (pU (j + 1)%Z))).
Proof. apply second_order_remap_between_aux. Qed.

Lemma second_order_remap_between_witness :
  between (get F_d (step_pencil (8 - 1)%Z))
          (remapped cfg_second step_pencil (1 # 2) 8 F_d)
          (get F_d (step_pencil 8)) /\
  between (get F_d (step_pencil 7))
          (remapped cfg_second step_pencil (- (1 # 2)) 7 F_d)
          (get F_d (step_pencil (7 + 1)%Z)).
Proof.
  split.
  - apply (proj1 (second_order_remap_between cfg_second step_pencil (1 # 2) 8 F_d
                    eq_refl)).
    split; discriminate.
  - apply (proj2 (second_order_remap_between cfg_second step_pencil (- (1 # 2)) 7 F_d
                    eq_refl)).
    split; discriminate.
Defined.

(** ** The exchange, end to end *)

(** The loop rule with an invariant indexed by the pass about to run. *)
Lemma for_loop_rule {S : Type} (I : Z -> S -> Prop) (body : Z -> S -> S) (n : nat) :
  forall (i : Z) (st : S),
    I i st ->
    (forall j s, (i <= j < i + Z.of_nat n)%Z -> I j s -> I (j + 1)%Z (body j s)) ->
    I (i + Z.of_nat n)%Z (for_loop n i body st).
Proof.
  induction n as [| n IH]; intros i st H0 Hstep; cbn [for_loop].
  - replace (i + Z.of_nat 0)%Z with i by lia. assumption.
  - replace (i + Z.of_nat (Datatypes.S n))%Z with (i + 1 + Z.of_nat n)%Z by lia.
    apply IH.
    + apply Hstep; [lia | assumption].
    + intros j s0 Hj. apply Hstep. lia.
Qed.

Lemma for_range_rule {S : Type} (I : Z -> S -> Prop) (body : Z -> S -> S)
    (lo hi : Z) (st : S) :
  (lo <= hi + 1)%Z ->
  I lo st ->
  (forall j s, (lo <= j <= hi)%Z -> I j s -> I (j + 1)%Z (body j s)) ->
  I (hi + 1)%Z (for_range lo hi body st).
Proof.
  intros Hle H0 Hstep. unfold for_range.
  replace (hi + 1)%Z with (lo + Z.of_nat (Z.to_nat (hi + 1 - lo)))%Z at 1 by lia.
  apply for_loop_rule; [assumption |].
  intros j s0 Hj. apply Hstep. lia.
Qed.

Lemma upd2_same {A : Type} (a : Z -> Z -> A) (i j : Z) (v : A) : upd2 a i j v i j = v.
Proof. unfold upd2. rewrite !upd_same. reflexivity. Qed.

Lemma upd2_other {A : Type} (a : Z -> Z -> A) (i j i' j' : Z) (v : A) :
  ~ (i' = i /\ j' = j) -> upd2 a i j v i' j' = a i' j'.
Proof.
  intros H. unfold upd2, upd.
  destruct (Z.eq_dec i' i) as [-> | Hi]; [| reflexivity].
  destruct (Z.eq_dec j' j) as [-> | Hj]; [| reflexivity].
  exfalso. apply H. split; reflexivity.
Qed.

Lemma upd3_same {A : Type} (a : Z -> Z -> Z -> A) (k j i : Z) (v : A) :
  upd3 a k j i v k j i = v.
Proof. unfold upd3. rewrite upd_same. apply upd2_same. Qed.

Lemma wrap_j_interior (pG : Grid) (j : Z) :
  Nx2 pG = (je pG - js pG + 1)%Z -> (js pG <= j <= je pG)%Z -> wrap_j pG j = j.
Proof. intros HN Hj. unfold wrap_j. rewrite Z.mod_small by lia. lia. Qed.

Lemma wrap_j_period (pG : Grid) (j : Z) :
  (0 < Nx2 pG)%Z -> wrap_j pG (j + Nx2 pG) = wrap_j pG j.
Proof.
  intros HN. unfold wrap_j. f_equal.
  replace (j + Nx2 pG - js pG)%Z with (j - js pG + 1 * Nx2 pG)%Z by lia.
  apply Z.mod_add. lia.
Qed.

Lemma wrap_j_below (pG : Grid) (j : Z) :
  Nx2 pG = (je pG - js pG + 1)%Z -> (1 <= j <= Nx2 pG)%Z ->
  wrap_j pG (js pG - j) = (je pG + 1 - j)%Z.
Proof.
  intros HN Hj. unfold wrap_j.
  replace (js pG - j - js pG)%Z with (Nx2 pG - j + (-1) * Nx2 pG)%Z by lia.
  rewrite Z.mod_add by lia.
  destruct (Z.eq_dec j (Nx2 pG)) as [-> | Hne].
  - rewrite Z.sub_diag. rewrite Z.mod_0_l by lia. lia.
  - rewrite Z.mod_small by lia. lia.
Qed.

Lemma wrap_j_above (pG : Grid) (j : Z) :
  Nx2 pG = (je pG - js pG + 1)%Z -> (1 <= j <= Nx2 pG)%Z ->
  wrap_j pG (je pG + j) = (js pG + j - 1)%Z.
Proof.
  intros HN Hj. unfold wrap_j.
  replace (je pG + j - js pG)%Z with (j - 1 + 1 * Nx2 pG)%Z by lia.
  rewrite Z.mod_add by lia. rewrite Z.mod_small by lia. lia.
Qed.

Section Periodic.
Variable cfg : Config.
Variable pG : Grid.
Hypothesis HNx2 : Nx2 pG = (je pG - js pG + 1)%Z.
Hypothesis Hdepth : (nghost cfg <= Nx2 pG)%Z.

(** One row of the padding loop. *)
Lemma periodic_row (i : Z) (R0 R : Z -> Z -> Gas) :
  (forall c, R i c = R0 i c) ->
  let R' :=
    for_range 1 (nghost cfg) (fun j R =>
      let R := upd2 R i (js pG - j)%Z (R i (je pG + 1 - j)%Z) in
      upd2 R i (je pG + j)%Z (R i (js pG + j - 1)%Z)) R in
  (forall i' c, i' <> i -> R' i' c = R i' c) /\
  (forall c, (js pG - nghost cfg <= c <= je pG + nghost cfg)%Z ->
             R' i c = R0 i (wrap_j pG c)) /\
  (forall c, ~ (js pG - nghost cfg <= c <= je pG + nghost cfg)%Z -> R' i c = R0 i c).
Proof.
  intros HR R'.
  destruct (Z_lt_le_dec (nghost cfg) 1) as [Hng | Hng].
  { (* no pass *)
    assert (HR' : R' = R).
    { unfold R', for_range. replace (Z.to_nat (nghost cfg + 1 - 1)) with 0%nat by lia.
      reflexivity. }
    rewrite HR'. repeat split.
    - intros c Hc. rewrite HR. rewrite wrap_j_interior by lia. reflexivity.
    - intros c _. apply HR. }
  pose (I := fun (j : Z) (s : Z -> Z -> Gas) =>
               (forall i' c, i' <> i -> s i' c = R i' c) /\
               (forall c, (js pG - (j - 1) <= c <= je pG + (j - 1))%Z ->
                          s i c = R0 i (wrap_j pG c)) /\
               (forall c, ~ (js pG - (j - 1) <= c <= je pG + (j - 1))%Z ->
                          s i c = R0 i c)).
  assert (Hfin : I (nghost cfg + 1)%Z R').
  { unfold R'. apply (for_range_rule I); [lia | |].
    - unfold I. repeat split.
      + intros c Hc. rewrite HR. rewrite wrap_j_interior by lia. reflexivity.
      + intros c _. apply HR.
    - intros j s Hj (Hrow & Hin & Hout). unfold I. cbv zeta. repeat split.
      + intros i' c Hi'. rewrite !upd2_other by (intros [? ?]; contradiction).
        apply Hrow. assumption.
      + intros c Hc.
        destruct (Z.eq_dec c (je pG + j)) as [-> | Hne1].
        * rewrite upd2_same. rewrite upd2_other by (intros [_ ?]; lia).
          rewrite Hin by lia. rewrite wrap_j_interior by lia.
          rewrite wrap_j_above by lia. reflexivity.
        * rewrite upd2_other by (intros [_ ?]; lia).
          destruct (Z.eq_dec c (js pG - j)) as [-> | Hne2].
          -- rewrite upd2_same. rewrite Hin by lia. rewrite wrap_j_interior by lia.
             rewrite wrap_j_below by lia. reflexivity.
          -- rewrite upd2_other by (intros [_ ?]; lia). apply Hin. lia.
      + intros c Hc.
        rewrite !upd2_other by (intros [_ ?]; lia). apply Hout. lia. }
  destruct Hfin as (H1 & H2 & H3). repeat split.
  - exact H1.
  - intros c Hc. apply H2. lia.
  - intros c Hc. apply H3. lia.
Qed.

(** The padding makes every ghost layer periodic over the padded range and
    leaves the rest of [RemapGas] alone. *)
Lemma periodic_spec (R : Z -> Z -> Gas) (i c : Z) :
  (0 <= i <= nghost cfg - 1)%Z ->
  (js pG - nghost cfg <= c <= je pG + nghost cfg)%Z ->
  periodic cfg pG R i c = R i (wrap_j pG c).
Proof.
  intros Hi Hc. unfold periodic.
  pose (I := fun (i0 : Z) (s : Z -> Z -> Gas) =>
               (forall i' c', (i0 <= i')%Z -> s i' c' = R i' c') /\
               (forall i' c', (0 <= i' < i0)%Z ->
                              (js pG - nghost cfg <= c' <= je pG + nghost cfg)%Z ->
                              s i' c' = R i' (wrap_j pG c'))).
  assert (Hfin : I (nghost cfg - 1 + 1)%Z
                   (for_range 0 (nghost cfg - 1) (fun i R =>
                      for_range 1 (nghost cfg) (fun j R =>
                        let R := upd2 R i (js pG - j)%Z (R i (je pG + 1 - j)%Z) in
                        upd2 R i (je pG + j)%Z (R i (js pG + j - 1)%Z)) R) R)).
  { apply (for_range_rule I); [lia | |].
    - unfold I. split; [reflexivity | intros; lia].
    - intros i0 s Hi0 (Hrest & Hdone).
      destruct (periodic_row i0 R s) as (P1 & P2 & P3).
      { intros c'. apply Hrest. lia. }
      unfold I. split.
      + intros i' c' Hi'. rewrite P1 by lia. apply Hrest. lia.
      + intros i' c' Hi' Hc'.
        destruct (Z.eq_dec i' i0) as [-> | Hne].
        * apply P2. assumption.
        * rewrite P1 by assumption. apply Hdone; [lia | assumption]. }
  destruct Hfin as [_ Hdone]. apply Hdone; [lia | assumption].
Qed.
End Periodic.

(** *** Members of the cells the loops handle *)

Lemma written_fields_cases (cfg : Config) (f : Field) :
  In f (written_fields cfg) ->
  f = F_d \/ f = F_M1 \/ f = F_M2 \/ f = F_M3 \/ (f = F_E /\ ADIABATIC cfg = true).
Proof.
  unfold written_fields. intros H. apply in_app_or in H. destruct H as [H | H].
  - simpl in H. intuition auto.
  - destruct (ADIABATIC cfg); simpl in H; intuition auto.
Qed.

Lemma written_fields_are_variables (cfg : Config) (f : Field) :
  In f (written_fields cfg) -> In f (fields cfg).
Proof.
  intros H. unfold fields.
  destruct (written_fields_cases cfg f H) as [-> | [-> | [-> | [-> | [-> Ha]]]]];
    try (simpl; tauto).
  rewrite Ha. simpl. tauto.
Qed.

(** The members a gather assigns do not depend on what [RemapGas] held. *)
Lemma gather_ix1_cell_dst (cfg : Config) (gl : Globals) (src dst dst' : Gas) (f : Field) :
  In f (written_fields cfg) ->
  get f (gather_ix1_cell cfg gl src dst) = get f (gather_ix1_cell cfg gl src dst').
Proof.
  intros H.
  destruct (gather_ix1_cell_members cfg gl src dst) as (A0 & A1 & A2 & A3 & A4).
  destruct (gather_ix1_cell_members cfg gl src dst') as (B0 & B1 & B2 & B3 & B4).
  destruct (written_fields_cases cfg f H) as [-> | [-> | [-> | [-> | [-> Ha]]]]];
    cbn [get]; try congruence.
  rewrite (A4 Ha), (B4 Ha). reflexivity.
Qed.

Lemma gather_ox1_cell_dst (cfg : Config) (gl : Globals) (src dst dst' : Gas) (f : Field) :
  In f (written_fields cfg) ->
  get f (gather_ox1_cell cfg gl src dst) = get f (gather_ox1_cell cfg gl src dst').
Proof.
  intros H.
  destruct (gather_ox1_cell_members cfg gl src dst) as (A0 & A1 & A2 & A3 & A4).
  destruct (gather_ox1_cell_members cfg gl src dst') as (B0 & B1 & B2 & B3 & B4).
  destruct (written_fields_cases cfg f H) as [-> | [-> | [-> | [-> | [-> Ha]]]]];
    cbn [get]; try congruence.
  rewrite (A4 Ha), (B4 Ha). reflexivity.
Qed.

(** What the write-backs store in the members they assign. *)
Lemma write_ix1_cell_get (cfg : Config) (R F : Z -> Gas) (j : Z) (c : Gas) (f : Field) :
  In f (written_fields cfg) ->
  get f (write_ix1_cell cfg R F j c)
  = get f (R j) - (get f (F (j + 1)%Z) - get f (F j)).
Proof.
  intros H. unfold write_ix1_cell. cbv zeta.
  destruct (written_fields_cases cfg f H) as [-> | [-> | [-> | [-> | [-> Ha]]]]];
    try rewrite Ha; destruct (ADIABATIC cfg); reflexivity.
Qed.

Lemma write_ox1_cell_get (cfg : Config) (R F : Z -> Gas) (j : Z) (c : Gas) (f : Field) :
  In f (written_fields cfg) ->
  get f (write_ox1_cell cfg R F j c)
  = get f (R j) - (get f (F (j + 1)%Z) - get f (F j)).
Proof.
  intros H. unfold write_ox1_cell. cbv zeta.
  rewrite scalar_loop_other
    by (intros n0 Hn0; destruct (written_fields_cases cfg f H)
                         as [-> | [-> | [-> | [-> | [-> _]]]]]; discriminate).
  destruct (written_fields_cases cfg f H) as [-> | [-> | [-> | [-> | [-> Ha]]]]];
    try rewrite Ha; destruct (ADIABATIC cfg); reflexivity.
Qed.

(** [remapped] reads member [n] of the cells [j - halo .. j + halo] only. *)
Lemma remapped_local (cfg : Config) (pU pU' : Z -> Gas) (eps : Real) (j : Z) (n : Field) :
  (forall c : Z, (j - halo cfg <= c <= j + halo cfg)%Z -> get n (pU c) = get n (pU' c)) ->
  remapped cfg pU eps j n = remapped cfg pU' eps j n.
Proof.
  intros H. unfold remapped.
  assert (Hh : (2 <= halo cfg)%Z) by (unfold halo; destruct (order cfg); lia).
  rewrite (H j) by lia.
  rewrite (remap_flux_local cfg pU pU' eps (j + 1) 0 n).
  - rewrite (remap_flux_local cfg pU pU' eps j 0 n).
    + rewrite !Z.add_0_r. reflexivity.
    + intros c Hc. rewrite Z.add_0_r. apply H. lia.
  - intros c Hc. rewrite Z.add_0_r. apply H. lia.
Qed.

(** *** The remap of one slice *)

Section Layers.
Variable cfg : Config.
Variable pG : Grid.
Variable write : (Z -> Gas) -> (Z -> Gas) -> Z -> Gas -> Gas.
Variable W : list Field.
Hypothesis W_variables : forall f, In f W -> In f (fields cfg).
Hypothesis write_get :
  forall (R F : Z -> Gas) (j : Z) (c : Gas) (f : Field),
    In f W -> get f (write R F j c) = get f (R j) - (get f (F (j + 1)%Z) - get f (F j)).

(** After the remap of slice [k], ghost cell [(k, j, i0+i)] holds, in every
    member the write-back assigns, the remapped value of row [j] of layer
    [i] of [RemapGas]. *)
Lemma remap_layers_at (eps : Real) (i0 k : Z) (m : Mem) (i j : Z) (f : Field) :
  (0 <= i <= nghost cfg - 1)%Z -> (js pG <= j <= je pG)%Z -> In f W ->
  get f (U (remap_layers cfg pG write eps i0 k m) k j (i0 + i)%Z)
  = remapped cfg (RemapGas m i) eps j f.
Proof.
  intros Hi Hj Hf. unfold remap_layers.
  pose (done := fun (s : Mem) (i' j' : Z) =>
                  get f (U s k j' (i0 + i')%Z) = remapped cfg (RemapGas m i') eps j' f).
  pose (I := fun (i1 : Z) (s : Mem) =>
               RemapGas s = RemapGas m /\
               (forall i' j', (0 <= i' < i1)%Z -> (js pG <= j' <= je pG)%Z -> done s i' j')).
  assert (Hfin : I (nghost cfg - 1 + 1)%Z
            (for_range 0 (nghost cfg - 1) (fun i m =>
               let '(F, Uh) :=
                 CompRemapFlux cfg (RemapGas m i) eps (js pG) (je pG + 1)%Z (Flx m) (Uhalf m) in
               let m := mkMem (U m) (RemapGas m) F Uh in
               for_range (js pG) (je pG) (fun j m =>
                 mkMem (upd3 (U m) k j (i0 + i)%Z
                          (write (RemapGas m i) (Flx m) j (U m k j (i0 + i)%Z)))
                       (RemapGas m) (Flx m) (Uhalf m)) m) m)).
  { apply (for_range_rule I); [lia | |].
    - unfold I. split; [reflexivity | intros; lia].
    - intros i1 s Hi1 (HR & Hdone).
      destruct (CompRemapFlux cfg (RemapGas s i1) eps (js pG) (je pG + 1) (Flx s) (Uhalf s))
        as [F Uh] eqn:EF.
      assert (HF : forall k' , (js pG <= k' <= je pG + 1)%Z ->
                     get f (F k') = remap_flux cfg (RemapGas m i1) eps k' f).
      { intros k' Hk'. replace F with (fst (F, Uh)) by reflexivity. rewrite <- EF.
        rewrite HR. apply CompRemapFlux_closed_form; [lia | apply W_variables; assumption]. }
      pose (J := fun (j1 : Z) (s' : Mem) =>
                   RemapGas s' = RemapGas m /\ Flx s' = F /\
                   (forall i' j', (0 <= i' < i1)%Z -> (js pG <= j' <= je pG)%Z ->
                                  done s' i' j') /\
                   (forall j', (js pG <= j' < j1)%Z -> done s' i1 j')).
      destruct (Z_lt_le_dec (je pG + 1) (js pG)) as [Hempty | Hne].
      { exfalso. lia. }
      assert (HJ : J (je pG + 1)%Z
                (for_range (js pG) (je pG) (fun j m =>
                   mkMem (upd3 (U m) k j (i0 + i1)%Z
                            (write (RemapGas m i1) (Flx m) j (U m k j (i0 + i1)%Z)))
                         (RemapGas m) (Flx m) (Uhalf m))
                   (mkMem (U s) (RemapGas s) F Uh))).
      { apply (for_range_rule J); [lia | |].
        - unfold J. cbn [RemapGas Flx U]. repeat split; try assumption.
          intros; lia.
        - intros j1 s' Hj1 (HR' & HF' & Hprev & Hrow). unfold J. cbn [RemapGas Flx U].
          repeat split; try assumption.
          + intros i' j' Hi' Hj'. unfold done. cbn [U].
            rewrite upd3_other by (intros (_ & _ & ?); lia).
            apply Hprev; assumption.
          + intros j' Hj'. unfold done. cbn [U].
            destruct (Z.eq_dec j' j1) as [-> | Hne'].
            * rewrite upd3_same. rewrite write_get by assumption.
              rewrite HR', HF'. unfold remapped.
              rewrite !HF by lia. reflexivity.
            * rewrite upd3_other by (intros (_ & ? & _); lia).
              apply Hrow. lia. }
      destruct HJ as (HR' & _ & Hprev & Hrow).
      unfold I. split; [exact HR' |].
      intros i' j' Hi' Hj'.
      destruct (Z.eq_dec i' i1) as [-> | Hne'].
      + apply Hrow. lia.
      + apply Hprev; [lia | assumption]. }
  destruct Hfin as [_ Hdone]. apply Hdone; [lia | assumption].
Qed.
End Layers.

(** *** Both faces *)

Section Exchange.
Variable cfg : Config.
Variable gl : Globals.
Variable pG : Grid.
Hypothesis HNx2 : Nx2 pG = (je pG - js pG + 1)%Z.
Hypothesis Hdepth : (nghost cfg <= Nx2 pG)%Z.
Hypothesis Hhalo : (halo cfg <= nghost cfg)%Z.

Lemma wrap_j_range (c : Z) : (js pG <= wrap_j pG c <= je pG)%Z.
Proof.
  assert (Hh : (2 <= halo cfg)%Z) by (unfold halo; destruct (order cfg); lia).
  unfold wrap_j. pose proof (Z.mod_pos_bound (c - js pG) (Nx2 pG) ltac:(lia)). lia.
Qed.

(** After gather and padding, layer [i] of [RemapGas] is the closed-form
    pencil in every member the write-backs read. *)
Lemma row_is_pencil_ix1 (j_offset k : Z) (m s : Mem) (i c : Z) (f : Field) :
  (forall j' i', U s k j' i' = U m k j' i') ->
  (0 <= i <= nghost cfg - 1)%Z ->
  (js pG - nghost cfg <= c <= je pG + nghost cfg)%Z ->
  In f (written_fields cfg) ->
  get f (periodic cfg pG (RemapGas (gather_ix1 cfg gl pG j_offset k s)) i c)
  = get f (pencil_ix1 cfg gl pG m j_offset k i c).
Proof.
  intros HU Hi Hc Hf.
  rewrite (periodic_spec cfg pG HNx2 Hdepth) by assumption.
  destruct (gather_ix1_at cfg gl pG j_offset k s i (wrap_j pG c) Hi (wrap_j_range c))
    as [dst ->].
  unfold pencil_ix1, src_ix1. cbv zeta. rewrite HU.
  apply gather_ix1_cell_dst. assumption.
Qed.

Lemma row_is_pencil_ox1 (j_offset k : Z) (m s : Mem) (i c : Z) (f : Field) :
  (forall j' i', U s k j' i' = U m k j' i') ->
  (0 <= i <= nghost cfg - 1)%Z ->
  (js pG - nghost cfg <= c <= je pG + nghost cfg)%Z ->
  In f (written_fields cfg) ->
  get f (periodic cfg pG (RemapGas (gather_ox1 cfg gl pG j_offset k s)) i c)
  = get f (pencil_ox1 cfg gl pG m j_offset k i c).
Proof.
  intros HU Hi Hc Hf.
  rewrite (periodic_spec cfg pG HNx2 Hdepth) by assumption.
  destruct (gather_ox1_at cfg gl pG j_offset k s i (wrap_j pG c) Hi (wrap_j_range c))
    as [dst ->].
  unfold pencil_ox1, src_ox1. cbv zeta. rewrite HU.
  apply gather_ox1_cell_dst. assumption.
Qed.

(** The inbound phase: every inbound ghost cell holds the remapped value of
    the closed-form pencil, computed from the memory at entry. *)
Lemma remap_ix1_at (off : ShearOffset) (m : Mem) (k j i : Z) (f : Field) :
  (ks pG <= k <= ke pG)%Z -> (js pG <= j <= je pG)%Z ->
  (0 <= i <= nghost cfg - 1)%Z -> In f (written_fields cfg) ->
  get f (U (remap_ix1 cfg gl pG off m) k j (is_ pG - nghost cfg + i)%Z)
  = remapped cfg (pencil_ix1 cfg gl pG m (j_offset off) k i) (epsi off) j f.
Proof.
  intros Hk Hj Hi Hf. unfold remap_ix1.
  pose (I := fun (k1 : Z) (s : Mem) =>
               (forall k' j' i', (k1 <= k')%Z -> U s k' j' i' = U m k' j' i') /\
               (forall k' j' i' f',
                   (ks pG <= k' < k1)%Z -> (js pG <= j' <= je pG)%Z ->
                   (0 <= i' <= nghost cfg - 1)%Z -> In f' (written_fields cfg) ->
                   get f' (U s k' j' (is_ pG - nghost cfg + i')%Z)
                   = remapped cfg (pencil_ix1 cfg gl pG m (j_offset off) k' i')
                       (epsi off) j' f')).
  assert (Hfin : I (ke pG + 1)%Z
            (for_range (ks pG) (ke pG) (fun k m =>
               let m := gather_ix1 cfg gl pG (j_offset off) k m in
               let m := mkMem (U m) (periodic cfg pG (RemapGas m)) (Flx m) (Uhalf m) in
               remap_layers cfg pG (write_ix1_cell cfg) (epsi off)
                 (is_ pG - nghost cfg)%Z k m) m)).
  { apply (for_range_rule I); [lia | |].
    - unfold I. split; [reflexivity | intros; lia].
    - intros k1 s Hk1 (Hrest & Hdone). cbv zeta. unfold I. split.
      + intros k' j' i' Hk'.
        rewrite remap_layers_frame by (intros (? & _); lia).
        cbn [U]. rewrite gather_ix1_U. apply Hrest. lia.
      + intros k' j' i' f' Hk' Hj' Hi' Hf'.
        destruct (Z.eq_dec k' k1) as [-> | Hne].
        * rewrite (remap_layers_at cfg pG (write_ix1_cell cfg) (written_fields cfg)
                     (written_fields_are_variables cfg) (write_ix1_cell_get cfg))
            by assumption.
          cbn [RemapGas]. apply remapped_local. intros c Hc.
          apply row_is_pencil_ix1; try assumption; [| lia].
          intros j2 i2. apply Hrest. lia.
        * rewrite remap_layers_frame by (intros (? & _); lia).
          cbn [U]. rewrite gather_ix1_U. apply Hdone; [lia | assumption ..]. }
  destruct Hfin as [_ Hdone]. apply Hdone; [lia | assumption ..].
Qed.

Lemma remap_ox1_at (off : ShearOffset) (m : Mem) (k j i : Z) (f : Field) :
  (ks pG <= k <= ke pG)%Z -> (js pG <= j <= je pG)%Z ->
  (0 <= i <= nghost cfg - 1)%Z -> In f (written_fields cfg) ->
  get f (U (remap_ox1 cfg gl pG off m) k j (ie pG + 1 + i)%Z)
  = remapped cfg (pencil_ox1 cfg gl pG m (j_offset off) k i) (epso off) j f.
Proof.
  intros Hk Hj Hi Hf. unfold remap_ox1.
  pose (I := fun (k1 : Z) (s : Mem) =>
               (forall k' j' i', (k1 <= k')%Z -> U s k' j' i' = U m k' j' i') /\
               (forall k' j' i' f',
                   (ks pG <= k' < k1)%Z -> (js pG <= j' <= je pG)%Z ->
                   (0 <= i' <= nghost cfg - 1)%Z -> In f' (written_fields cfg) ->
                   get f' (U s k' j' (ie pG + 1 + i')%Z)
                   = remapped cfg (pencil_ox1 cfg gl pG m (j_offset off) k' i')
                       (epso off) j' f')).
  assert (Hfin : I (ke pG + 1)%Z
            (for_range (ks pG) (ke pG) (fun k m =>
               let m := gather_ox1 cfg gl pG (j_offset off) k m in
               let m := mkMem (U m) (periodic cfg pG (RemapGas m)) (Flx m) (Uhalf m) in
               remap_layers cfg pG (write_ox1_cell cfg) (epso off)
                 (ie pG + 1)%Z k m) m)).
  { apply (for_range_rule I); [lia | |].
    - unfold I. split; [reflexivity | intros; lia].
    - intros k1 s Hk1 (Hrest & Hdone). cbv zeta. unfold I. split.
      + intros k' j' i' Hk'.
        rewrite remap_layers_frame by (intros (? & _); lia).
        cbn [U]. rewrite gather_ox1_U. apply Hrest. lia.
      + intros k' j' i' f' Hk' Hj' Hi' Hf'.
        destruct (Z.eq_dec k' k1) as [-> | Hne].
        * rewrite (remap_layers_at cfg pG (write_ox1_cell cfg) (written_fields cfg)
                     (written_fields_are_variables cfg) (write_ox1_cell_get cfg))
            by assumption.
          cbn [RemapGas]. apply remapped_local. intros c Hc.
          apply row_is_pencil_ox1; try assumption; [| lia].
          intros j2 i2. apply Hrest. lia.
        * rewrite remap_layers_frame by (intros (? & _); lia).
          cbn [U]. rewrite gather_ox1_U. apply Hdone; [lia | assumption ..]. }
  destruct Hfin as [_ Hdone]. apply Hdone; [lia | assumption ..].
Qed.
End Exchange.

(** Both faces after the two phases. *)
Lemma shear_ix1_ox1_ghost_cells_aux (cfg : Config) (gl : Globals) (pG : Grid)
    (var_flag : Z) (m : Mem) (k j i : Z) (f : Field) :
  var_flag <> 1%Z ->
  Nx2 pG = (je pG - js pG + 1)%Z ->
  (halo cfg <= nghost cfg <= Nx2 pG)%Z ->
  (is_ pG <= ie pG + 1)%Z ->
  (ks pG <= k <= ke pG)%Z -> (js pG <= j <= je pG)%Z ->
  (0 <= i <= nghost cfg - 1)%Z -> In f (written_fields cfg) ->
  get f (U (shear_ix1_ox1 cfg gl pG var_flag m) k j (is_ pG - nghost cfg + i)%Z)
  = remapped cfg
      (pencil_ix1 cfg gl pG m
         (j_offset (shear_offset (Omega gl) (Lx gl) (Ly gl) (time pG) (dx2 pG))) k i)
      (epsi (shear_offset (Omega gl) (Lx gl) (Ly gl) (time pG) (dx2 pG))) j f /\
  get f (U (shear_ix1_ox1 cfg gl pG var_flag m) k j (ie pG + 1 + i)%Z)
  = remapped cfg
      (pencil_ox1 cfg gl pG m
         (j_offset (shear_offset (Omega gl) (Lx gl) (Ly gl) (time pG) (dx2 pG))) k i)
      (epso (shear_offset (Omega gl) (Lx gl) (Ly gl) (time pG) (dx2 pG))) j f.
Proof.
  intros Hvf HN [Hhalo Hdepth] His Hk Hj Hi Hf. unfold shear_ix1_ox1.
  destruct (Z.eqb_spec var_flag 1) as [-> | _]; [contradiction |]. cbv zeta.
  set (off := shear_offset (Omega gl) (Lx gl) (Ly gl) (time pG) (dx2 pG)).
  split.
  - rewrite remap_ox1_frame by (intros (_ & _ & ?); lia).
    apply remap_ix1_at; assumption.
  - rewrite (remap_ox1_at cfg gl pG HN Hdepth Hhalo) by assumption.
    apply remapped_local. intros c Hc.
    unfold pencil_ox1, src_ox1. cbv zeta.
    rewrite remap_ix1_frame by (intros (_ & _ & ?); lia). reflexivity.
Qed.

(** Every x1 ghost cell after the two remap phases (lines 353-476), in
    closed form, for whatever offset the routine holds when it enters them.
    With [j_offset] between 0 and [Nx2], so that the gather stays inside
    rows [js .. je], the inbound ghost cell [(k, j, is-nghost+i)] and the
    outbound ghost cell [(k, j, ie+1+i)] hold, in density, momenta and
    energy, the remapped value of the pencil gathered [j_offset] rows away
    on the opposite face and padded periodically, shifted by [epsi] and by
    [epso]; the pencil is taken from the memory at entry, so the scratch
    arrays and the order of the two phases leave no trace. *)
Theorem exchange_phases_ghost_cells (cfg : Config) (gl : Globals) (pG : Grid)
    (off : ShearOffset) (m : Mem) (k j i : Z) (f : Field) :
  Nx2 pG = (je pG - js pG + 1)%Z ->
  (halo cfg <= nghost cfg <= Nx2 pG)%Z ->
  (is_ pG <= ie pG + 1)%Z ->
  (0 <= j_offset off <= Nx2 pG)%Z ->
  (ks pG <= k <= ke pG)%Z -> (js pG <= j <= je pG)%Z ->
  (0 <= i <= nghost cfg - 1)%Z -> In f (written_fields cfg) ->
  get f (U (remap_ox1 cfg gl pG off (remap_ix1 cfg gl pG off m)) k j
           (is_ pG - nghost cfg + i)%Z)
  = remapped cfg (pencil_ix1 cfg gl pG m (j_offset off) k i) (epsi off) j f /\
  get f (U (remap_ox1 cfg gl pG off (remap_ix1 cfg gl pG off m)) k j
           (ie pG + 1 + i)%Z)
  = remapped cfg (pencil_ox1 cfg gl pG m (j_offset off) k i) (epso off) j f.
Proof.
  intros HN [Hhalo Hdepth] His Hoff Hk Hj Hi Hf. split.
  - rewrite remap_ox1_frame by (intros (_ & _ & ?); lia).
    apply remap_ix1_at; assumption.
  - rewrite (remap_ox1_at cfg gl pG HN Hdepth Hhalo) by assumption.
    apply remapped_local. intros c Hc.
    unfold pencil_ox1, src_ox1. cbv zeta.
    rewrite remap_ix1_frame by (intros (_ & _ & ?); lia). reflexivity.
Qed.

Lemma exchange_phases_ghost_cells_witness :
  get F_d (U (remap_ox1 cfg_second box8 grid8 off8
                (remap_ix1 cfg_second box8 grid8 off8 mem8)) 0%Z 5%Z
             (is_ grid8 - nghost cfg_second + 3)%Z)
  = remapped cfg_second (pencil_ix1 cfg_second box8 grid8 mem8 (j_offset off8) 0 3)
      (epsi off8) 5 F_d /\
  get F_d (U (remap_ox1 cfg_second box8 grid8 off8
                (remap_ix1 cfg_second box8 grid8 off8 mem8)) 0%Z 5%Z
             (ie grid8 + 1 + 3)%Z)
  = remapped cfg_second (pencil_ox1 cfg_second box8 grid8 mem8 (j_offset off8) 0 3)
      (epso off8) 5 F_d.
Proof.
  apply (exchange_phases_ghost_cells cfg_second box8 grid8 off8 mem8 0 5 3 F_d).
  - reflexivity.
  - cbv. split; discriminate.
  - cbv. discriminate.
  - cbv. split; discriminate.
  - cbv. split; discriminate.
  - cbv. split; discriminate.
  - cbv. split; discriminate.
  - simpl. tauto.
Defined.

(** *** Totals over a ghost column *)

Lemma sum_loop_app (n1 n2 : nat) (j : Z) (g : Z -> Real) :
  sum_loop (n1 + n2) j g == sum_loop n1 j g + sum_loop n2 (j + Z.of_nat n1)%Z g.
Proof.
  revert j. induction n1 as [| n1 IH]; intros j.
  - cbn [sum_loop Nat.add]. replace (j + Z.of_nat 0)%Z with j by lia.
    generalize (sum_loop n2 j g). intros q. change Real with Q in q. ring.
  - cbn [sum_loop Nat.add]. rewrite IH.
    replace (j + 1 + Z.of_nat n1)%Z with (j + Z.of_nat (Datatypes.S n1))%Z by lia. ring.
Qed.

Lemma sum_loop_shift (n : nat) (j c : Z) (g : Z -> Real) :
  sum_loop n j (fun x => g (x + c)%Z) = sum_loop n (j + c)%Z g.
Proof.
  revert j. induction n as [| n IH]; intros j; cbn [sum_loop].
  - reflexivity.
  - rewrite IH. replace (j + 1 + c)%Z with (j + c + 1)%Z by lia. reflexivity.
Qed.

Lemma sum_range_split (lo mid hi : Z) (g : Z -> Real) :
  (lo - 1 <= mid <= hi)%Z ->
  sum_range lo hi g == sum_range lo mid g + sum_range (mid + 1) hi g.
Proof.
  intros H. unfold sum_range.
  replace (Z.to_nat (hi + 1 - lo))
    with (Z.to_nat (mid + 1 - lo) + Z.to_nat (hi + 1 - (mid + 1)))%nat by lia.
  rewrite sum_loop_app.
  replace (lo + Z.of_nat (Z.to_nat (mid + 1 - lo)))%Z with (mid + 1)%Z by lia.
  reflexivity.
Qed.

Lemma sum_range_ext (lo hi : Z) (g h : Z -> Real) :
  (forall j, (lo <= j <= hi)%Z -> g j == h j) -> sum_range lo hi g == sum_range lo hi h.
Proof.
  intros H. unfold sum_range. apply sum_loop_ext. intros j Hj. apply H. lia.
Qed.

Lemma sum_range_shift (lo hi c : Z) (g : Z -> Real) :
  sum_range lo hi (fun x => g (x + c)%Z) = sum_range (lo + c) (hi + c) g.
Proof.
  unfold sum_range. rewrite sum_loop_shift.
  replace (hi + c + 1 - (lo + c))%Z with (hi + 1 - lo)%Z by lia. reflexivity.
Qed.

(** The gathers read the rows of the source column in a cyclic order, so a
    total over the rows is the total of the column. *)
Lemma sum_cyclic_ix1 (js je Nx2 off : Z) (g : Z -> Real) :
  Nx2 = (je - js + 1)%Z -> (0 <= off <= Nx2)%Z ->
  sum_range js je (fun j => g (j_remap_ix1 js Nx2 j off)) == sum_range js je g.
Proof.
  intros HN Hoff.
  rewrite (sum_range_split js (js + off - 1) je) by lia.
  rewrite (sum_range_ext js (js + off - 1) _ (fun j => g (j + (Nx2 - off))%Z)).
  2:{ intros j Hj. unfold j_remap_ix1. cbv zeta.
      destruct (Z.ltb_spec (j - off) js); [| lia].
      replace (j - off + Nx2)%Z with (j + (Nx2 - off))%Z by lia. reflexivity. }
  rewrite (sum_range_ext (js + off - 1 + 1) je _ (fun j => g (j + (- off))%Z)).
  2:{ intros j Hj. unfold j_remap_ix1. cbv zeta.
      destruct (Z.ltb_spec (j - off) js); [lia |].
      replace (j - off)%Z with (j + - off)%Z by lia. reflexivity. }
  rewrite !sum_range_shift.
  rewrite (sum_range_split js (je - off) je g) by lia.
  replace (js + (Nx2 - off))%Z with (je - off + 1)%Z by lia.
  replace (js + off - 1 + (Nx2 - off))%Z with je by lia.
  replace (js + off - 1 + 1 + - off)%Z with js by lia.
  replace (je + - off)%Z with (je - off)%Z by lia.
  ring.
Qed.

Lemma sum_cyclic_ox1 (js je Nx2 off : Z) (g : Z -> Real) :
  Nx2 = (je - js + 1)%Z -> (0 <= off <= Nx2)%Z ->
  sum_range js je (fun j => g (j_remap_ox1 je Nx2 j off)) == sum_range js je g.
Proof.
  intros HN Hoff.
  rewrite (sum_range_split js (je - off) je) by lia.
  rewrite (sum_range_ext js (je - off) _ (fun j => g (j + off)%Z)).
  2:{ intros j Hj. unfold j_remap_ox1. cbv zeta.
      destruct (Z.gtb_spec (j + off) je); [lia | reflexivity]. }
  rewrite (sum_range_ext (je - off + 1) je _ (fun j => g (j + (off - Nx2))%Z)).
  2:{ intros j Hj. unfold j_remap_ox1. cbv zeta.
      destruct (Z.gtb_spec (j + off) je); [| lia].
      replace (j + off - Nx2)%Z with (j + (off - Nx2))%Z by lia. reflexivity. }
  rewrite !sum_range_shift.
  rewrite (sum_range_split js (js + off - 1) je g) by lia.
  replace (je - off + 1 + (off - Nx2))%Z with js by lia.
  replace (je + (off - Nx2))%Z with (js + off - 1)%Z by lia.
  replace (js + off - 1 + 1)%Z with (js + off)%Z by lia.
  replace (je - off + off)%Z with je by lia.
  ring.
Qed.

Lemma sum_range_plus_scaled (lo hi : Z) (g h : Z -> Real) (c : Real) :
  sum_range lo hi (fun j => g j + c * h j) == sum_range lo hi g + c * sum_range lo hi h.
Proof.
  unfold sum_range. generalize (Z.to_nat (hi + 1 - lo)) as n. intros n. revert lo.
  induction n as [| n IH]; intros lo; cbn [sum_loop].
  - change Real with Q in c. ring.
  - rewrite IH.
    generalize (sum_loop n (lo + 1) g) (sum_loop n (lo + 1) h) (g lo) (h lo).
    intros q1 q2 q3 q4. change Real with Q in *. ring.
Qed.

(** Over one period of a periodic pencil the remapped values add up to the
    gathered ones: the fluxes through the two ends of the range cancel. *)
Lemma remapped_total (cfg : Config) (P : Z -> Gas) (eps : Real) (js je : Z) (f : Field) :
  (js <= je + 1)%Z ->
  (forall c : Z, get f (P (c + (je - js + 1))%Z) = get f (P c)) ->
  sum_range js je (fun j => remapped cfg P eps j f)
  == sum_range js je (fun j => get f (P j)).
Proof.
  intros Hle Hper. unfold sum_range, remapped.
  rewrite (sum_loop_telescope _ js (fun j => get f (P j))
             (fun j => remap_flux cfg P eps j f)).
  replace (js + Z.of_nat (Z.to_nat (je + 1 - js)))%Z with (js + (je - js + 1))%Z by lia.
  rewrite <- (remap_flux_local cfg P P eps js (je - js + 1) f)
    by (intros c _; symmetry; apply Hper).
  generalize (sum_loop (Z.to_nat (je + 1 - js)) js (fun j => get f (P j))).
  generalize (remap_flux cfg P eps js f). intros q1 q2. change Real with Q in *. ring.
Qed.

Section Totals.
Variable cfg : Config.
Variable gl : Globals.
Variable pG : Grid.
Variable m : Mem.
Variable var_flag : Z.
Variable k i : Z.
Hypothesis Hflag : var_flag <> 1%Z.
Hypothesis HNx2 : Nx2 pG = (je pG - js pG + 1)%Z.
Hypothesis Hdepth : (halo cfg <= nghost cfg <= Nx2 pG)%Z.
Hypothesis Hgrid : (is_ pG <= ie pG + 1)%Z.
Hypothesis Hk : (ks pG <= k <= ke pG)%Z.
Hypothesis Hi : (0 <= i <= nghost cfg - 1)%Z.

Lemma Nx2_positive : (0 < Nx2 pG)%Z.
Proof.
  assert (Hh : (2 <= halo cfg)%Z) by (unfold halo; destruct (order cfg); lia). lia.
Qed.

(** The total of a written member over an inbound ghost column is the total
    of the gathered cells of the source column, and likewise outbound. *)
Lemma ghost_column_totals (f : Field) :
  In f (written_fields cfg) ->
  let off := shear_offset (Omega gl) (Lx gl) (Ly gl) (time pG) (dx2 pG) in
  sum_range (js pG) (je pG)
    (fun j => get f (U (shear_ix1_ox1 cfg gl pG var_flag m) k j
                       (is_ pG - nghost cfg + i)%Z))
  == sum_range (js pG) (je pG)
       (fun j => get f (gather_ix1_cell cfg gl
                          (src_ix1 cfg pG m (j_offset off) k j i)
                          (src_ix1 cfg pG m (j_offset off) k j i))) /\
  sum_range (js pG) (je pG)
    (fun j => get f (U (shear_ix1_ox1 cfg gl pG var_flag m) k j (ie pG + 1 + i)%Z))
  == sum_range (js pG) (je pG)
       (fun j => get f (gather_ox1_cell cfg gl
                          (src_ox1 pG m (j_offset off) k j i)
                          (src_ox1 pG m (j_offset off) k j i))).
Proof.
  intros Hf off. pose proof Nx2_positive as Hpos. split.
  - rewrite (sum_range_ext _ _ _
               (fun j => remapped cfg (pencil_ix1 cfg gl pG m (j_offset off) k i)
                           (epsi off) j f)).
    2:{ intros j Hj.
        rewrite (proj1 (shear_ix1_ox1_ghost_cells_aux cfg gl pG var_flag m k j i f
                          Hflag HNx2 Hdepth Hgrid Hk Hj Hi Hf)).
        reflexivity. }
    rewrite remapped_total; [| lia |].
    + apply sum_range_ext. intros j Hj. unfold pencil_ix1. cbv zeta.
      rewrite wrap_j_interior by assumption. reflexivity.
    + intros c. unfold pencil_ix1. cbv zeta. rewrite <- HNx2.
      rewrite wrap_j_period by assumption. reflexivity.
  - rewrite (sum_range_ext _ _ _
               (fun j => remapped cfg (pencil_ox1 cfg gl pG m (j_offset off) k i)
                           (epso off) j f)).
    2:{ intros j Hj.
        rewrite (proj2 (shear_ix1_ox1_ghost_cells_aux cfg gl pG var_flag m k j i f
                          Hflag HNx2 Hdepth Hgrid Hk Hj Hi Hf)).
        reflexivity. }
    rewrite remapped_total; [| lia |].
    + apply sum_range_ext. intros j Hj. unfold pencil_ox1. cbv zeta.
      rewrite wrap_j_interior by assumption. reflexivity.
    + intros c. unfold pencil_ox1. cbv zeta. rewrite <- HNx2.
      rewrite wrap_j_period by assumption. reflexivity.
Qed.
End Totals.

(** The exchange conserves mass and the unboosted momenta: summed over the
    rows [js .. je], density, [M1] and [M3] of every inbound ghost column
    equal those of the column it was taken from on the outbound side, and
    likewise for every outbound ghost column, whatever the fractional shift
    and the reconstruction order. *)
Theorem exchange_conserves_column_totals (cfg : Config) (gl : Globals) (pG : Grid)
    (var_flag : Z) (m : Mem) (k i : Z) (f : Field) :
  var_flag <> 1%Z ->
  Nx2 pG = (je pG - js pG + 1)%Z ->
  (halo cfg <= nghost cfg <= Nx2 pG)%Z ->
  (is_ pG <= ie pG + 1)%Z ->
  (ks pG <= k <= ke pG)%Z -> (0 <= i <= nghost cfg - 1)%Z ->
  (0 <= j_offset (shear_offset (Omega gl) (Lx gl) (Ly gl) (time pG) (dx2 pG))
   <= Nx2 pG)%Z ->
  f = F_d \/ f = F_M1 \/ f = F_M3 ->
  sum_range (js pG) (je pG)
    (fun j => get f (U (shear_ix1_ox1 cfg gl pG var_flag m) k j
                       (is_ pG - nghost cfg + i)%Z))
  == sum_range (js pG) (je pG)
       (fun j => get f (U m k j (ie pG - nghost cfg + 1 + i)%Z)) /\
  sum_range (js pG) (je pG)
    (fun j => get f (U (shear_ix1_ox1 cfg gl pG var_flag m) k j (ie pG + 1 + i)%Z))
  == sum_range (js pG) (je pG) (fun j => get f (U m k j (is_ pG + i)%Z)).
Proof.
  intros Hvf HN Hd Hg Hk Hi Hoff Hf.
  assert (Hw : In f (written_fields cfg)).
  { unfold written_fields. apply in_or_app. left.
    destruct Hf as [-> | [-> | ->]]; simpl; tauto. }
  destruct (ghost_column_totals cfg gl pG m var_flag k i Hvf HN Hd Hg Hk Hi f Hw)
    as [Hin Hout].
  split.
  - rewrite Hin.
    rewrite <- (sum_cyclic_ix1 (js pG) (je pG) (Nx2 pG) _
                  (fun jr => get f (U m k jr (ie pG - nghost cfg + 1 + i)%Z)) HN Hoff).
    apply sum_range_ext. intros j Hj.
    destruct (gather_ix1_cell_members cfg gl
                (src_ix1 cfg pG m
                   (j_offset (shear_offset (Omega gl) (Lx gl) (Ly gl) (time pG) (dx2 pG)))
                   k j i)
                (src_ix1 cfg pG m
                   (j_offset (shear_offset (Omega gl) (Lx gl) (Ly gl) (time pG) (dx2 pG)))
                   k j i)) as (A0 & A1 & _ & A3 & _).
    destruct Hf as [-> | [-> | ->]]; cbn [get]; [rewrite A0 | rewrite A1 | rewrite A3];
      reflexivity.
  - rewrite Hout.
    rewrite <- (sum_cyclic_ox1 (js pG) (je pG) (Nx2 pG) _
                  (fun jr => get f (U m k jr (is_ pG + i)%Z)) HN Hoff).
    apply sum_range_ext. intros j Hj.
    destruct (gather_ox1_cell_members cfg gl
                (src_ox1 pG m
                   (j_offset (shear_offset (Omega gl) (Lx gl) (Ly gl) (time pG) (dx2 pG)))
                   k j i)
                (src_ox1 pG m
                   (j_offset (shear_offset (Omega gl) (Lx gl) (Ly gl) (time pG) (dx2 pG)))
                   k j i)) as (A0 & A1 & _ & A3 & _).
    destruct Hf as [-> | [-> | ->]]; cbn [get]; [rewrite A0 | rewrite A1 | rewrite A3];
      reflexivity.
Qed.

Lemma exchange_conserves_column_totals_witness :
  sum_range (js grid8) (je grid8)
    (fun j => get F_d (U (shear_ix1_ox1 cfg_third box8 grid8 0 mem8) 0%Z j
                         (is_ grid8 - nghost cfg_third + 2)%Z))
  == sum_range (js grid8) (je grid8)
       (fun j => get F_d (U mem8 0%Z j (ie grid8 - nghost cfg_third + 1 + 2)%Z)) /\
  sum_range (js grid8) (je grid8)
    (fun j => get F_d (U (shear_ix1_ox1 cfg_third box8 grid8 0 mem8) 0%Z j
                         (ie grid8 + 1 + 2)%Z))
  == sum_range (js grid8) (je grid8) (fun j => get F_d (U mem8 0%Z j (is_ grid8 + 2)%Z)).
Proof.
  apply (exchange_conserves_column_totals cfg_third box8 grid8 0 mem8 0 2 F_d).
  - discriminate.
  - reflexivity.
  - cbv. split; discriminate.
  - cbv. discriminate.
  - cbv. split; discriminate.
  - cbv. split; discriminate.
  - vm_compute. split; discriminate.
  - left. reflexivity.
Defined.

(** The momentum along the shear is conserved up to the frame boost: the
    total [M2] of an inbound ghost column is that of its source column plus
    [1.5*Omega*Lx] times the total density, and that of an outbound ghost
    column is the source total minus the same term. *)
Theorem exchange_boosts_column_momentum (cfg : Config) (gl : Globals) (pG : Grid)
    (var_flag : Z) (m : Mem) (k i : Z) :
  var_flag <> 1%Z ->
  Nx2 pG = (je pG - js pG + 1)%Z ->
  (halo cfg <= nghost cfg <= Nx2 pG)%Z ->
  (is_ pG <= ie pG + 1)%Z ->
  (ks pG <= k <= ke pG)%Z -> (0 <= i <= nghost cfg - 1)%Z ->
  (0 <= j_offset (shear_offset (Omega gl) (Lx gl) (Ly gl) (time pG) (dx2 pG))
   <= Nx2 pG)%Z ->
  sum_range (js pG) (je pG)
    (fun j => M2 (U (shear_ix1_ox1 cfg gl pG var_flag m) k j (is_ pG - nghost cfg + i)%Z))
  == sum_range (js pG) (je pG) (fun j => M2 (U m k j (ie pG - nghost cfg + 1 + i)%Z))
     + (3 # 2) * Omega gl * Lx gl
       * sum_range (js pG) (je pG) (fun j => d (U m k j (ie pG - nghost cfg + 1 + i)%Z)) /\
  sum_range (js pG) (je pG)
    (fun j => M2 (U (shear_ix1_ox1 cfg gl pG var_flag m) k j (ie pG + 1 + i)%Z))
  == sum_range (js pG) (je pG) (fun j => M2 (U m k j (is_ pG + i)%Z))
     - (3 # 2) * Omega gl * Lx gl
       * sum_range (js pG) (je pG) (fun j => d (U m k j (is_ pG + i)%Z)).
Proof.
  intros Hvf HN Hd Hg Hk Hi Hoff.
  assert (Hw : In F_M2 (written_fields cfg)) by (unfold written_fields; simpl; tauto).
  destruct (ghost_column_totals cfg gl pG m var_flag k i Hvf HN Hd Hg Hk Hi F_M2 Hw)
    as [Hin Hout].
  cbn [get] in Hin, Hout.
  set (joff := j_offset (shear_offset (Omega gl) (Lx gl) (Ly gl) (time pG) (dx2 pG))) in *.
  split.
  - pose (G := fun jr : Z => M2 (U m k jr (ie pG - nghost cfg + 1 + i)%Z)
                             + (3 # 2) * Omega gl * Lx gl
                               * d (U m k jr (ie pG - nghost cfg + 1 + i)%Z)).
    transitivity (sum_range (js pG) (je pG)
                    (fun j => G (j_remap_ix1 (js pG) (Nx2 pG) j joff))).
    { rewrite Hin. apply sum_range_ext. intros j Hj.
      destruct (gather_ix1_cell_members cfg gl (src_ix1 cfg pG m joff k j i)
                  (src_ix1 cfg pG m joff k j i)) as (_ & _ & A2 & _).
      rewrite A2. reflexivity. }
    transitivity (sum_range (js pG) (je pG) G).
    { apply (sum_cyclic_ix1 (js pG) (je pG) (Nx2 pG) joff G HN Hoff). }
    apply (sum_range_plus_scaled (js pG) (je pG)
             (fun jr => M2 (U m k jr (ie pG - nghost cfg + 1 + i)%Z))
             (fun jr => d (U m k jr (ie pG - nghost cfg + 1 + i)%Z))
             ((3 # 2) * Omega gl * Lx gl)).
  - pose (G := fun jr : Z => M2 (U m k jr (is_ pG + i)%Z)
                             + - ((3 # 2) * Omega gl * Lx gl)
                               * d (U m k jr (is_ pG + i)%Z)).
    transitivity (sum_range (js pG) (je pG)
                    (fun j => G (j_remap_ox1 (je pG) (Nx2 pG) j joff))).
    { rewrite Hout. apply sum_range_ext. intros j Hj.
      destruct (gather_ox1_cell_members cfg gl (src_ox1 pG m joff k j i)
                  (src_ox1 pG m joff k j i)) as (_ & _ & A2 & _).
      rewrite A2. unfold G, src_ox1. ring. }
    transitivity (sum_range (js pG) (je pG) G).
    { apply (sum_cyclic_ox1 (js pG) (je pG) (Nx2 pG) joff G HN Hoff). }
    transitivity (sum_range (js pG) (je pG) (fun jr => M2 (U m k jr (is_ pG + i)%Z))
                  + - ((3 # 2) * Omega gl * Lx gl)
                    * sum_range (js pG) (je pG) (fun jr => d (U m k jr (is_ pG + i)%Z))).
    { apply (sum_range_plus_scaled (js pG) (je pG)
               (fun jr => M2 (U m k jr (is_ pG + i)%Z))
               (fun jr => d (U m k jr (is_ pG + i)%Z))
               (- ((3 # 2) * Omega gl * Lx gl))). }
    generalize (sum_range (js pG) (je pG) (fun jr => M2 (U m k jr (is_ pG + i)%Z))).
    generalize (sum_range (js pG) (je pG) (fun jr => d (U m k jr (is_ pG + i)%Z))).
    intros q1 q2. change Real with Q in *. ring.
Qed.

Lemma exchange_boosts_column_momentum_witness :
  sum_range (js grid8) (je grid8)
    (fun j => M2 (U (shear_ix1_ox1 cfg_second box8 grid8 0 mem8) 0%Z j
                    (is_ grid8 - nghost cfg_second + 1)%Z))
  == sum_range (js grid8) (je grid8)
       (fun j => M2 (U mem8 0%Z j (ie grid8 - nghost cfg_second + 1 + 1)%Z))
     + (3 # 2) * Omega box8 * Lx box8
       * sum_range (js grid8) (je grid8)
           (fun j => d (U mem8 0%Z j (ie grid8 - nghost cfg_second + 1 + 1)%Z)) /\
  sum_range (js grid8) (je grid8)
    (fun j => M2 (U (shear_ix1_ox1 cfg_second box8 grid8 0 mem8) 0%Z j
                    (ie grid8 + 1 + 1)%Z))
  == sum_range (js grid8) (je grid8) (fun j => M2 (U mem8 0%Z j (is_ grid8 + 1)%Z))
     - (3 # 2) * Omega box8 * Lx box8
       * sum_range (js grid8) (je grid8) (fun j => d (U mem8 0%Z j (is_ grid8 + 1)%Z)).
Proof.
  apply (exchange_boosts_column_momentum cfg_second box8 grid8 0 mem8 0 1).
  - discriminate.
  - reflexivity.
  - cbv. split; discriminate.
  - cbv. discriminate.
  - cbv. split; discriminate.
  - cbv. split; discriminate.
  - vm_compute. split; discriminate.
Defined.

(** The totals are not trivial on the example: the inbound ghost column
    carries the twelve units of mass of its source column, spread over rows
    that differ from the source rows. *)
Example exchange_totals_example :
  Qred (sum_range (js grid8) (je grid8)
          (fun j => d (U (shear_ix1_ox1 cfg_third box8 grid8 0 mem8) 0%Z j 2%Z))) = 12 /\
  map (fun j => Qred (d (U (shear_ix1_ox1 cfg_third box8 grid8 0 mem8) 0%Z j 2%Z)))
      [4; 5; 6; 7; 8; 9; 10; 11]%Z
  <> map (fun j => Qred (d (U mem8 0%Z j 10%Z))) [4; 5; 6; 7; 8; 9; 10; 11]%Z.
Proof. vm_compute. split; [reflexivity | discriminate]. Qed.

(** *** Positivity under the second-order remap *)

Lemma j_remap_ix1_range (js je Nx2 j j_offset : Z) :
  Nx2 = (je - js + 1)%Z -> (0 <= j_offset <= Nx2)%Z -> (js <= j <= je)%Z ->
  (js <= j_remap_ix1 js Nx2 j j_offset <= je)%Z.
Proof.
  intros HN Hoff Hj. unfold j_remap_ix1. cbv zeta.
  destruct (Z.ltb_spec (j - j_offset) js); lia.
Qed.

Lemma j_remap_ox1_range (js je Nx2 j j_offset : Z) :
  Nx2 = (je - js + 1)%Z -> (0 <= j_offset <= Nx2)%Z -> (js <= j <= je)%Z ->
  (js <= j_remap_ox1 je Nx2 j j_offset <= je)%Z.
Proof.
  intros HN Hoff Hj. unfold j_remap_ox1. cbv zeta.
  destruct (Z.gtb_spec (j + j_offset) je); lia.
Qed.

Lemma epsi_unit_range (Omega Lx Ly time dx2 : Real) :
  0 < Ly -> 0 < dx2 -> 0 <= (3 # 2) * Omega * Lx * time ->
  0 <= epsi (shear_offset Omega Lx Ly time dx2) <= 1 /\
  - (1) <= epso (shear_offset Omega Lx Ly time dx2) <= 0.
Proof.
  intros HLy Hdx Hsh. simpl.
  pose proof (fmod_nonneg_bounds _ Ly Hsh HLy) as Hd.
  pose proof (quotient_in_unit _ dx2 Hdx
                (fmod_nonneg_bounds _ dx2 (proj1 Hd) Hdx)) as [H0 H1].
  repeat split; lra.
Qed.

Lemma between_positive (a v b : Real) : between a v b -> 0 < a -> 0 < b -> 0 < v.
Proof. intros [[H1 H2] | [H1 H2]] Ha Hb; lra. Qed.

(** With the second-order remap and a shear that is not negative, the
    exchange keeps the density positive: if every row of the two source
    columns of ghost layer [i] has positive density at entry, so has every
    row of the inbound and of the outbound ghost column afterwards. *)
Theorem second_order_exchange_keeps_density_positive (cfg : Config) (gl : Globals)
    (pG : Grid) (var_flag : Z) (m : Mem) (k j i : Z) :
  order cfg = SECOND_ORDER ->
  var_flag <> 1%Z ->
  Nx2 pG = (je pG - js pG + 1)%Z ->
  (2 <= nghost cfg <= Nx2 pG)%Z ->
  (is_ pG <= ie pG + 1)%Z ->
  0 < Ly gl -> 0 < dx2 pG -> 0 <= (3 # 2) * Omega gl * Lx gl * time pG ->
  (0 <= j_offset (shear_offset (Omega gl) (Lx gl) (Ly gl) (time pG) (dx2 pG))
   <= Nx2 pG)%Z ->
  (ks pG <= k <= ke pG)%Z -> (js pG <= j <= je pG)%Z -> (0 <= i <= nghost cfg - 1)%Z ->
  (forall jr : Z, (js pG <= jr <= je pG)%Z ->
                  0 < d (U m k jr (ie pG - nghost cfg + 1 + i)%Z) /\
                  0 < d (U m k jr (is_ pG + i)%Z)) ->
  0 < d (U (shear_ix1_ox1 cfg gl pG var_flag m) k j (is_ pG - nghost cfg + i)%Z) /\
  0 < d (U (shear_ix1_ox1 cfg gl pG var_flag m) k j (ie pG + 1 + i)%Z).
Proof.
  intros Ho Hvf HN Hd Hg HLy Hdx Hsh Hoff Hk Hj Hi Hpos.
  assert (Hd' : (halo cfg <= nghost cfg <= Nx2 pG)%Z) by (unfold halo; rewrite Ho; lia).
  assert (Hw : In F_d (written_fields cfg)) by (unfold written_fields; simpl; tauto).
  destruct (shear_ix1_ox1_ghost_cells_aux cfg gl pG var_flag m k j i F_d
              Hvf HN Hd' Hg Hk Hj Hi Hw) as [Hin Hout].
  cbn [get] in Hin, Hout.
  destruct (epsi_unit_range (Omega gl) (Lx gl) (Ly gl) (time pG) (dx2 pG) HLy Hdx Hsh)
    as [Hei Heo].
  set (off := shear_offset (Omega gl) (Lx gl) (Ly gl) (time pG) (dx2 pG)) in *.
  assert (Hwr : forall c, (js pG <= wrap_j pG c <= je pG)%Z).
  { intros c. apply (wrap_j_range cfg pG HN (proj2 Hd') (proj1 Hd')). }
  assert (Pin : forall c, 0 < get F_d (pencil_ix1 cfg gl pG m (j_offset off) k i c)).
  { intros c. unfold pencil_ix1. cbv zeta. cbn [get].
    rewrite (proj1 (gather_ix1_cell_members cfg gl _ _)). unfold src_ix1.
    apply Hpos. apply (j_remap_ix1_range _ (je pG)); auto. }
  assert (Pout : forall c, 0 < get F_d (pencil_ox1 cfg gl pG m (j_offset off) k i c)).
  { intros c. unfold pencil_ox1. cbv zeta. cbn [get].
    rewrite (proj1 (gather_ox1_cell_members cfg gl _ _)). unfold src_ox1.
    apply Hpos. apply (j_remap_ox1_range (js pG)); auto. }
  split.
  - rewrite Hin.
    apply (between_positive _ _ _
             (proj1 (second_order_remap_between_aux cfg _ (epsi off) j F_d Ho) Hei));
      apply Pin.
  - rewrite Hout.
    apply (between_positive _ _ _
             (proj2 (second_order_remap_between_aux cfg _ (epso off) j F_d Ho) Heo));
      apply Pout.
Qed.

Lemma second_order_exchange_keeps_density_positive_witness :
  0 < d (U (shear_ix1_ox1 cfg_second box8 grid8 0 mem8) 0%Z 6%Z
           (is_ grid8 - nghost cfg_second + 1)%Z) /\
  0 < d (U (shear_ix1_ox1 cfg_second box8 grid8 0 mem8) 0%Z 6%Z (ie grid8 + 1 + 1)%Z).
Proof.
  apply (second_order_exchange_keeps_density_positive cfg_second box8 grid8 0 mem8 0 6 1).
  - reflexivity.
  - discriminate.
  - reflexivity.
  - cbv. split; discriminate.
  - cbv. discriminate.
  - reflexivity.
  - reflexivity.
  - cbv. discriminate.
  - vm_compute. split; discriminate.
  - cbv. split; discriminate.
  - cbv. split; discriminate.
  - cbv. split; discriminate.
  - intros jr _. unfold mem8, step_pencil. cbn [U d gas_of_density gas_of].
    destruct ((jr - 4) mod 8 <? 4)%Z; split; reflexivity.
Defined.

(** ** [ran2] *)

Lemma lcg1_spec (x : Z) :
  (0 <= x < IM1)%Z ->
  lcg1 x = ((IA1 * x) mod IM1)%Z /\ Forall fits_int32 (lcg1_values x).
Proof.
  intros Hx. unfold lcg1_values, lcg1. cbv zeta.
  unfold IM1, IA1, IQ1, IR1 in *.
  rewrite Z.quot_div_nonneg by lia.
  pose proof (Z.div_mod x 53668 ltac:(lia)) as Hdm.
  pose proof (Z.mod_pos_bound x 53668 ltac:(lia)) as Hm.
  set (k := (x / 53668)%Z) in *. set (r := (x mod 53668)%Z) in *.
  assert (Hk : (0 <= k <= 40014)%Z) by lia.
  replace (x - k * 53668)%Z with r by lia.
  assert (Hres : (if (40014 * r - k * 12211 <? 0)%Z
                  then (40014 * r - k * 12211 + 2147483563)%Z
                  else (40014 * r - k * 12211)%Z)
                 = ((40014 * x) mod 2147483563)%Z).
  { destruct (Z.ltb_spec (40014 * r - k * 12211) 0).
    - apply (Z.mod_unique _ _ (k - 1)); lia.
    - apply (Z.mod_unique _ _ k); lia. }
  split; [exact Hres |].
  rewrite Hres.
  pose proof (Z.mod_pos_bound (40014 * x) 2147483563 ltac:(lia)) as Hb.
  unfold fits_int32. repeat constructor; lia.
Qed.

Lemma lcg2_spec (x : Z) :
  (0 <= x < IM2)%Z ->
  lcg2 x = ((IA2 * x) mod IM2)%Z /\ Forall fits_int32 (lcg2_values x).
Proof.
  intros Hx. unfold lcg2_values, lcg2. cbv zeta.
  unfold IM2, IA2, IQ2, IR2 in *.
  rewrite Z.quot_div_nonneg by lia.
  pose proof (Z.div_mod x 52774 ltac:(lia)) as Hdm.
  pose proof (Z.mod_pos_bound x 52774 ltac:(lia)) as Hm.
  set (k := (x / 52774)%Z) in *. set (r := (x mod 52774)%Z) in *.
  assert (Hk : (0 <= k <= 40692)%Z) by lia.
  replace (x - k * 52774)%Z with r by lia.
  assert (Hres : (if (40692 * r - k * 3791 <? 0)%Z
                  then (40692 * r - k * 3791 + 2147483399)%Z
                  else (40692 * r - k * 3791)%Z)
                 = ((40692 * x) mod 2147483399)%Z).
  { destruct (Z.ltb_spec (40692 * r - k * 3791) 0).
    - apply (Z.mod_unique _ _ (k - 1)); lia.
    - apply (Z.mod_unique _ _ k); lia. }
  split; [exact Hres |].
  rewrite Hres.
  pose proof (Z.mod_pos_bound (40692 * x) 2147483399 ltac:(lia)) as Hb.
  unfold fits_int32. repeat constructor; lia.
Qed.

(** A multiplier with an inverse modulo [M] sends no residue but zero to
    zero. *)
Lemma invertible_nonzero (A Ainv T M x : Z) :
  (Ainv * A = 1 + T * M)%Z -> (0 < M)%Z -> (1 <= x < M)%Z -> ((A * x) mod M <> 0)%Z.
Proof.
  intros Hinv HM Hx H0.
  apply Z.mod_divide in H0; [| lia]. destruct H0 as [q Hq].
  assert (E1 : (Ainv * A * x = x + T * M * x)%Z) by (rewrite Hinv; ring).
  assert (E2 : (Ainv * A * x = Ainv * q * M)%Z)
    by (rewrite <- Z.mul_assoc, Hq; ring).
  assert (Hx' : (x = (Ainv * q - T * x) * M)%Z) by lia.
  assert (Hd : (M | x)%Z) by (exists (Ainv * q - T * x)%Z; exact Hx').
  apply Z.divide_pos_le in Hd; lia.
Qed.

Lemma lcg1_range (x : Z) : (1 <= x <= IM1 - 1)%Z -> (1 <= lcg1 x <= IM1 - 1)%Z.
Proof.
  intros Hx. rewrite (proj1 (lcg1_spec x ltac:(lia))).
  pose proof (Z.mod_pos_bound (IA1 * x) IM1 ltac:(unfold IM1; lia)) as Hb.
  pose proof (invertible_nonzero IA1 2082061899 38795 IM1 x
                ltac:(reflexivity) ltac:(reflexivity) ltac:(lia)).
  lia.
Qed.

Lemma lcg2_range (x : Z) : (1 <= x <= IM2 - 1)%Z -> (1 <= lcg2 x <= IM2 - 1)%Z.
Proof.
  intros Hx. rewrite (proj1 (lcg2_spec x ltac:(lia))).
  pose proof (Z.mod_pos_bound (IA2 * x) IM2 ltac:(unfold IM2; lia)) as Hb.
  pose proof (invertible_nonzero IA2 1481316021 28069 IM2 x
                ltac:(reflexivity) ltac:(reflexivity) ltac:(lia)).
  lia.
Qed.

Lemma for_down_rule {S : Type} (I : Z -> S -> Prop) (body : Z -> S -> S) (n : nat) :
  forall (j : Z) (st : S),
    I j st ->
    (forall i s, (j - Z.of_nat n < i <= j)%Z -> I i s -> I (i - 1)%Z (body i s)) ->
    I (j - Z.of_nat n)%Z (for_down n j body st).
Proof.
  induction n as [| n IH]; intros j st H0 Hstep; cbn [for_down].
  - replace (j - Z.of_nat 0)%Z with j by lia. assumption.
  - replace (j - Z.of_nat (Datatypes.S n))%Z with (j - 1 - Z.of_nat n)%Z by lia.
    apply IH.
    + apply Hstep; [lia | assumption].
    + intros i s0 Hi. apply Hstep. lia.
Qed.

(** The load leaves [*idum] and every entry of the table between 1 and
    [IM1 - 1]. *)
Lemma ran2_load_range (idum : Z) (iv0 : Z -> Z) :
  (1 <= idum <= IM1 - 1)%Z ->
  (1 <= fst (ran2_load idum iv0) <= IM1 - 1)%Z /\
  (forall j, (0 <= j < NTAB)%Z -> (1 <= snd (ran2_load idum iv0) j <= IM1 - 1)%Z).
Proof.
  intros Hx. unfold ran2_load.
  pose (I := fun (jc : Z) (s : Z * (Z -> Z)) =>
               (1 <= fst s <= IM1 - 1)%Z /\
               (forall j, (0 <= j < NTAB)%Z -> (jc < j)%Z -> (1 <= snd s j <= IM1 - 1)%Z)).
  assert (Hfin : I (NTAB + 7 - Z.of_nat (Z.to_nat (NTAB + 7 + 1)))%Z
            (for_down (Z.to_nat (NTAB + 7 + 1)) (NTAB + 7)%Z
               (fun j '(idum, iv) =>
                  let idum := lcg1 idum in
                  (idum, if (j <? NTAB)%Z then upd iv j idum else iv))
               (idum, iv0))).
  { apply (for_down_rule I).
    - unfold I. cbn [fst snd]. split; [assumption |]. unfold NTAB. intros; lia.
    - intros i [x tab] Hi [Hx1 Htab]. cbn [fst snd] in *. unfold I. cbn [fst snd].
      pose proof (lcg1_range x Hx1) as Hl. split; [exact Hl |].
      intros j Hj Hlt. destruct (Z.ltb_spec i NTAB).
      + unfold upd. destruct (Z.eq_dec j i) as [-> | Hne]; [exact Hl |].
        apply Htab; [assumption | lia].
      + apply Htab; [assumption | lia]. }
  destruct Hfin as [H1 H2]. split; [exact H1 |].
  intros j Hj. apply H2; [assumption |]. unfold NTAB in *. simpl. lia.
Qed.

Lemma ran2_init_ok (idum : Z) (st : Ran2) :
  ran2_state_ok st ->
  (- IM2 < idum <= IM1 - 1)%Z ->
  (1 <= fst (ran2_init idum st) <= IM1 - 1)%Z /\ ran2_state_ok (snd (ran2_init idum st)).
Proof.
  intros Hst Hx. unfold ran2_init.
  destruct (Z.leb_spec idum 0) as [Hle | Hgt].
  - set (s := if (- idum <? 1)%Z then 1%Z else (- idum)%Z).
    assert (Hs : (1 <= s <= IM2 - 1)%Z).
    { unfold s. destruct (Z.ltb_spec (- idum) 1); unfold IM2 in *; lia. }
    assert (Hs1 : (1 <= s <= IM1 - 1)%Z) by (unfold IM1, IM2 in *; lia).
    pose proof (ran2_load_range s (iv st) Hs1) as [L1 L2].
    destruct (ran2_load s (iv st)) as [x tab]. cbn [fst snd] in *.
    split; [exact L1 |]. unfold ran2_state_ok. cbn [idum2 iy iv]. repeat split.
    + lia.
    + lia.
    + pose proof (L2 0%Z ltac:(unfold NTAB; lia)). lia.
    + pose proof (L2 0%Z ltac:(unfold NTAB; lia)). unfold IMM1. lia.
    + pose proof (L2 j H). lia.
    + pose proof (L2 j H). lia.
  - cbn [fst snd]. split; [lia | assumption].
Qed.

Lemma shuffle_index_range (y : Z) : (0 <= y <= IMM1)%Z -> (0 <= Z.quot y NDIV < NTAB)%Z.
Proof.
  intros Hy. change NDIV with 67108862%Z. unfold IMM1, IM1, NTAB in *.
  rewrite Z.quot_div_nonneg by lia.
  split.
  - apply Z.div_pos; lia.
  - apply Z.div_lt_upper_bound; lia.
Qed.

Lemma deviate_range (y : Z) :
  (1 <= y <= IMM1)%Z ->
  0 < AM * inject_Z y /\ AM * inject_Z y < 1 /\ AM * inject_Z y <= RNMX.
Proof.
  intros Hy. unfold IMM1, IM1 in Hy.
  change AM with (1 * / (2147483563 # 1)). change (/ (2147483563 # 1)) with (1 # 2147483563).
  unfold RNMX, DBL_EPSILON.
  assert (H1 : inject_Z 1 <= inject_Z y) by (rewrite <- (Zle_Qle 1 y); lia).
  assert (H2 : inject_Z y <= inject_Z 2147483562)
    by (rewrite <- (Zle_Qle y 2147483562); lia).
  change (inject_Z 1) with 1 in H1.
  change (inject_Z 2147483562) with (2147483562 # 1) in H2.
  set (q := inject_Z y) in *.
  repeat split; lra.
Qed.

Lemma ran2_draw_ok (idum : Z) (st : Ran2) :
  ran2_state_ok st -> (1 <= idum <= IM1 - 1)%Z ->
  0 < fst (fst (ran2_draw idum st)) < 1 /\
  (1 <= snd (fst (ran2_draw idum st)) <= IM1 - 1)%Z /\
  ran2_state_ok (snd (ran2_draw idum st)) /\
  (1 <= iy (snd (ran2_draw idum st)))%Z.
Proof.
  intros (H2 & Hy & Htab) Hx. unfold ran2_draw. cbv zeta. cbn [fst snd iy].
  pose proof (lcg1_range idum Hx) as Hl1.
  pose proof (lcg2_range (idum2 st) H2) as Hl2.
  pose proof (shuffle_index_range (iy st) Hy) as Hj.
  pose proof (Htab _ Hj) as Hv.
  set (j := Z.quot (iy st) NDIV) in *.
  set (y := if (iv st j - lcg2 (idum2 st) <? 1)%Z
            then (iv st j - lcg2 (idum2 st) + IMM1)%Z
            else (iv st j - lcg2 (idum2 st))%Z).
  assert (Hy' : (1 <= y <= IMM1)%Z).
  { unfold y. destruct (Z.ltb_spec (iv st j - lcg2 (idum2 st)) 1);
      unfold IMM1, IM1, IM2 in *; lia. }
  destruct (deviate_range y Hy') as (D0 & D1 & D2).
  assert (Hb : (RNMX <? AM * inject_Z y) = false).
  { pose proof (Rlt_b_spec RNMX (AM * inject_Z y)) as Hc.
    destruct (RNMX <? AM * inject_Z y); [exfalso; lra | reflexivity]. }
  rewrite Hb. split; [split; assumption |]. split; [exact Hl1 |].
  split; [| lia].
  unfold ran2_state_ok. cbn [idum2 iy iv]. split; [exact Hl2 |]. split; [lia |].
  intros k Hk. unfold upd. destruct (Z.eq_dec k j); [lia | apply Htab; assumption].
Qed.

Lemma ran2_start_ok : ran2_state_ok ran2_start.
Proof.
  unfold ran2_state_ok, ran2_start. cbn [idum2 iy iv].
  unfold IM2, IMM1, IM1. repeat split; intros; lia.
Qed.

(** Schrage's method in [ran2]: on a state of either generator, the three
    statements that advance it compute the modular product
    [IA*x mod IM], and every value they pass through fits a signed 32-bit
    integer, although the product [IA*x] itself does not. *)
Theorem schrage_steps_do_not_overflow (x1 x2 : Z) :
  (0 <= x1 < IM1)%Z -> (0 <= x2 < IM2)%Z ->
  lcg1 x1 = ((IA1 * x1) mod IM1)%Z /\ Forall fits_int32 (lcg1_values x1) /\
  lcg2 x2 = ((IA2 * x2) mod IM2)%Z /\ Forall fits_int32 (lcg2_values x2).
Proof.
  intros H1 H2.
  destruct (lcg1_spec x1 H1) as [A1 B1]. destruct (lcg2_spec x2 H2) as [A2 B2].
  repeat split; assumption.
Qed.

Lemma schrage_steps_do_not_overflow_witness :
  lcg1 2147483562 = ((IA1 * 2147483562) mod IM1)%Z /\
  Forall fits_int32 (lcg1_values 2147483562) /\
  lcg2 123456789 = ((IA2 * 123456789) mod IM2)%Z /\
  Forall fits_int32 (lcg2_values 123456789).
Proof.
  apply (schrage_steps_do_not_overflow 2147483562 123456789).
  - unfold IM1. lia.
  - unfold IM2. lia.
Defined.

(** One call of [ran2], with a seed that asks for initialisation
    ([-IM2 < *idum <= 0]) or with the [*idum] of an earlier call: the
    deviate lies strictly between 0 and 1, the shuffle index is inside the
    table, the new [*idum] is positive, so that the next call does not
    initialise again, and the statics satisfy [ran2_state_ok] again. *)
Theorem ran2_deviate_in_unit_interval (idum : Z) (st : Ran2) :
  ran2_state_ok st -> (- IM2 < idum <= IM1 - 1)%Z ->
  0 < fst (fst (ran2 idum st)) < 1 /\
  (0 <= Z.quot (iy (snd (ran2_init idum st))) NDIV < NTAB)%Z /\
  (1 <= snd (fst (ran2 idum st)) <= IM1 - 1)%Z /\
  ran2_state_ok (snd (ran2 idum st)).
Proof.
  intros Hst Hx. unfold ran2.
  destruct (ran2_init_ok idum st Hst Hx) as [Hi Hs].
  destruct (ran2_init idum st) as [x st1]. cbn [fst snd] in *.
  destruct (ran2_draw_ok x st1 Hs Hi) as (D1 & D2 & D3 & _).
  split; [exact D1 |]. split; [| split; assumption].
  apply shuffle_index_range. apply Hs.
Qed.

Lemma ran2_deviate_in_unit_interval_witness :
  0 < fst (fst (ran2 (-1) ran2_start)) < 1 /\
  (0 <= Z.quot (iy (snd (ran2_init (-1) ran2_start))) NDIV < NTAB)%Z /\
  (1 <= snd (fst (ran2 (-1) ran2_start)) <= IM1 - 1)%Z /\
  ran2_state_ok (snd (ran2 (-1) ran2_start)).
Proof.
  apply (ran2_deviate_in_unit_interval (-1) ran2_start).
  - exact ran2_start_ok.
  - unfold IM1, IM2. lia.
Defined.

(** ** The problem generator and the [dVy] expression *)

Lemma problem_cell_members (cfg : Config) (gl : Globals)
    (Gamma_1 rd rp rvx rvy rvz x1 : Real) (bfield : option Real) (U : Gas) :
  d (problem_cell cfg gl Gamma_1 rd rp rvx rvy rvz x1 bfield U) = rd /\
  M1 (problem_cell cfg gl Gamma_1 rd rp rvx rvy rvz x1 bfield U) = rd * rvx /\
  M2 (problem_cell cfg gl Gamma_1 rd rp rvx rvy rvz x1 bfield U)
    = rd * (rvy - (3 # 2) * Omega gl * x1) /\
  M3 (problem_cell cfg gl Gamma_1 rd rp rvx rvy rvz x1 bfield U) = rd * rvz.
Proof.
  unfold problem_cell. cbv zeta.
  destruct (ADIABATIC cfg), (MHD cfg), bfield; repeat split; reflexivity.
Qed.

(** The expression [dVy] evaluated on a cell that [problem] has just
    initialised is the velocity perturbation [rvy] that went in, whatever the
    position of the cell, the equation of state and the field. *)
Theorem expr_dV2_reads_back_perturbation (cfg : Config) (gl : Globals)
    (Gamma_1 rd rp rvx rvy rvz x1 : Real) (bfield : option Real) (U : Gas) :
  ~ rd == 0 ->
  expr_dV2 gl x1 (problem_cell cfg gl Gamma_1 rd rp rvx rvy rvz x1 bfield U) == rvy.
Proof.
  intros Hrd.
  destruct (problem_cell_members cfg gl Gamma_1 rd rp rvx rvy rvz x1 bfield U)
    as (Hd & _ & H2 & _).
  unfold expr_dV2. rewrite Hd, H2.
  generalize (Omega gl). intros Om. change Real with Q in *. field. assumption.
Qed.

Lemma expr_dV2_reads_back_perturbation_witness :
  expr_dV2 box8 (5 # 16)
    (problem_cell cfg_second box8 (2 # 3) 1 (1 # 1000000) (1 # 100) (1 # 50) 0
       (5 # 16) None gas_one) == 1 # 50.
Proof.
  apply (expr_dV2_reads_back_perturbation cfg_second box8 (2 # 3) 1 (1 # 1000000)
           (1 # 100) (1 # 50) 0 (5 # 16) None gas_one).
  discriminate.
Defined.

(** The energy [problem] stores is the thermal energy [rp/Gamma_1] on top of
    the kinetic and, with MHD, the magnetic energy of the cell: taking both
    off the stored energy gives [rp/Gamma_1] back. *)
Theorem problem_cell_thermal_energy (cfg : Config) (gl : Globals)
    (Gamma_1 rd rp rvx rvy rvz x1 : Real) (bfield : option Real) (U : Gas) :
  ADIABATIC cfg = true -> ~ rd == 0 -> ~ Gamma_1 == 0 ->
  (if MHD cfg then thermal_energy else internal_energy)
    (problem_cell cfg gl Gamma_1 rd rp rvx rvy rvz x1 bfield U) == rp / Gamma_1.
Proof.
  intros Had Hrd Hg. unfold problem_cell. cbv zeta. rewrite Had.
  generalize (Omega gl). intros Om.
  destruct (MHD cfg), bfield as [b |]; unfold thermal_energy, internal_energy, SQR;
    cbn [set get d M1 M2 M3 E B1c B2c B3c];
    generalize (B1c U) (B2c U) (B3c U); intros b1 b2 b3;
    change Real with Q in *; field; split; assumption.
Qed.

Lemma problem_cell_thermal_energy_witness :
  internal_energy
    (problem_cell cfg_second box8 (2 # 3) 1 (1 # 1000000) (1 # 100) (1 # 50) 0
       (5 # 16) None gas_one) == (1 # 1000000) / (2 # 3).
Proof.
  apply (problem_cell_thermal_energy cfg_second box8 (2 # 3) 1 (1 # 1000000)
           (1 # 100) (1 # 50) 0 (5 # 16) None gas_one).
  - reflexivity.
  - discriminate.
  - discriminate.
Defined.

(** The momentum boost of the gather is the one that keeps [dVy] continuous
    through the radial boundary: the cell copied into an inner ghost zone,
    one box length [Lx] to the left of its source, and the cell copied into
    an outer ghost zone, one box length to the right, have the [dVy] of the
    source at its own place. *)
Theorem gather_keeps_dVy (cfg : Config) (gl : Globals) (x1 : Real) (src dst : Gas) :
  ~ d src == 0 ->
  expr_dV2 gl (x1 - Lx gl) (gather_ix1_cell cfg gl src dst) == expr_dV2 gl x1 src /\
  expr_dV2 gl (x1 + Lx gl) (gather_ox1_cell cfg gl src dst) == expr_dV2 gl x1 src.
Proof.
  intros Hd.
  destruct (gather_ix1_cell_members cfg gl src dst) as (Hi0 & _ & Hi2 & _).
  destruct (gather_ox1_cell_members cfg gl src dst) as (Ho0 & _ & Ho2 & _).
  unfold expr_dV2. rewrite Hi0, Hi2, Ho0, Ho2.
  generalize (Omega gl) (Lx gl) (d src) (M2 src) Hd. intros Om L r m Hr.
  change Real with Q in *. split; field; assumption.
Qed.

Lemma gather_keeps_dVy_witness :
  expr_dV2 box8 ((5 # 16) - Lx box8)
    (gather_ix1_cell cfg_second box8 (gas_of_density 2) gas_one)
    == expr_dV2 box8 (5 # 16) (gas_of_density 2) /\
  expr_dV2 box8 ((5 # 16) + Lx box8)
    (gather_ox1_cell cfg_second box8 (gas_of_density 2) gas_one)
    == expr_dV2 box8 (5 # 16) (gas_of_density 2).
Proof.
  apply (gather_keeps_dVy cfg_second box8 (5 # 16) (gas_of_density 2) gas_one).
  discriminate.
Defined.

(** ** A shear of whole cells *)







